(** * open-weather-router-api: the request pipeline, verified against its code

    A shallow embedding of [src/services/ApiKeyManager.js] (the credential
    ledger and selector), [src/services/WeatherService.js] (cache, in-flight
    coalescing, fetch loop) and the [/onecall] handler of
    [src/routes/weather.js].

    Conventions of the embedding:
    - a JavaScript object used as a dictionary, a [Map], the Redis keyspace
      and the node-cache store are [gmap string _];
    - JavaScript integers (counters, milliseconds) are [Z];
    - an [async] function is a state-passing function on [World]; a thrown
      error is the [Throw] result;
    - the request log of the [/onecall] route ([request.log]) is part of
      the world; the output of [console.*] is not modelled. *)

From Stdlib Require Import ZArith Lia Ascii String.
From stdpp Require Import gmap strings list sorting pretty.

Local Open Scope Z_scope.

(** ** JavaScript strings *)

Module Js.

(** [arr.join(sep)] on an array of strings. *)
Fixpoint join (sep : string) (parts : list string) : string :=
  match parts with
  | [] => ""
  | [p] => p
  | p :: rest => p +:+ sep +:+ join sep rest
  end.

(** [s.startsWith(p)]. *)
Fixpoint startsWith (p s : string) : bool :=
  match p, s with
  | EmptyString, _ => true
  | String a p', String b s' => if decide (a = b) then startsWith p' s' else false
  | String _ _, EmptyString => false
  end.

(** [s.includes(needle)]. *)
Fixpoint includes (needle s : string) : bool :=
  startsWith needle s ||
  match s with
  | EmptyString => false
  | String _ s' => includes needle s'
  end.

(** [s.split(c)[0]]: the text before the first occurrence of [c]. *)
Fixpoint beforeFirst (c : ascii) (s : string) : string :=
  match s with
  | EmptyString => EmptyString
  | String a s' => if decide (a = c) then EmptyString else String a (beforeFirst c s')
  end.

(** [String(n).padStart(w, '0')] for an integer [n] of at most [w] digits,
    [0 <= n < 10^w]. *)
Definition digit (n : Z) : ascii := ascii_of_nat (48 + Z.to_nat (n `mod` 10)).

Fixpoint pad (w : nat) (n : Z) : string :=
  match w with
  | O => ""
  | S w' => pad w' (n `div` 10) +:+ String (digit n) ""
  end.

End Js.

(** ** JavaScript [Date]

    A time value is the number of milliseconds since the epoch, in UTC.
    [civil] is the year/month/day of a day number (ECMAScript's
    YearFromTime, MonthFromTime and DateFromTime, computed by the usual
    era-based algorithm). *)

Module JsDate.

Definition msPerDay : Z := 86400000.

Definition Day (t : Z) : Z := t `div` msPerDay.
Definition TimeWithinDay (t : Z) : Z := t `mod` msPerDay.

Definition civil (days : Z) : Z * Z * Z :=
  let z := days + 719468 in
  let era := z `div` 146097 in
  let doe := z - era * 146097 in
  let yoe := (doe - doe `div` 1460 + doe `div` 36524 - doe `div` 146096) `div` 365 in
  let doy := doe - (365 * yoe + yoe `div` 4 - yoe `div` 100) in
  let mp := (5 * doy + 2) `div` 153 in
  let d := doy - (153 * mp + 2) `div` 5 + 1 in
  let m := if decide (mp < 10) then mp + 3 else mp - 9 in
  let y := yoe + era * 400 + (if decide (m <= 2) then 1 else 0) in
  (y, m, d).

(** The year of an ISO string: four digits for 0..9999, otherwise a sign
    and six digits. *)
Definition isoYear (y : Z) : string :=
  if decide (0 <= y <= 9999) then Js.pad 4 y
  else (if decide (y < 0) then "-" else "+") +:+ Js.pad 6 (Z.abs y).

Definition isoDate (days : Z) : string :=
  let '(y, m, d) := civil days in
  isoYear y +:+ "-" +:+ Js.pad 2 m +:+ "-" +:+ Js.pad 2 d.

Definition isoTime (ms : Z) : string :=
  Js.pad 2 (ms `div` 3600000) +:+ ":" +:+
  Js.pad 2 ((ms `div` 60000) `mod` 60) +:+ ":" +:+
  Js.pad 2 ((ms `div` 1000) `mod` 60) +:+ "." +:+
  Js.pad 3 (ms `mod` 1000).

(** [new Date(t).toISOString()]: always UTC. *)
Definition toISOString (t : Z) : string :=
  isoDate (Day t) +:+ "T" +:+ isoTime (TimeWithinDay t) +:+ "Z".

(** Local time of a server whose zone is [tz] minutes east of UTC
    (ECMAScript's LocalTime, for a zone without daylight saving). *)
Definition LocalTime (tz t : Z) : Z := t + tz * 60000.

(** The calendar date on the server's wall clock, as YYYY-MM-DD. *)
Definition localDateString (tz t : Z) : string := isoDate (Day (LocalTime tz t)).

End JsDate.

(** ** ApiKeyManager: the day key *)

(** [getTodayString()], with [now] the value of [new Date()]. *)
Definition getTodayString (now : Z) : string :=
  Js.beforeFirst "T" (JsDate.toISOString now).

(** [getNextResetTime()]: [setDate(getDate() + 1); setHours(0, 0, 0, 0)]
    work on local time (here that of a zone without daylight saving, [tz]
    minutes east of UTC); the result is printed in UTC. *)
Definition getNextResetTime (tz now : Z) : string :=
  let localMidnight := (JsDate.Day (JsDate.LocalTime tz now) + 1) * JsDate.msPerDay in
  JsDate.toISOString (localMidnight - tz * 60000).

(** ** JavaScript values, errors and results *)

(** The values the service handles opaquely (response bodies, fields of a
    JSON reply).  An object or array is represented by its JSON text. *)
Inductive JsVal :=
  | JUndefined
  | JNull
  | JBool (b : bool)
  | JNum (n : Z)
  | JStr (s : string)
  | JObj (json : string).

(** ToBoolean. *)
Definition truthy (v : JsVal) : bool :=
  match v with
  | JUndefined | JNull => false
  | JBool b => b
  | JNum n => negb (n =? 0)
  | JStr s => negb (String.eqb s "")
  | JObj _ => true
  end.

(** The errors that travel through the service.  An axios failure carries
    [response] when the upstream answered with a non-2xx status and
    [request] when no answer arrived. *)
Inductive JsErr :=
  | Error (message : string)
  | AxiosResponseError (message : string) (status : Z) (data : JsVal)
  | AxiosRequestError (message : string)
  | ThrownNull.

Inductive res (A : Type) :=
  | Ok (a : A)
  | Throw (e : JsErr).
Arguments Ok {A} a.
Arguments Throw {A} e.

(** ** The world the service runs in *)

(** One configured credential ([loadApiKeys]). *)
Record KeyInfo := { id : string; key : string; priority : Z }.

(** An element of the selector's result:
    [{...keyInfo, currentUsage, currentErrors}]. *)
Record AvailableKey := {
  keyInfo : KeyInfo;
  currentUsage : Z;
  currentErrors : Z }.

(** The Redis keyspace of the service: the keys under the [keyPrefix] of
    its ioredis client, each by the name the code gives it (the name in the
    database without the prefix): integer strings (written by INCR only, so
    always integers; read by GET) and lists (written by LPUSH).  Expiry
    after 48 hours is not modelled. *)
Record RedisStore := {
  strings : gmap string Z;
  lists : gmap string (list Z) }.

Inductive RedisCmd :=
  | GET (k : string)
  | INCR (k : string)
  | EXPIRE (k : string) (seconds : Z)
  | LPUSH (k : string) (v : Z)
  | KEYS (pattern : string)
  | DEL (ks : list string).

(** [this.stats] of WeatherService; [minResponseTime] starts at
    [Infinity], here [None]. *)
Record Stats := {
  totalRequests : Z;
  cacheHits : Z;
  cacheWrites : Z;
  apiCalls : Z;
  errors : Z;
  responseTimeSum : Z;
  maxResponseTime : Z;
  minResponseTime : option Z }.

(** What [httpClient.get] does: resolve with [data] on a 2xx status, reject
    otherwise; [elapsed] is the time the call takes. *)
Inductive HttpResult :=
  | Http2xx (data : JsVal)
  | HttpStatus (status : Z) (data : JsVal)
  | HttpNoResponse (message : string).

Record HttpReply := { result : HttpResult; elapsed : Z }.

(** What the fetch loop does, in program order: it asks the selector
    (at the start of an attempt), it sends a request upstream with a
    credential (and learns whether the answer is 2xx), it sleeps. *)
Inductive Event :=
  | EvSelect (attempt : Z)
  | EvUpstream (keyId : string) (day : string) (url : string) (ok : bool)
  | EvSleep (ms : Z).

(** What the [/onecall] route writes to the request log ([request.log]),
    in program order: the entry of the [preHandler] with the query as
    received, the entry at the start of the handler, the entry of a served
    request and the entry of the [catch] block with the query again.  The
    fields taken from the connection and from the process (address, user
    agent, process ids) are left out. *)
Inductive LogEntry :=
  | LogReceived (query : gmap string string)
  | LogHandling
  | LogCompleted (responseTime : Z) (hasData : bool)
  | LogFailed (message : string) (responseTime : Z) (query : gmap string string).

Record World := {
  now : Z;
  redisConnected : bool;
  redis : RedisStore;
  cache : gmap string (JsVal * Z);
  pendingRequests : gmap string (res JsVal);
  stats : Stats;
  calls : nat;
  trace : list Event;
  logs : list LogEntry }.

(** The process environment: which Redis commands are rejected, the names
    of the keys that other programs keep in the same database (outside
    [keyPrefix]) at each instant, and what the upstream answers to the
    [n]-th request of the process. *)
Record Env := {
  redisFails : RedisCmd → bool;
  foreignKeys : Z → list string;
  upstream : nat → string → HttpReply }.

(** Values fixed at construction time, from [process.env], and the fate of
    the initialization promise: [initialized] when it resolved (the Redis
    client connected), otherwise rejected with an error whose message is
    [initFailure] (that of the first error event of the client, or
    [Redis连接超时] when six seconds pass first). *)
Record Config := {
  keys : list KeyInfo;
  dailyLimit : Z;
  retryCount : Z;
  retryDelay : Z;
  cacheEnabled : bool;
  stdTTL : Z;
  maxKeys : Z;
  initialized : bool;
  initFailure : string;
  appIdKey : option string }.

Definition setNow (t : Z) (w : World) : World :=
  {| now := t; redisConnected := redisConnected w; redis := redis w;
     cache := cache w; pendingRequests := pendingRequests w; stats := stats w;
     calls := calls w; trace := trace w; logs := logs w |}.

Definition setRedisConnected (b : bool) (w : World) : World :=
  {| now := now w; redisConnected := b; redis := redis w;
     cache := cache w; pendingRequests := pendingRequests w; stats := stats w;
     calls := calls w; trace := trace w; logs := logs w |}.

Definition setRedis (r : RedisStore) (w : World) : World :=
  {| now := now w; redisConnected := redisConnected w; redis := r;
     cache := cache w; pendingRequests := pendingRequests w; stats := stats w;
     calls := calls w; trace := trace w; logs := logs w |}.

Definition setCache (c : gmap string (JsVal * Z)) (w : World) : World :=
  {| now := now w; redisConnected := redisConnected w; redis := redis w;
     cache := c; pendingRequests := pendingRequests w; stats := stats w;
     calls := calls w; trace := trace w; logs := logs w |}.

Definition setPendingRequests (p : gmap string (res JsVal)) (w : World) : World :=
  {| now := now w; redisConnected := redisConnected w; redis := redis w;
     cache := cache w; pendingRequests := p; stats := stats w;
     calls := calls w; trace := trace w; logs := logs w |}.

Definition setStats (s : Stats) (w : World) : World :=
  {| now := now w; redisConnected := redisConnected w; redis := redis w;
     cache := cache w; pendingRequests := pendingRequests w; stats := s;
     calls := calls w; trace := trace w; logs := logs w |}.

Definition setCalls (n : nat) (w : World) : World :=
  {| now := now w; redisConnected := redisConnected w; redis := redis w;
     cache := cache w; pendingRequests := pendingRequests w; stats := stats w;
     calls := n; trace := trace w; logs := logs w |}.

Definition setLogs (l : list LogEntry) (w : World) : World :=
  {| now := now w; redisConnected := redisConnected w; redis := redis w;
     cache := cache w; pendingRequests := pendingRequests w; stats := stats w;
     calls := calls w; trace := trace w; logs := l |}.

Definition emit (e : Event) (w : World) : World :=
  {| now := now w; redisConnected := redisConnected w; redis := redis w;
     cache := cache w; pendingRequests := pendingRequests w; stats := stats w;
     calls := calls w; trace := trace w ++ [e]; logs := logs w |}.

(** ** Async code as a state and error monad *)

Definition M (A : Type) : Type := World → res A * World.

Global Instance M_ret : MRet M := λ A a w, (Ok a, w).

Global Instance M_bind : MBind M := λ A B f m w,
  match m w with
  | (Ok a, w') => f a w'
  | (Throw e, w') => (Throw e, w')
  end.

Definition throw {A} (e : JsErr) : M A := λ w, (Throw e, w).

(** [try { body } catch (error) { handler }]. *)
Definition tryCatch {A} (body : M A) (handler : JsErr → M A) : M A := λ w,
  match body w with
  | (Ok a, w') => (Ok a, w')
  | (Throw e, w') => handler e w'
  end.

(** [try { body } finally { cleanup }], for a cleanup that does not throw. *)
Definition tryFinally {A} (body : M A) (cleanup : World → World) : M A := λ w,
  let '(r, w') := body w in (r, cleanup w').

Definition gets {A} (f : World → A) : M A := λ w, (Ok (f w), w).
Definition modify (f : World → World) : M unit := λ w, (Ok tt, f w).

(** ** [Array.prototype.sort]

    The sort of ECMAScript 2019 is stable; for a comparator that is a total
    preorder every stable sort returns the same array, so insertion from the
    right stands for the engine's algorithm. *)

Section JsSort.
Context {A : Type} (compare : A → A → Z).

Fixpoint sortInsert (x : A) (l : list A) : list A :=
  match l with
  | [] => [x]
  | y :: l' => if decide (compare x y <= 0) then x :: y :: l' else y :: sortInsert x l'
  end.

Definition jsSort (l : list A) : list A := foldr sortInsert [] l.
End JsSort.

(** ** ApiKeyManager *)

(** [loadApiKeys], after the environment string has been split, trimmed
    and cleared of empty parts. *)
Definition loadApiKeys (secrets : list string) : list KeyInfo :=
  imap (λ index secret,
    {| id := "key_" +:+ pretty (index + 1)%nat;
       key := secret;
       priority := Z.of_nat index |}) secrets.

Definition usageKeyOf (keyId today : string) : string :=
  "usage:" +:+ keyId +:+ ":" +:+ today.
Definition errorKeyOf (keyId today : string) : string :=
  "errors:" +:+ keyId +:+ ":" +:+ today.
Definition timeKeyOf (keyId today : string) : string :=
  "times:" +:+ keyId +:+ ":" +:+ today.

Definition redisError : JsErr := Error "Redis command failed".

(** [keyPrefix] of the options handed to [new Redis]. *)
Definition keyPrefix : string := "weather_api:".

(** The comparator handed to [availableKeys.sort]. *)
Definition compareKeys (a b : AvailableKey) : Z :=
  if decide (priority (keyInfo a) ≠ priority (keyInfo b))
  then priority (keyInfo a) - priority (keyInfo b)
  else currentUsage a - currentUsage b.

Definition maxErrors : Z := 3.

Section Service.
Variable env : Env.
Variable cfg : Config.

(** *** Redis commands, as ioredis promises *)

Definition redisGet (k : string) : M (option Z) := λ w,
  if redisFails env (GET k) then (Throw redisError, w)
  else (Ok (strings (redis w) !! k), w).

Definition redisIncr (k : string) : M Z := λ w,
  if redisFails env (INCR k) then (Throw redisError, w)
  else
    let v := default 0 (strings (redis w) !! k) + 1 in
    (Ok v, setRedis {| strings := <[k := v]> (strings (redis w));
                       lists := lists (redis w) |} w).

Definition redisExpire (k : string) (seconds : Z) : M unit := λ w,
  if redisFails env (EXPIRE k seconds) then (Throw redisError, w)
  else (Ok tt, w).

Definition redisLpush (k : string) (v : Z) : M unit := λ w,
  if redisFails env (LPUSH k v) then (Throw redisError, w)
  else
    (Ok tt, setRedis {| strings := strings (redis w);
                        lists := <[k := v :: default [] (lists (redis w) !! k)]>
                                   (lists (redis w)) |} w).

(** [this.redis.keys(pattern)], for a pattern [prefix*].  ioredis puts
    [keyPrefix] before the key arguments of GET, INCR, EXPIRE, LPUSH and
    DEL; the pattern of KEYS is sent as it is and matched against the full
    names in the database, which come back as they are. *)
Definition redisKeys (pattern : string) (prefix : string) : M (list string) := λ w,
  if redisFails env (KEYS pattern) then (Throw redisError, w)
  else
    (Ok (filter (λ k, Js.startsWith prefix k = true)
           (map (String.append keyPrefix)
              (elements (dom (strings (redis w))) ++ elements (dom (lists (redis w))))
            ++ foreignKeys env (now w))), w).

(** [this.redis.del(...ks)]: each argument is taken under [keyPrefix]. *)
Definition redisDel (ks : list string) : M unit := λ w,
  if redisFails env (DEL ks) then (Throw redisError, w)
  else
    (Ok tt, setRedis {| strings := foldr delete (strings (redis w)) ks;
                        lists := foldr delete (lists (redis w)) ks |} w).

(** [parseInt(await this.redis.get(k) || 0)], for a counter below 2^53,
    where [parseInt] is exact (a counter grows by one from zero). *)
Definition readCounter (k : string) : M Z :=
  v ← redisGet k; mret (default 0 v).

(** *** recordUsage *)
Definition recordUsage (keyId : string) : M unit := λ w,
  if negb (redisConnected w) then (Ok tt, w)
  else
    let today := getTodayString (now w) in
    let usageKey := usageKeyOf keyId today in
    let timeKey := timeKeyOf keyId today in
    tryCatch
      (_ ← redisIncr usageKey;
       _ ← redisExpire usageKey (48 * 60 * 60);
       currentTime ← gets now;
       _ ← redisLpush timeKey currentTime;
       redisExpire timeKey (48 * 60 * 60))
      (λ _, mret tt) w.

(** *** recordError: resolves with the new count, or [undefined] *)
Definition recordError (keyId : string) : M (option Z) := λ w,
  if negb (redisConnected w) then (Ok None, w)
  else
    let today := getTodayString (now w) in
    let errorKey := errorKeyOf keyId today in
    tryCatch
      (errorCount ← redisIncr errorKey;
       _ ← redisExpire errorKey (48 * 60 * 60);
       mret (Some errorCount))
      (λ _, mret None) w.

(** *** cleanupOldUsage *)
Definition cleanupOldUsage : M unit := λ w,
  if negb (redisConnected w) then (Ok tt, w)
  else
    tryCatch
      (today ← gets (λ w, getTodayString (now w));
       usageKeys ← redisKeys "usage:*" "usage:";
       timeKeys ← redisKeys "times:*" "times:";
       errorKeys ← redisKeys "errors:*" "errors:";
       let stale := filter (λ k, Js.includes today k = false) in
       let keysToDelete := stale usageKeys ++ stale timeKeys ++ stale errorKeys in
       if decide (0 < length keysToDelete)%nat then redisDel keysToDelete else mret tt)
      (λ _, mret tt) w.

(** *** getAllAvailableKeys *)

(** One iteration of [for (const keyInfo of this.keys)]: what the body
    pushes onto [availableKeys]. *)
Definition probeKey (today : string) (k : KeyInfo) : M (list AvailableKey) :=
  tryCatch
    (usage ← readCounter (usageKeyOf (id k) today);
     errors ← readCounter (errorKeyOf (id k) today);
     if decide (usage < dailyLimit cfg ∧ errors < maxErrors)
     then mret [ {| keyInfo := k; currentUsage := usage; currentErrors := errors |} ]
     else mret [])
    (λ _, mret []).

Fixpoint probeKeys (today : string) (ks : list KeyInfo) : M (list AvailableKey) :=
  match ks with
  | [] => mret []
  | k :: rest =>
      found ← probeKey today k;
      more ← probeKeys today rest;
      mret (found ++ more)
  end.

Definition getAllAvailableKeys : M (list AvailableKey) := λ w,
  if negb (redisConnected w)
  then (Throw (Error "Redis连接不可用，无法获取API密钥"), w)
  else
    let today := getTodayString (now w) in
    (availableKeys ← probeKeys today (keys cfg);
     mret (jsSort compareKeys availableKeys)) w.

End Service.

(** ** WeatherService *)

(** A parameter object: the query string after Fastify's validation, each
    value by its string conversion (a number by [Number::toString], which is
    the only way the service ever uses [lat] and [lon]). *)
Abbreviation Params := (gmap string string).

(** [`${v}`] for a property that may be absent. *)
Definition template (v : option string) : string := default "undefined" v.

(** [if (v)] for a property holding a string, or absent. *)
Definition present (v : option string) : bool :=
  match v with
  | Some s => negb (String.eqb s "")
  | None => false
  end.

(** *** generateCacheKey *)
Definition generateCacheKey (params : Params) : string :=
  let keyParts := [ "lat:" +:+ template (params !! "lat");
                    "lon:" +:+ template (params !! "lon") ] in
  let keyParts := if present (params !! "exclude")
    then keyParts ++ [ "exclude:" +:+ template (params !! "exclude") ] else keyParts in
  let keyParts := if present (params !! "units")
    then keyParts ++ [ "units:" +:+ template (params !! "units") ] else keyParts in
  let keyParts := if present (params !! "lang")
    then keyParts ++ [ "lang:" +:+ template (params !! "lang") ] else keyParts in
  "weather:" +:+ Js.join ":" keyParts.

(** *** buildApiUrl *)

Module Url.

Definition hexDigit (n : nat) : ascii :=
  ascii_of_nat (if decide (n < 10)%nat then 48 + n else 55 + n).

Definition unreserved (c : ascii) : bool :=
  let n := nat_of_ascii c in
  bool_decide ((48 ≤ n ≤ 57)%nat ∨ (65 ≤ n ≤ 90)%nat ∨ (97 ≤ n ≤ 122)%nat ∨
               n = 42%nat ∨ n = 45%nat ∨ n = 46%nat ∨ n = 95%nat).

(** The application/x-www-form-urlencoded byte serializer. *)
Fixpoint encode (s : string) : string :=
  match s with
  | EmptyString => EmptyString
  | String c s' =>
      if unreserved c then String c (encode s')
      else if decide (c = " "%char) then String "+" (encode s')
      else String "%" (String (hexDigit (nat_of_ascii c / 16))
                        (String (hexDigit (nat_of_ascii c mod 16)) (encode s')))
  end.

(** [URLSearchParams.prototype.toString]. *)
Definition serialize (pairs : list (string * string)) : string :=
  Js.join "&" (map (λ p, encode (fst p) +:+ "=" +:+ encode (snd p)) pairs).

End Url.

(** The entries of the [URLSearchParams] object that [buildApiUrl] fills. *)
Definition urlParams (params : Params) (apiKey : string) : list (string * string) :=
  let urlParams := [ ("lat", template (params !! "lat"));
                     ("lon", template (params !! "lon"));
                     ("appid", apiKey) ] in
  let urlParams := if present (params !! "exclude")
    then urlParams ++ [ ("exclude", template (params !! "exclude")) ] else urlParams in
  let urlParams := if present (params !! "units")
    then urlParams ++ [ ("units", template (params !! "units")) ] else urlParams in
  let urlParams := if present (params !! "lang")
    then urlParams ++ [ ("lang", template (params !! "lang")) ] else urlParams in
  urlParams.

Definition baseUrl : string := "https://api.openweathermap.org/data/3.0/onecall".

Definition buildApiUrl (params : Params) (apiKey : string) : string :=
  baseUrl +:+ "?" +:+ Url.serialize (urlParams params apiKey).

(** *** updateResponseTime *)
Definition updateResponseTime (startTime : Z) : M unit := λ w,
  let responseTime := now w - startTime in
  let s := stats w in
  (Ok tt, setStats
    {| totalRequests := totalRequests s; cacheHits := cacheHits s;
       cacheWrites := cacheWrites s; apiCalls := apiCalls s; errors := errors s;
       responseTimeSum := responseTimeSum s + responseTime;
       maxResponseTime := Z.max (maxResponseTime s) responseTime;
       minResponseTime := Some (match minResponseTime s with
                                | Some m => Z.min m responseTime
                                | None => responseTime
                                end) |} w).

Definition bumpTotalRequests (s : Stats) : Stats :=
  {| totalRequests := totalRequests s + 1; cacheHits := cacheHits s;
     cacheWrites := cacheWrites s; apiCalls := apiCalls s; errors := errors s;
     responseTimeSum := responseTimeSum s; maxResponseTime := maxResponseTime s;
     minResponseTime := minResponseTime s |}.

Definition bumpCacheHits (s : Stats) : Stats :=
  {| totalRequests := totalRequests s; cacheHits := cacheHits s + 1;
     cacheWrites := cacheWrites s; apiCalls := apiCalls s; errors := errors s;
     responseTimeSum := responseTimeSum s; maxResponseTime := maxResponseTime s;
     minResponseTime := minResponseTime s |}.

Definition bumpCacheWrites (s : Stats) : Stats :=
  {| totalRequests := totalRequests s; cacheHits := cacheHits s;
     cacheWrites := cacheWrites s + 1; apiCalls := apiCalls s; errors := errors s;
     responseTimeSum := responseTimeSum s; maxResponseTime := maxResponseTime s;
     minResponseTime := minResponseTime s |}.

Definition bumpApiCalls (s : Stats) : Stats :=
  {| totalRequests := totalRequests s; cacheHits := cacheHits s;
     cacheWrites := cacheWrites s; apiCalls := apiCalls s + 1; errors := errors s;
     responseTimeSum := responseTimeSum s; maxResponseTime := maxResponseTime s;
     minResponseTime := minResponseTime s |}.

Definition bumpErrors (s : Stats) : Stats :=
  {| totalRequests := totalRequests s; cacheHits := cacheHits s;
     cacheWrites := cacheWrites s; apiCalls := apiCalls s; errors := errors s + 1;
     responseTimeSum := responseTimeSum s; maxResponseTime := maxResponseTime s;
     minResponseTime := minResponseTime s |}.

(** *** sleep

    [new Promise(resolve => setTimeout(resolve, ms))].  Node sets the delay
    of a timer to 1 when it is below 1 or above 2147483647; the promise
    resolves when the timer fires, which the clock of the model takes to be
    the moment the delay has passed. *)
Definition timerDelay (ms : Z) : Z :=
  if decide (1 <= ms <= 2147483647) then ms else 1.

Definition sleep (ms : Z) : M unit := λ w,
  (Ok tt, emit (EvSleep ms) (setNow (now w + timerDelay ms) w)).

Definition noKeysMessage : string := "所有API密钥都已达到使用限制或错误次数限制".

Section Pipeline.
Variable env : Env.
Variable cfg : Config.

(** *** The node-cache instance ([useClones: false])

    [get] returns the stored value while the entry has not expired and
    drops an expired entry; [set] throws ECACHEFULL once [maxKeys] entries
    are stored. *)
Definition cacheGet (k : string) : M (option JsVal) := λ w,
  match cache w !! k with
  | Some (v, t) =>
      if decide (t ≠ 0 ∧ t < now w)
      then (Ok None, setCache (delete k (cache w)) w)
      else (Ok (Some v), w)
  | None => (Ok None, w)
  end.

Definition cacheSet (k : string) (v : JsVal) : M unit := λ w,
  if decide (-1 < maxKeys cfg ∧ maxKeys cfg <= Z.of_nat (size (cache w)))
  then (Throw (Error "Cache max keys amount exceeded"), w)
  else
    let t := if decide (stdTTL cfg = 0) then 0 else now w + stdTTL cfg * 1000 in
    (Ok tt, setCache (<[k := (v, t)]> (cache w)) w).

(** *** [this.httpClient.get(url)], on behalf of credential [keyId] *)
Definition httpGet (keyId url : string) : M JsVal := λ w,
  let reply := upstream env (calls w) url in
  let w1 := setCalls (S (calls w)) (setNow (now w + elapsed reply) w) in
  let log ok := emit (EvUpstream keyId (getTodayString (now w1)) url ok) w1 in
  match result reply with
  | Http2xx data => (Ok data, log true)
  | HttpStatus status data =>
      (Throw (AxiosResponseError ("Request failed with status code " +:+ pretty status)
                status data), log false)
  | HttpNoResponse message => (Throw (AxiosRequestError message), log false)
  end.

(** *** fetchWeatherFromAPI *)

(** The body of the inner [try] for one credential. *)
Definition callWithKey (params : Params) (cacheKey : string) (apiKey : AvailableKey)
    : M JsVal :=
  let url := buildApiUrl params (key (keyInfo apiKey)) in
  data ← httpGet (id (keyInfo apiKey)) url;
  _ ← recordUsage env (id (keyInfo apiKey));
  _ ← modify (λ w, setStats (bumpApiCalls (stats w)) w);
  _ ← (if cacheEnabled cfg
       then _ ← cacheSet cacheKey data;
            modify (λ w, setStats (bumpCacheWrites (stats w)) w)
       else mret tt);
  mret data.

(** The [for (keyIndex ...)] loop: [inl data] when the function returns
    from inside the loop, [inr lastError] when the loop ends. *)
Fixpoint tryKeys (params : Params) (cacheKey : string)
    (availableKeys : list AvailableKey) (lastError : JsErr) : M (JsVal + JsErr) :=
  match availableKeys with
  | [] => mret (inr lastError)
  | apiKey :: rest =>
      r ← tryCatch
            (data ← callWithKey params cacheKey apiKey; mret (inl data))
            (λ error, _ ← recordError env (id (keyInfo apiKey)); mret (inr error));
      match r with
      | inl data => mret (inl data)
      | inr error => tryKeys params cacheKey rest error
      end
  end.

(** One iteration of the retry loop, up to the backoff. *)
Definition attemptOnce (params : Params) (cacheKey : string) (attempt : Z)
    (lastError : JsErr) : M (JsVal + JsErr) :=
  tryCatch
    (_ ← modify (emit (EvSelect attempt));
     availableKeys ← getAllAvailableKeys env cfg;
     if decide (length availableKeys = 0%nat)
     then throw (Error noKeysMessage)
     else tryKeys params cacheKey availableKeys lastError)
    (λ error, mret (inr error)).

Fixpoint retryLoop (params : Params) (cacheKey : string) (remaining : nat)
    (attempt : Z) (lastError : JsErr) : M JsVal :=
  match remaining with
  | O => throw lastError
  | S remaining' =>
      r ← attemptOnce params cacheKey attempt lastError;
      match r with
      | inl data => mret data
      | inr lastError' =>
          _ ← (if decide (attempt < retryCount cfg)
               then sleep (retryDelay cfg * attempt)
               else mret tt);
          retryLoop params cacheKey remaining' (attempt + 1) lastError'
      end
  end.

Definition fetchWeatherFromAPI (params : Params) (cacheKey : string) : M JsVal :=
  retryLoop params cacheKey (Z.to_nat (retryCount cfg)) 1 ThrownNull.

(** *** getWeatherData

    In a run without interleaving nothing reads [pendingRequests] between
    [set] and [delete], so the entry is registered with the outcome of the
    fetch it stands for.  An entry found on arrival belongs to a fetch
    started by another call and is awaited. *)
(** What [await this.initializationPromise] throws when the promise was
    rejected. *)
Definition initError : JsErr := Error (initFailure cfg).

Definition ensureInitialized : M unit :=
  if initialized cfg then mret tt else throw initError.

Definition awaitPromise (p : res JsVal) : M JsVal :=
  match p with
  | Ok v => mret v
  | Throw e => throw e
  end.

(** Running an async function up to the settlement of its promise. *)
Definition settle {A} (m : M A) : M (res A) := λ w,
  let '(r, w') := m w in (Ok r, w').

(** [if (cachedData)]: [None] is the [undefined] of a miss and the
    [null] of a disabled cache. *)
Definition cacheHit (cachedData : option JsVal) : option JsVal :=
  match cachedData with
  | Some data => if truthy data then Some data else None
  | None => None
  end.

Definition getWeatherData (params : Params) : M JsVal :=
  startTime ← gets now;
  _ ← modify (λ w, setStats (bumpTotalRequests (stats w)) w);
  tryCatch
    (_ ← ensureInitialized;
     let cacheKey := generateCacheKey params in
     cachedData ← (if cacheEnabled cfg then cacheGet cacheKey else mret None);
     match cacheHit cachedData with
     | Some data =>
         _ ← modify (λ w, setStats (bumpCacheHits (stats w)) w);
         _ ← updateResponseTime startTime;
         mret data
     | None =>
         pending ← gets pendingRequests;
         match pending !! cacheKey with
         | Some existing => awaitPromise existing
         | None =>
             tryFinally
               (requestPromise ← settle (fetchWeatherFromAPI params cacheKey);
                _ ← modify (λ w, setPendingRequests
                                   (<[cacheKey := requestPromise]> (pendingRequests w)) w);
                result ← awaitPromise requestPromise;
                _ ← updateResponseTime startTime;
                mret result)
               (λ w, setPendingRequests (delete cacheKey (pendingRequests w)) w)
         end
     end)
    (λ error,
       _ ← modify (λ w, setStats (bumpErrors (stats w)) w);
       _ ← updateResponseTime startTime;
       throw error).

End Pipeline.

(** ** The [/onecall] route *)

Record Request := { query : Params; requestId : string }.

Inductive Payload :=
  | SendData (data : JsVal)
  | SendJson (fields : list (string * JsVal)).

Record Reply := {
  statusCode : Z;
  headers : list (string * string);
  payload : Payload }.

Definition timestamp (w : World) : JsVal := JStr (JsDate.toISOString (now w)).

Definition failure (message : string) (rid : string) (w : World) : list (string * JsVal) :=
  [ ("success", JBool false); ("error", JStr message);
    ("timestamp", timestamp w); ("requestId", JStr rid) ].

(** [weatherParams] of [const { appid, ...weatherParams } = request.query]:
    every property of the query but [appid]. *)
Definition weatherParamsOf (q : Params) : Params := delete "appid" q.

(** [request.log.info] and [request.log.error]. *)
Definition writeLog (e : LogEntry) : M unit :=
  modify (λ w, setLogs (logs w ++ [e]) w).

Section Route.
Variable env : Env.
Variable cfg : Config.

(** The [catch (error)] block of the handler.  Reading [error.message] from
    a thrown [null] raises a [TypeError] inside the block, before anything
    is logged; it reaches the error handler installed by [app.js], which
    answers 500 with a fixed message. *)
Definition onecallCatch (request : Request) (startTime : Z) (error : JsErr) : M Reply := λ w,
  let responseTime := now w - startTime in
  let logged message := setLogs (logs w ++ [LogFailed message responseTime (query request)]) w in
  match error with
  | ThrownNull =>
      (Ok {| statusCode := 500; headers := [];
             payload := SendJson (failure "Internal Server Error" (requestId request) w) |}, w)
  | AxiosResponseError message status data =>
      (Ok {| statusCode := status; headers := []; payload := SendData data |}, logged message)
  | AxiosRequestError message =>
      (Ok {| statusCode := 503; headers := [];
             payload := SendJson (failure message (requestId request) w
                                    ++ [("responseTime", JNum responseTime)]) |}, logged message)
  | Error message =>
      let status :=
        if Js.includes "限制" message || Js.includes "quota" message then 429 else 500 in
      (Ok {| statusCode := status; headers := [];
             payload := SendJson (failure message (requestId request) w
                                    ++ [("responseTime", JNum responseTime)]) |}, logged message)
  end.

(** The handler of the route, with [service] standing for
    [weatherService.getWeatherData], the method it calls. *)
Definition onecallHandler (service : Params → M JsVal) (request : Request) : M Reply :=
  startTime ← gets now;
  _ ← writeLog LogHandling;
  tryCatch
    (let appid := query request !! "appid" in
     let weatherParams := weatherParamsOf (query request) in
     let expectedAppId := appIdKey cfg in
     if negb (present expectedAppId) then
       w ← gets (λ w, w);
       mret {| statusCode := 500; headers := [];
               payload := SendJson (failure "服务器配置错误：缺少APP_ID_KEY环境变量"
                                      (requestId request) w) |}
     else if decide (appid ≠ expectedAppId) then
       w ← gets (λ w, w);
       mret {| statusCode := 401; headers := [];
               payload := SendJson (failure "无效的appid参数" (requestId request) w) |}
     else
       result ← service weatherParams;
       w ← gets (λ w, w);
       let hdrs := [ ("X-Response-Time", pretty (now w - startTime) +:+ "ms") ] in
       _ ← writeLog (LogCompleted (now w - startTime) (truthy result));
       if negb (truthy result) then
         mret {| statusCode := 500; headers := hdrs;
                 payload := SendJson (failure "无法获取天气数据" (requestId request) w) |}
       else
         mret {| statusCode := 200; headers := hdrs; payload := SendData result |})
    (onecallCatch request startTime).

(** A request to [/onecall]: the [preHandler] of the route, then its
    handler on the WeatherService of the process. *)
Definition onecall (request : Request) : M Reply :=
  _ ← writeLog (LogReceived (query request));
  onecallHandler (getWeatherData env cfg) request.

End Route.

(** ** In-flight coalescing under interleaving

    Node runs one turn of the event loop at a time, so [getWeatherData] is
    a sequence of atomic segments separated by its [await]s:
    - from entry to [await this.ensureInitialized()];
    - from there through the cache lookup and the [pendingRequests] test, to
      [await this.pendingRequests.get(cacheKey)] (a waiter) or to
      [pendingRequests.set] followed by [await requestPromise] (an
      initiator; [fetchWeatherFromAPI] runs synchronously up to its first
      [await] and does not touch the map);
    - after the awaited promise settles, to the end, through
      [finally { this.pendingRequests.delete(cacheKey) }] for an initiator.
    The fetch behind a promise is taken as a whole: it is in flight from
    its creation until the environment settles it with some outcome, after
    writing the body to the cache when it succeeds with the cache enabled.
    Telemetry is left out of this view, and so is [destroy], which clears
    the map when the server closes. *)

Module Coalescer.

Record Promise := { fingerprint : string; settled : option (res JsVal) }.

Inductive Task :=
  | AwaitInit (params : Params)
  | AwaitOwn (cacheKey : string) (promise : nat)
  | AwaitExisting (promise : nat)
  | Finished (awaited : option nat) (outcome : res JsVal).

Record State := {
  cache : gmap string JsVal;
  pendingRequests : gmap string nat;
  promises : list Promise;
  tasks : list Task }.

Inductive Turn :=
  | Call (params : Params)
  | Resume (task : nat)
  | Settle (promise : nat) (outcome : res JsVal)
  | Expire (cacheKey : string).

Definition initial : State :=
  {| cache := ∅; pendingRequests := ∅; promises := []; tasks := [] |}.

Definition setTask (i : nat) (t : Task) (s : State) : State :=
  {| cache := cache s; pendingRequests := pendingRequests s;
     promises := promises s; tasks := <[i := t]> (tasks s) |}.

Section Turns.
Variable cfg : Config.

(** From the [pendingRequests.has] test to the next [await]. *)
Definition joinOrStart (i : nat) (cacheKey : string) (s : State) : State :=
  match pendingRequests s !! cacheKey with
  | Some p => setTask i (AwaitExisting p) s
  | None =>
      let p := length (promises s) in
      {| cache := cache s;
         pendingRequests := <[cacheKey := p]> (pendingRequests s);
         promises := promises s ++ [ {| fingerprint := cacheKey; settled := None |} ];
         tasks := <[i := AwaitOwn cacheKey p]> (tasks s) |}
  end.

(** The segment after [await this.ensureInitialized()]. *)
Definition afterInit (i : nat) (params : Params) (s : State) : State :=
  if negb (initialized cfg) then setTask i (Finished None (Throw (initError cfg))) s
  else
    let cacheKey := generateCacheKey params in
    let cachedData := if cacheEnabled cfg then cache s !! cacheKey else None in
    match cacheHit cachedData with
    | Some data => setTask i (Finished None (Ok data)) s
    | None => joinOrStart i cacheKey s
    end.

Definition outcomeOf (s : State) (p : nat) : option (res JsVal) :=
  pr ← promises s !! p; settled pr.

(** A task continues only once the promise it awaits has settled. *)
Definition resume (i : nat) (s : State) : State :=
  match tasks s !! i with
  | Some (AwaitInit params) => afterInit i params s
  | Some (AwaitOwn cacheKey p) =>
      match outcomeOf s p with
      | Some outcome =>
          {| cache := cache s;
             pendingRequests := delete cacheKey (pendingRequests s);
             promises := promises s;
             tasks := <[i := Finished (Some p) outcome]> (tasks s) |}
      | None => s
      end
  | Some (AwaitExisting p) =>
      match outcomeOf s p with
      | Some outcome => setTask i (Finished (Some p) outcome) s
      | None => s
      end
  | Some (Finished _ _) | None => s
  end.

(** The fetch behind promise [p] returns or throws. *)
Definition settle (p : nat) (outcome : res JsVal) (s : State) : State :=
  match promises s !! p with
  | Some {| fingerprint := cacheKey; settled := None |} =>
      {| cache := match outcome with
                  | Ok data => if cacheEnabled cfg then <[cacheKey := data]> (cache s)
                               else cache s
                  | Throw _ => cache s
                  end;
         pendingRequests := pendingRequests s;
         promises := <[p := {| fingerprint := cacheKey; settled := Some outcome |}]> (promises s);
         tasks := tasks s |}
  | _ => s
  end.

Definition turn (s : State) (e : Turn) : State :=
  match e with
  | Call params =>
      {| cache := cache s; pendingRequests := pendingRequests s;
         promises := promises s; tasks := tasks s ++ [AwaitInit params] |}
  | Resume i => resume i s
  | Settle p outcome => settle p outcome s
  | Expire cacheKey =>
      {| cache := delete cacheKey (cache s); pendingRequests := pendingRequests s;
         promises := promises s; tasks := tasks s |}
  end.

Definition run (turns : list Turn) : State := foldl turn initial turns.

End Turns.

(** An upstream fetch for [cacheKey] is in flight: its promise exists and
    has not settled. *)
Definition inFlight (s : State) (cacheKey : string) (p : nat) : Prop :=
  promises s !! p = Some {| fingerprint := cacheKey; settled := None |}.

End Coalescer.

(** ** Notions used to state the properties *)

(** The counters of credential [keyId] on day [day], as [getKeyUsage] and
    [getKeyErrorCount] read them: an absent key counts as zero. *)
Definition usageCount (w : World) (keyId day : string) : Z :=
  default 0 (strings (redis w) !! usageKeyOf keyId day).

Definition errorCount (w : World) (keyId day : string) : Z :=
  default 0 (strings (redis w) !! errorKeyOf keyId day).

(** Both counters of [keyId] can be read: neither GET is rejected. *)
Definition readable (env : Env) (keyId day : string) : Prop :=
  redisFails env (GET (usageKeyOf keyId day)) = false ∧
  redisFails env (GET (errorKeyOf keyId day)) = false.

(** Credential [c] appears in a selector result. *)
Definition appears (c : KeyInfo) (l : list AvailableKey) : Prop :=
  ∃ a, a ∈ l ∧ keyInfo a = c.

(** Quota-blocked or error-blocked on [day]. *)
Definition blocked (cfg : Config) (w : World) (keyId day : string) : Prop :=
  dailyLimit cfg <= usageCount w keyId day ∨ maxErrors <= errorCount w keyId day.

(** What may happen to the ledger between two selections: the writes of the
    fetch loop, the hourly cleanup timer, the passing of time and the
    connection events of the Redis client. *)
Inductive LedgerOp :=
  | OpRecordUsage (keyId : string)
  | OpRecordError (keyId : string)
  | OpCleanup
  | OpTick (ms : Z)
  | OpConnection (up : bool).

Definition applyOp (env : Env) (w : World) (op : LedgerOp) : World :=
  match op with
  | OpRecordUsage keyId => snd (recordUsage env keyId w)
  | OpRecordError keyId => snd (recordError env keyId w)
  | OpCleanup => snd (cleanupOldUsage env w)
  | OpTick ms => setNow (now w + ms) w
  | OpConnection up => setRedisConnected up w
  end.

(** Every operation of [ops], started in [w], runs while the day key is
    [day], and so does whatever follows. *)
Fixpoint staysOn (env : Env) (day : string) (ops : list LedgerOp) (w : World) : Prop :=
  getTodayString (now w) = day ∧
  match ops with
  | [] => True
  | op :: rest => staysOn env day rest (applyOp env w op)
  end.

(** The two orders on selector results: the one the code sorts by and the
    one of least-used-first. *)
Definition priorityThenUsage (a b : AvailableKey) : Prop :=
  priority (keyInfo a) < priority (keyInfo b) ∨
  (priority (keyInfo a) = priority (keyInfo b) ∧ currentUsage a <= currentUsage b).

Definition usageThenPriority (a b : AvailableKey) : Prop :=
  currentUsage a < currentUsage b ∨
  (currentUsage a = currentUsage b ∧ priority (keyInfo a) <= priority (keyInfo b)).

(** Sample worlds for closed examples. *)
Definition noStats : Stats :=
  {| totalRequests := 0; cacheHits := 0; cacheWrites := 0; apiCalls := 0; errors := 0;
     responseTimeSum := 0; maxResponseTime := 0; minResponseTime := None |}.

Definition sampleConfig : Config :=
  {| keys := loadApiKeys ["secret-one"; "secret-two"];
     dailyLimit := 2000; retryCount := 3; retryDelay := 1000;
     cacheEnabled := true; stdTTL := 300; maxKeys := 10000;
     initialized := true; initFailure := "Redis连接超时";
     appIdKey := Some "app-id" |}.

(** An upstream that always answers 200 with [data] after 5 ms, and a Redis
    that accepts every command. *)
Definition healthyEnv (data : JsVal) : Env :=
  {| redisFails := λ _, false; foreignKeys := λ _, [];
     upstream := λ _ _, {| result := Http2xx data; elapsed := 5 |} |}.

(** 2024-01-15T16:30:00.000Z, with the given integer strings in Redis. *)
Definition sampleWorld (counters : gmap string Z) : World :=
  {| now := 1705336200000; redisConnected := true;
     redis := {| strings := counters; lists := ∅ |};
     cache := ∅; pendingRequests := ∅; stats := noStats; calls := 0; trace := [];
     logs := [] |}.

(** What one iteration of the selector's loop contributes, as a function of
    the world. *)
Definition probed (env : Env) (cfg : Config) (today : string) (w : World)
    (k : KeyInfo) : list AvailableKey :=
  let usage := usageCount w (id k) today in
  let errors := errorCount w (id k) today in
  if redisFails env (GET (usageKeyOf (id k) today)) then []
  else if redisFails env (GET (errorKeyOf (id k) today)) then []
  else if decide (usage < dailyLimit cfg ∧ errors < maxErrors)
       then [ {| keyInfo := k; currentUsage := usage; currentErrors := errors |} ]
       else [].

(** A Redis whose reads of one key time out. *)
Definition unreadable (k : string) : Env :=
  {| redisFails := λ cmd, match cmd with GET k' => String.eqb k' k | _ => false end;
     foreignKeys := λ _, [];
     upstream := λ _ _, {| result := Http2xx (JObj "{}"); elapsed := 5 |} |}.

Definition sampleKey1 : KeyInfo := {| id := "key_1"; key := "secret-one"; priority := 0 |}.
Definition sampleKey2 : KeyInfo := {| id := "key_2"; key := "secret-two"; priority := 1 |}.

Definition available (k : KeyInfo) (usage errors : Z) : AvailableKey :=
  {| keyInfo := k; currentUsage := usage; currentErrors := errors |}.

(** *** Reading a trace *)

(** The events that pace the retry loop. *)
Definition isPacing (e : Event) : bool :=
  match e with
  | EvSelect _ | EvSleep _ => true
  | EvUpstream _ _ _ _ => false
  end.

Definition pacing (tr : list Event) : list Event := List.filter isPacing tr.

(** The pacing of [n] consecutive attempts from attempt [a] on, each but
    the last followed by a sleep of [delay × attempt] milliseconds. *)
Fixpoint schedule (delay : Z) (a : Z) (n : nat) : list Event :=
  match n with
  | O => []
  | S O => [EvSelect a]
  | S n' => EvSelect a :: EvSleep (delay * a) :: schedule delay (a + 1) n'
  end.

(** The time the timers of a trace take. *)
Fixpoint slept (tr : list Event) : Z :=
  match tr with
  | [] => 0
  | EvSleep ms :: rest => timerDelay ms + slept rest
  | _ :: rest => slept rest
  end.

(** The upstream answers take time, never less than none. *)
Definition answersTakeTime (env : Env) : Prop :=
  ∀ n url, 0 <= elapsed (upstream env n url).

(** A configuration whose backoff is beyond the range of a timer. *)
Definition longBackoffConfig : Config :=
  {| keys := loadApiKeys ["secret-one"; "secret-two"];
     dailyLimit := 2000; retryCount := 2; retryDelay := 3000000000;
     cacheEnabled := true; stdTTL := 300; maxKeys := 10000;
     initialized := true; initFailure := "Redis连接超时";
     appIdKey := Some "app-id" |}.

(** An upstream request answered 2xx. *)
Definition isSuccess (e : Event) : bool :=
  match e with
  | EvUpstream _ _ _ true => true
  | _ => false
  end.

(** A 2xx answer obtained with the credential and on the day whose usage
    counter is stored under [redisKey]. *)
Definition chargedTo (redisKey : string) (e : Event) : bool :=
  match e with
  | EvUpstream keyId day _ true => String.eqb (usageKeyOf keyId day) redisKey
  | _ => false
  end.

Definition successesOn (redisKey : string) (tr : list Event) : Z :=
  Z.of_nat (length (List.filter (chargedTo redisKey) tr)).

(** Every upstream request of the trace was built by [buildApiUrl] from
    [params] and the secret of one of the credentials [ks]. *)
Definition sentWith (ks : list KeyInfo) (params : Params) (e : Event) : Prop :=
  match e with
  | EvUpstream keyId _ url _ =>
      ∃ k, k ∈ ks ∧ keyId = id k ∧ url = buildApiUrl params (key k)
  | _ => True
  end.

(** The ledger takes writes: the client is connected and INCR is served. *)
Definition ledgerWritable (env : Env) (w : World) : Prop :=
  redisConnected w = true ∧ ∀ k, redisFails env (INCR k) = false.

(** What a stretch of the pipeline may do to the world, [tr] being the
    events it adds. *)
Record Progress (env : Env) (ks : list KeyInfo) (params : Params)
    (w : World) (tr : list Event) (w' : World) : Prop := {
  progress_trace : trace w' = trace w ++ tr;
  progress_connected : redisConnected w' = redisConnected w;
  progress_pending : pendingRequests w' = pendingRequests w;
  progress_sent : Forall (sentWith ks params) tr;
  progress_usage :
    ledgerWritable env w →
    ∀ keyId day,
      usageCount w' keyId day =
        usageCount w keyId day + successesOn (usageKeyOf keyId day) tr }.

(** An upstream that answers every request with the same status error. *)
Definition failingEnv (status : Z) : Env :=
  {| redisFails := λ _, false; foreignKeys := λ _, [];
     upstream := λ _ _, {| result := HttpStatus status (JObj "{cod:500}"); elapsed := 5 |} |}.

Definition sampleParams : Params :=
  {[ "lat" := "39.9042"; "lon" := "116.4074"; "units" := "metric"; "lang" := "zh_cn" ]}.

(** A Redis replica that serves reads and rejects every write. *)
Definition readOnlyEnv (data : JsVal) : Env :=
  {| redisFails := λ cmd, match cmd with GET _ | KEYS _ => false | _ => true end;
     foreignKeys := λ _, [];
     upstream := λ _ _, {| result := Http2xx data; elapsed := 5 |} |}.

(** The world after a first request for [sampleParams] whose upstream call
    was answered 200 with an empty body. *)
Definition afterEmptyBody : World :=
  snd (getWeatherData (healthyEnv (JStr "")) sampleConfig sampleParams (sampleWorld ∅)).

(** The sample world with one live cache entry for [sampleParams]. *)
Definition cachedWorld (data : JsVal) : World :=
  setCache {[ generateCacheKey sampleParams := (data, 1705336500000) ]} (sampleWorld ∅).

(** *** The request as the handler sees it *)

(** The clock readings at which the [n] remaining attempts, the next being
    attempt [a], consult the selector when none of them reaches upstream. *)
Fixpoint attemptTimes (cfg : Config) (n : nat) (a : Z) (t : Z) : list Z :=
  match n with
  | O => []
  | S n' =>
      t :: attemptTimes cfg n' (a + 1)
             (if decide (a < retryCount cfg) then t + timerDelay (retryDelay cfg * a) else t)
  end.

(** With the ledger as it is in [w], the selector finds no credential at
    time [t]. *)
Definition noneAvailableAt (env : Env) (cfg : Config) (w : World) (t : Z) : Prop :=
  fst (getAllAvailableKeys env cfg (setNow t w)) = Ok [].

(** The reply names a moment to retry: a header or a JSON field with one of
    the usual names. *)
Definition hintNames : list string :=
  ["retryAfter"; "Retry-After"; "retry-after"; "retry_after"; "resetTime"; "nextReset"].

Definition carriesRetryHint (r : Reply) : Prop :=
  (∃ name v, name ∈ hintNames ∧ (name, v) ∈ headers r) ∨
  (∃ name v fields, payload r = SendJson fields ∧ name ∈ hintNames ∧ (name, v) ∈ fields).

(** Both credentials have spent a daily limit of 2000. *)
Definition exhaustedWorld : World :=
  sampleWorld {[ "usage:key_1:2024-01-15" := 2000; "usage:key_2:2024-01-15" := 2000 ]}.

Definition sampleRequest : Request :=
  {| query := <["appid" := "app-id"]> sampleParams; requestId := "req-1" |}.

(** What stays the same while every attempt finds the selector empty. *)
Definition unspent (w w' : World) : Prop :=
  redisConnected w' = redisConnected w ∧ redis w' = redis w ∧ cache w' = cache w ∧
  pendingRequests w' = pendingRequests w ∧ calls w' = calls w.

(** *** Validated parameter sets *)

(** Character [c] does not occur in [s]. *)
Fixpoint lacks (c : ascii) (s : string) : Prop :=
  match s with
  | EmptyString => True
  | String a s' => a ≠ c ∧ lacks c s'
  end.

Fixpoint allChars (f : ascii → bool) (s : string) : bool :=
  match s with
  | EmptyString => true
  | String a s' => f a && allChars f s'
  end.

(** The characters of [Number::toString] for a finite number. *)
Definition numberChar (c : ascii) : bool :=
  let n := nat_of_ascii c in
  bool_decide ((48 ≤ n ≤ 57)%nat ∨ n = 46%nat ∨ n = 45%nat ∨ n = 43%nat ∨ n = 101%nat).

Definition isNumberText (s : string) : bool :=
  negb (String.eqb s "") && allChars numberChar s.

(** [s] with the prefix [p] removed. *)
Fixpoint stripPrefix (p s : string) : option string :=
  match p, s with
  | EmptyString, _ => Some s
  | String a p', String b s' => if decide (a = b) then stripPrefix p' s' else None
  | String _ _, EmptyString => None
  end.

(** One alternative of [(current|minutely|hourly|daily|alerts)]. *)
Definition stripToken (s : string) : option string :=
  match stripPrefix "current" s with
  | Some r => Some r
  | None =>
  match stripPrefix "minutely" s with
  | Some r => Some r
  | None =>
  match stripPrefix "hourly" s with
  | Some r => Some r
  | None =>
  match stripPrefix "daily" s with
  | Some r => Some r
  | None => stripPrefix "alerts" s
  end end end end.

(** The pattern of [exclude]:
    [^(current|minutely|hourly|daily|alerts)(,(current|minutely|hourly|daily|alerts))*$]. *)
Fixpoint matchesExcludeWithin (fuel : nat) (s : string) : bool :=
  match fuel with
  | O => false
  | S fuel' =>
      match stripToken s with
      | Some EmptyString => true
      | Some (String c rest) =>
          if decide (c = ","%char) then matchesExcludeWithin fuel' rest else false
      | None => false
      end
  end.

Definition matchesExclude (s : string) : bool :=
  matchesExcludeWithin (S (String.length s)) s.

Definition unitsEnum : list string := ["standard"; "metric"; "imperial"].

(** The querystring schema of [/onecall] on the parameters that remain
    after [appid] is removed: [lat] and [lon] required numbers (given by
    their string conversion), [exclude] matching its pattern, [units] in its
    enumeration, [lang] of at least two characters.  The bounds of [lat]
    and [lon] and the upper bound of [lang] play no part and are left out,
    and the length of [lang] is counted in bytes, so that every query the
    schema accepts is validated. *)
Definition validated (p : Params) : bool :=
  match p !! "lat", p !! "lon" with
  | Some lat, Some lon => isNumberText lat && isNumberText lon
  | _, _ => false
  end &&
  match p !! "exclude" with Some e => matchesExclude e | None => true end &&
  match p !! "units" with Some u => bool_decide (u ∈ unitsEnum) | None => true end &&
  match p !! "lang" with Some l => bool_decide (2 ≤ String.length l)%nat | None => true end.

(** The parameters that make up the fingerprint. *)
Definition fingerprintParams : list string := ["lat"; "lon"; "exclude"; "units"; "lang"].

(** [:name:value] when the parameter is present, nothing otherwise. *)
Definition optionalPart (name : string) (v : option string) : string :=
  if present v then ":" +:+ name +:+ ":" +:+ template v else "".

(** An optional parameter as validation leaves it: absent, or a non-empty
    text (without the separator, for all but the last part). *)
Definition goodOptional (colonFree : bool) (v : option string) : Prop :=
  v = None ∨ ∃ s, v = Some s ∧ s ≠ "" ∧ (colonFree = true → lacks ":" s).

(** [t] does not start with [:name:]. *)
Definition notPrefixed (name t : string) : Prop :=
  ∀ r, t ≠ ":" +:+ name +:+ ":" +:+ r.

(** *** Reading a query string

    The application/x-www-form-urlencoded parser, which the receiving end
    applies to the query of a URL: split at [&], drop empty parts, cut each
    part at its first [=], then turn [+] into a space and percent-decode
    name and value. *)

Module UrlParse.

Definition hexValue (c : ascii) : option nat :=
  let n := nat_of_ascii c in
  if decide (48 ≤ n ≤ 57)%nat then Some (n - 48)%nat
  else if decide (65 ≤ n ≤ 70)%nat then Some (n - 55)%nat
  else if decide (97 ≤ n ≤ 102)%nat then Some (n - 87)%nat
  else None.

Fixpoint decode (s : string) : string :=
  match s with
  | EmptyString => EmptyString
  | String c rest =>
      if decide (c = "+"%char) then String " " (decode rest)
      else if decide (c = "%"%char) then
        match rest with
        | String a (String b rest') =>
            match hexValue a, hexValue b with
            | Some x, Some y => String (ascii_of_nat (16 * x + y)) (decode rest')
            | _, _ => String c (decode rest)
            end
        | _ => String c (decode rest)
        end
      else String c (decode rest)
  end.

Fixpoint splitOn (sep : ascii) (s : string) : list string :=
  match s with
  | EmptyString => [EmptyString]
  | String c rest =>
      if decide (c = sep) then EmptyString :: splitOn sep rest
      else match splitOn sep rest with
           | part :: parts => String c part :: parts
           | [] => [String c EmptyString]
           end
  end.

Fixpoint cutAt (sep : ascii) (s : string) : string * string :=
  match s with
  | EmptyString => (EmptyString, EmptyString)
  | String c rest =>
      if decide (c = sep) then (EmptyString, rest)
      else (String c (cutAt sep rest).1, (cutAt sep rest).2)
  end.

Definition parse (s : string) : list (string * string) :=
  map (λ part, (decode (cutAt "=" part).1, decode (cutAt "=" part).2))
      (filter (λ part, part ≠ EmptyString) (splitOn "&" s)).

End UrlParse.

(** The query of an upstream URL: what follows the endpoint and [?]. *)
Definition queryOf (url : string) : option string := stripPrefix (baseUrl +:+ "?") url.

(** *** The request log and the client's appid *)

(** A log entry without the query it records. *)
Definition eraseQuery (e : LogEntry) : LogEntry :=
  match e with
  | LogReceived _ => LogReceived ∅
  | LogFailed message responseTime _ => LogFailed message responseTime ∅
  | LogHandling | LogCompleted _ _ => e
  end.

(** The same process with another value of [APP_ID_KEY]. *)
Definition setAppIdKey (expected : option string) (cfg : Config) : Config :=
  {| keys := keys cfg; dailyLimit := dailyLimit cfg; retryCount := retryCount cfg;
     retryDelay := retryDelay cfg; cacheEnabled := cacheEnabled cfg; stdTTL := stdTTL cfg;
     maxKeys := maxKeys cfg; initialized := initialized cfg;
     initFailure := initFailure cfg; appIdKey := expected |}.

(** A computation that neither reads nor writes the request log. *)
Definition logFree {A : Type} (m : M A) : Prop :=
  ∀ l w, m (setLogs l w) = ((m w).1, setLogs l (m w).2).

(** *** Invariant of the coalescer *)

Module CoalescerSpec.
Import Coalescer.

Record invariant (s : State) : Prop := {
  (** a fetch in flight is the one registered for its fingerprint *)
  inv_inflight : ∀ cacheKey p,
    inFlight s cacheKey p → pendingRequests s !! cacheKey = Some p;
  (** an initiator that has not yet run its [finally] still owns the entry *)
  inv_owner : ∀ i cacheKey p,
    tasks s !! i = Some (AwaitOwn cacheKey p) →
    pendingRequests s !! cacheKey = Some p ∧
    ∃ st, promises s !! p = Some {| fingerprint := cacheKey; settled := st |};
  (** a promise has one initiator *)
  inv_unique : ∀ i j k1 k2 p,
    tasks s !! i = Some (AwaitOwn k1 p) → tasks s !! j = Some (AwaitOwn k2 p) → i = j;
  (** a call that awaited a promise finished with the outcome of that promise *)
  inv_finished : ∀ i p outcome,
    tasks s !! i = Some (Finished (Some p) outcome) →
    ∃ cacheKey, promises s !! p = Some {| fingerprint := cacheKey; settled := Some outcome |} }.

(** Two calls for [sampleParams] arrive, the first starts the fetch, the
    second joins it, the fetch returns [data], both continue. *)
Definition twoCallers (data : JsVal) : list Turn :=
  [ Call sampleParams; Call sampleParams; Resume 0; Resume 1;
    Settle 0 (Ok data); Resume 1; Resume 0 ].

End CoalescerSpec.

(** ** ApiKeyManager: the other selectors, the queries and the reports *)

(** [selectedKey?.priority || Infinity], and the running minimum that starts
    at [Infinity]: [None] stands for [Infinity]. *)
Definition priorityOrInfinity (selectedKey : option KeyInfo) : option Z :=
  match selectedKey with
  | Some k => if decide (priority k = 0) then None else Some (priority k)
  | None => None
  end.

(** [a < b] and [a === b] for a finite [a] and a [b] that may be [Infinity]. *)
Definition ltNumber (a : Z) (b : option Z) : bool :=
  match b with
  | Some b => bool_decide (a < b)
  | None => true
  end.

Definition eqNumber (a : Z) (b : option Z) : bool :=
  match b with
  | Some b => bool_decide (a = b)
  | None => false
  end.

Definition noConnectionMessage : string := "Redis连接不可用，无法获取API密钥".
Definition allSpentMessage : string :=
  "所有API密钥都已达到每日使用限制或错误次数限制，请明天再试".
Definition roundRobinSpentMessage : string := "所有API密钥都已达到使用限制".

(** One element of [stats.usage] in [getStats]. *)
Module KeyReport.
Record t := {
  id : string;
  requests : Z;
  limit : Z;
  errors : Z;
  maxErrors : Z;
  available : bool;
  blockedByUsage : bool;
  blockedByErrors : bool;
  status : string;
  usagePercentage : string;
  remainingRequests : Z;
  resetTime : string;
  priority : Z }.
End KeyReport.

(** The object [getStats] resolves with; [error] is set on the early return
    only. *)
Module ManagerStats.
Record t := {
  total : Z;
  available : Z;
  blocked : Z;
  errorBlocked : Z;
  usage : list KeyReport.t;
  totalRequestsToday : Z;
  totalErrorsToday : Z;
  mode : string;
  error : option string }.
End ManagerStats.

(** The object [ApiKeyManager.healthCheck] resolves with; the early return
    has [error] and no [redisConnected]. *)
Module ManagerHealth.
Record t := {
  status : string;
  error : option string;
  availableKeys : Z;
  totalKeys : Z;
  redisConnected : option bool }.
End ManagerHealth.

Section Manager.
Variable env : Env.
Variable cfg : Config.

(** The zone of the server, in minutes east of UTC, and the text of
    [Math.round((usage / limit) * 100)], which the engine computes in double
    precision. *)
Variable tz : Z.
Variable roundedPercent : Z → Z → string.

(** *** getAvailableKey *)

(** One iteration of the loop over [this.keys], on the pair
    [(selectedKey, minUsage)]. *)
Definition considerKey (today : string) (keyInfo : KeyInfo)
    (state : option KeyInfo * option Z) : M (option KeyInfo * option Z) :=
  tryCatch
    (usage ← readCounter env (usageKeyOf (id keyInfo) today);
     errors ← readCounter env (errorKeyOf (id keyInfo) today);
     if decide (maxErrors <= errors) then mret state
     else if decide (usage < dailyLimit cfg) then
       if ltNumber usage state.2 ||
          (eqNumber usage state.2 &&
           ltNumber (priority keyInfo) (priorityOrInfinity state.1))
       then mret (Some keyInfo, Some usage)
       else mret state
     else mret state)
    (λ _, mret state).

Fixpoint considerKeys (today : string) (ks : list KeyInfo)
    (state : option KeyInfo * option Z) : M (option KeyInfo * option Z) :=
  match ks with
  | [] => mret state
  | keyInfo :: rest =>
      state' ← considerKey today keyInfo state;
      considerKeys today rest state'
  end.

Definition getAvailableKey : M KeyInfo := λ w,
  if negb (redisConnected w) then (Throw (Error noConnectionMessage), w)
  else
    let today := getTodayString (now w) in
    (state ← considerKeys today (keys cfg) (None, None);
     match state.1 with
     | Some selectedKey => mret selectedKey
     | None => throw (Error allSpentMessage)
     end) w.

(** *** getKeyByRoundRobin

    [this.currentIndex] is touched by this method only: the cursor goes in
    and comes out beside the world.  [remaining] is
    [this.keys.length - attempts].  Reading [id] of [this.keys[i]] outside
    the array raises a [TypeError] before the [try]. *)
Fixpoint roundRobin (today : string) (remaining : nat) (currentIndex : nat)
    (w : World) : res KeyInfo * nat * World :=
  match remaining with
  | O => (Throw (Error roundRobinSpentMessage), currentIndex, w)
  | S remaining' =>
      let next := ((currentIndex + 1) `mod` length (keys cfg))%nat in
      match keys cfg !! currentIndex with
      | None =>
          (Throw (Error "Cannot read properties of undefined (reading 'id')"), next, w)
      | Some keyInfo =>
          match readCounter env (usageKeyOf (id keyInfo) today) w with
          | (Ok usage, w') =>
              if decide (usage < dailyLimit cfg) then (Ok keyInfo, next, w')
              else roundRobin today remaining' next w'
          | (Throw _, w') => roundRobin today remaining' next w'
          end
      end
  end.

Definition getKeyByRoundRobin (currentIndex : nat) (w : World)
    : res KeyInfo * nat * World :=
  if negb (redisConnected w) then (Throw (Error noConnectionMessage), currentIndex, w)
  else roundRobin (getTodayString (now w)) (length (keys cfg)) currentIndex w.

(** *** getKeyErrorCount, isKeyAvailable, getKeyUsage *)

Definition getKeyErrorCount (keyId : string) : M Z := λ w,
  if negb (redisConnected w) then (Ok 0, w)
  else
    let today := getTodayString (now w) in
    tryCatch (readCounter env (errorKeyOf keyId today)) (λ _, mret 0) w.

Definition isKeyAvailable (keyId : string) : M bool := λ w,
  if negb (redisConnected w) then (Ok false, w)
  else
    let today := getTodayString (now w) in
    tryCatch
      (usage ← readCounter env (usageKeyOf keyId today);
       errors ← readCounter env (errorKeyOf keyId today);
       mret (bool_decide (usage < dailyLimit cfg) && bool_decide (errors < maxErrors)))
      (λ _, mret false) w.

Definition getKeyUsage (keyId : string) : M Z := λ w,
  if negb (redisConnected w) then (Ok 0, w)
  else
    let today := getTodayString (now w) in
    tryCatch (readCounter env (usageKeyOf keyId today)) (λ _, mret 0) w.

(** *** getStats *)

(** The [try] of the loop body: [currentUsage] and [currentErrors] start at
    0 and keep what was assigned before a read fails.
    [parseInt(v) || 0] is [v], or 0 for a missing key. *)
Definition readCounters (today : string) (keyInfo : KeyInfo) : M (Z * Z) :=
  tryCatch
    (usage ← redisGet env (usageKeyOf (id keyInfo) today);
     let currentUsage := default 0 usage in
     tryCatch
       (errors ← redisGet env (errorKeyOf (id keyInfo) today);
        mret (currentUsage, default 0 errors))
       (λ _, mret (currentUsage, 0)))
    (λ _, mret (0, 0)).

(** What the loop body pushes onto [stats.usage]. *)
Definition keyReport (keyInfo : KeyInfo) (currentUsage currentErrors : Z) (clock : Z)
    : KeyReport.t :=
  let isUsageAvailable := bool_decide (currentUsage < dailyLimit cfg) in
  let isErrorBlocked := bool_decide (3 <= currentErrors) in
  let isAvailable := isUsageAvailable && negb isErrorBlocked in
  {| KeyReport.id := id keyInfo;
     KeyReport.requests := currentUsage;
     KeyReport.limit := dailyLimit cfg;
     KeyReport.errors := currentErrors;
     KeyReport.maxErrors := 3;
     KeyReport.available := isAvailable;
     KeyReport.blockedByUsage := negb isUsageAvailable;
     KeyReport.blockedByErrors := isErrorBlocked;
     KeyReport.status :=
       if isErrorBlocked then "error_blocked"
       else if isUsageAvailable then "available" else "usage_blocked";
     KeyReport.usagePercentage := roundedPercent currentUsage (dailyLimit cfg) +:+ "%";
     KeyReport.remainingRequests := Z.max 0 (dailyLimit cfg - currentUsage);
     KeyReport.resetTime := getNextResetTime tz clock;
     KeyReport.priority := priority keyInfo |}.

(** One iteration of the loop, on the [stats] object. *)
Definition countKey (keyInfo : KeyInfo) (currentUsage currentErrors : Z) (clock : Z)
    (stats : ManagerStats.t) : ManagerStats.t :=
  let report := keyReport keyInfo currentUsage currentErrors clock in
  {| ManagerStats.total := ManagerStats.total stats;
     ManagerStats.available :=
       if KeyReport.available report then ManagerStats.available stats + 1
       else ManagerStats.available stats;
     ManagerStats.blocked :=
       if KeyReport.available report then ManagerStats.blocked stats
       else ManagerStats.blocked stats + 1;
     ManagerStats.errorBlocked :=
       if KeyReport.available report then ManagerStats.errorBlocked stats
       else if KeyReport.blockedByErrors report then ManagerStats.errorBlocked stats + 1
       else ManagerStats.errorBlocked stats;
     ManagerStats.usage := ManagerStats.usage stats ++ [report];
     ManagerStats.totalRequestsToday := ManagerStats.totalRequestsToday stats + currentUsage;
     ManagerStats.totalErrorsToday := ManagerStats.totalErrorsToday stats + currentErrors;
     ManagerStats.mode := ManagerStats.mode stats;
     ManagerStats.error := ManagerStats.error stats |}.

Fixpoint countKeys (today : string) (ks : list KeyInfo) (stats : ManagerStats.t)
    : M ManagerStats.t :=
  match ks with
  | [] => mret stats
  | keyInfo :: rest =>
      counters ← readCounters today keyInfo;
      clock ← gets now;
      countKeys today rest (countKey keyInfo counters.1 counters.2 clock stats)
  end.

(** The comparator of [stats.usage.sort]. *)
Definition compareReports (a b : KeyReport.t) : Z :=
  KeyReport.priority a - KeyReport.priority b.

Definition getStats : M ManagerStats.t := λ w,
  let today := getTodayString (now w) in
  let stats :=
    {| ManagerStats.total := Z.of_nat (length (keys cfg));
       ManagerStats.available := 0;
       ManagerStats.blocked := 0;
       ManagerStats.errorBlocked := 0;
       ManagerStats.usage := [];
       ManagerStats.totalRequestsToday := 0;
       ManagerStats.totalErrorsToday := 0;
       ManagerStats.mode := "redis";
       ManagerStats.error := None |} in
  if negb (redisConnected w)
  then (Ok {| ManagerStats.total := ManagerStats.total stats;
              ManagerStats.available := ManagerStats.available stats;
              ManagerStats.blocked := ManagerStats.blocked stats;
              ManagerStats.errorBlocked := ManagerStats.errorBlocked stats;
              ManagerStats.usage := ManagerStats.usage stats;
              ManagerStats.totalRequestsToday := ManagerStats.totalRequestsToday stats;
              ManagerStats.totalErrorsToday := ManagerStats.totalErrorsToday stats;
              ManagerStats.mode := ManagerStats.mode stats;
              ManagerStats.error := Some "Redis连接不可用" |}, w)
  else
    (stats ← countKeys today (keys cfg) stats;
     mret {| ManagerStats.total := ManagerStats.total stats;
             ManagerStats.available := ManagerStats.available stats;
             ManagerStats.blocked := ManagerStats.blocked stats;
             ManagerStats.errorBlocked := ManagerStats.errorBlocked stats;
             ManagerStats.usage := jsSort compareReports (ManagerStats.usage stats);
             ManagerStats.totalRequestsToday := ManagerStats.totalRequestsToday stats;
             ManagerStats.totalErrorsToday := ManagerStats.totalErrorsToday stats;
             ManagerStats.mode := ManagerStats.mode stats;
             ManagerStats.error := ManagerStats.error stats |}) w.

(** *** resetKeyUsage *)
Definition resetKeyUsage (keyId : string) : M unit := λ w,
  if negb (redisConnected w) then (Ok tt, w)
  else
    let today := getTodayString (now w) in
    let usageKey := usageKeyOf keyId today in
    let timeKey := timeKeyOf keyId today in
    tryCatch
      (_ ← redisDel env [usageKey];
       redisDel env [timeKey])
      (λ _, mret tt) w.

(** *** getRemainingQuota *)

(** The loop that adds up [totalUsed]. *)
Fixpoint sumUsage (today : string) (ks : list KeyInfo) (totalUsed : Z) : M Z :=
  match ks with
  | [] => mret totalUsed
  | keyInfo :: rest =>
      totalUsed' ← tryCatch
        (usage ← redisGet env (usageKeyOf (id keyInfo) today);
         mret (totalUsed + default 0 usage))
        (λ _, mret totalUsed);
      sumUsage today rest totalUsed'
  end.

Definition getRemainingQuota : M Z := λ w,
  if negb (redisConnected w) then (Ok 0, w)
  else
    let today := getTodayString (now w) in
    (totalUsed ← sumUsage today (keys cfg) 0;
     let totalQuota := Z.of_nat (length (keys cfg)) * dailyLimit cfg in
     mret (Z.max 0 (totalQuota - totalUsed))) w.

(** *** healthCheck *)

(** The loop that counts [availableKeys]. *)
Fixpoint countAvailable (today : string) (ks : list KeyInfo) (availableKeys : Z) : M Z :=
  match ks with
  | [] => mret availableKeys
  | keyInfo :: rest =>
      availableKeys' ← tryCatch
        (usage ← redisGet env (usageKeyOf (id keyInfo) today);
         let currentUsage := default 0 usage in
         if decide (currentUsage < dailyLimit cfg) then mret (availableKeys + 1)
         else mret availableKeys)
        (λ _, mret availableKeys);
      countAvailable today rest availableKeys'
  end.

Definition managerHealthCheck : M ManagerHealth.t := λ w,
  if negb (redisConnected w)
  then (Ok {| ManagerHealth.status := "unhealthy";
              ManagerHealth.error := Some "Redis连接不可用";
              ManagerHealth.availableKeys := 0;
              ManagerHealth.totalKeys := Z.of_nat (length (keys cfg));
              ManagerHealth.redisConnected := None |}, w)
  else
    let today := getTodayString (now w) in
    (availableKeys ← countAvailable today (keys cfg) 0;
     connected ← gets redisConnected;
     mret {| ManagerHealth.status :=
               if decide (0 < availableKeys) then "healthy" else "unhealthy";
             ManagerHealth.error := None;
             ManagerHealth.availableKeys := availableKeys;
             ManagerHealth.totalKeys := Z.of_nat (length (keys cfg));
             ManagerHealth.redisConnected := Some connected |}) w.

End Manager.

(** *** destroy: the Redis client is disconnected for good *)
Definition managerDestroy (w : World) : World := setRedisConnected false w.

(** ** WeatherService: cache maintenance, health and shutdown *)

(** What [clearCache] returns. *)
Module Cleared.
Record t := {
  success : bool;
  message : string;
  clearedItems : option Z;
  cacheEnabled : bool }.
End Cleared.

(** What [WeatherService.healthCheck] resolves with: the report of a
    healthy service, or [{status: 'unhealthy', error, mode}]. *)
Module ServiceHealth.
Record checks := {
  apiKeys : bool;
  cache : option bool;
  pendingRequests : bool;
  redis : bool }.

Record cluster := {
  redisConnected : bool;
  storageMode : string }.

Inductive t :=
  | Healthy (checks : checks) (availableKeys : Z) (cacheUsage : string)
      (cacheEnabled : bool) (uptime : Z) (mode : string) (cluster : cluster)
  | Unhealthy (error : string) (mode : string).
End ServiceHealth.

Section Maintenance.
Variable env : Env.
Variable cfg : Config.

(** [this.stats.startTime], set by the constructor. *)
Variable startTime : Z.

(** [clearCache]: [keys().length] counts every stored entry, expired or
    not; [flushAll] drops them all. *)
Definition clearCache : M Cleared.t := λ w,
  if negb (cacheEnabled cfg)
  then (Ok {| Cleared.success := false;
              Cleared.message := "缓存未启用，无需清空";
              Cleared.clearedItems := None;
              Cleared.cacheEnabled := false |}, w)
  else
    let clearedKeys := Z.of_nat (size (cache w)) in
    (Ok {| Cleared.success := true;
           Cleared.message := "已清空 " +:+ pretty clearedKeys +:+ " 个缓存项";
           Cleared.clearedItems := Some clearedKeys;
           Cleared.cacheEnabled := true |}, setCache ∅ w).

(** [error.message] in a [catch]; reading it from a thrown [null] raises
    a [TypeError]. *)
Definition messageOf (error : JsErr) : res string :=
  match error with
  | Error message | AxiosResponseError message _ _ | AxiosRequestError message => Ok message
  | ThrownNull => Throw (Error "Cannot read properties of null (reading 'message')")
  end.

(** [healthCheck].  The uptime is [Math.floor] of a quotient of integers
    below 2^53, where it is the integer quotient. *)
Definition healthCheck : M ServiceHealth.t :=
  tryCatch
    (_ ← ensureInitialized cfg;
     apiKeyHealth ← managerHealthCheck env cfg;
     let availableKeys := ManagerHealth.availableKeys apiKeyHealth in
     if decide (availableKeys = 0) then throw (Error "没有可用的API密钥")
     else
       w ← gets (λ w, w);
       let stored := Z.of_nat (size (cache w)) in
       let cacheHealth :=
         if cacheEnabled cfg then bool_decide (stored < maxKeys cfg) else true in
       mret (ServiceHealth.Healthy
               {| ServiceHealth.apiKeys := bool_decide (0 < availableKeys);
                  ServiceHealth.cache :=
                    if cacheEnabled cfg then Some cacheHealth else None;
                  ServiceHealth.pendingRequests :=
                    bool_decide (Z.of_nat (size (pendingRequests w)) < 1000);
                  ServiceHealth.redis := redisConnected w |}
               availableKeys
               (if cacheEnabled cfg
                then pretty stored +:+ "/" +:+ pretty (maxKeys cfg)
                else "disabled")
               (cacheEnabled cfg)
               ((now w - startTime) `div` 1000)
               "redis"
               {| ServiceHealth.redisConnected := redisConnected w;
                  ServiceHealth.storageMode := "redis" |}))
    (λ error,
       match messageOf error with
       | Ok message => mret (ServiceHealth.Unhealthy message "redis")
       | Throw e => throw e
       end).

(** [destroy]: the manager is destroyed, the cache timer stopped, the
    pending map cleared. *)
Definition destroy (w : World) : World :=
  setPendingRequests ∅ (managerDestroy w).

End Maintenance.

(** ** Notions used to state the further properties *)

(** What the loop of [getAvailableKey] has found after the credentials
    [seen]: nothing when none of them is selectable, otherwise one of the
    selectable ones with the least usage. *)
Definition leastOf (env : Env) (cfg : Config) (today : string) (w : World)
    (seen : list KeyInfo) (state : option KeyInfo * option Z) : Prop :=
  match state with
  | (None, None) => seen ≫= probed env cfg today w = []
  | (Some k, Some u) =>
      ∃ a, a ∈ seen ≫= probed env cfg today w ∧ keyInfo a = k ∧ currentUsage a = u ∧
           ∀ b, b ∈ seen ≫= probed env cfg today w → u <= currentUsage b
  | _ => False
  end.

(** Credential [k] can be selected in [w] and has usage [u] today. *)
Definition selectableAt (env : Env) (cfg : Config) (w : World) (k : KeyInfo) (u : Z) : Prop :=
  let today := getTodayString (now w) in
  readable env (id k) today ∧ usageCount w (id k) today = u ∧
  u < dailyLimit cfg ∧ errorCount w (id k) today < maxErrors.

(** The usage counter of [k] can be read and is below the daily limit:
    what [getKeyByRoundRobin] and [healthCheck] ask of a credential. *)
Definition underLimit (env : Env) (cfg : Config) (w : World) (k : KeyInfo) : Prop :=
  let today := getTodayString (now w) in
  redisFails env (GET (usageKeyOf (id k) today)) = false ∧
  usageCount w (id k) today < dailyLimit cfg.

(** The counters of [k] as the loop of [getStats] ends up with them: a
    counter whose read is rejected, and the error counter after a rejected
    usage read, count as 0. *)
Definition countersRead (env : Env) (today : string) (w : World) (k : KeyInfo) : Z * Z :=
  if redisFails env (GET (usageKeyOf (id k) today)) then (0, 0)
  else if redisFails env (GET (errorKeyOf (id k) today))
       then (usageCount w (id k) today, 0)
       else (usageCount w (id k) today, errorCount w (id k) today).

(** The row of [k] in the report of [getStats]. *)
Definition reportOf (env : Env) (cfg : Config) (tz : Z) (roundedPercent : Z → Z → string)
    (w : World) (k : KeyInfo) : KeyReport.t :=
  let counters := countersRead env (getTodayString (now w)) w k in
  keyReport cfg tz roundedPercent k counters.1 counters.2 (now w).

Definition sumZ (l : list Z) : Z := foldr Z.add 0 l.

(** How many elements of [l] pass the test [f]. *)
Definition countIf {A} (f : A → bool) (l : list A) : Z :=
  Z.of_nat (length (List.filter f l)).

(** One iteration of the loop of [getStats], as a function of the world. *)
Definition countStep (env : Env) (cfg : Config) (tz : Z) (roundedPercent : Z → Z → string)
    (w : World) (stats : ManagerStats.t) (k : KeyInfo) : ManagerStats.t :=
  countKey cfg tz roundedPercent k
    (countersRead env (getTodayString (now w)) w k).1
    (countersRead env (getTodayString (now w)) w k).2 (now w) stats.

(** The usage of [k] as [getRemainingQuota] adds it up: 0 when the read is
    rejected. *)
Definition usageRead (env : Env) (w : World) (k : KeyInfo) : Z :=
  let today := getTodayString (now w) in
  if redisFails env (GET (usageKeyOf (id k) today)) then 0
  else usageCount w (id k) today.

(** [underLimit], as a test. *)
Definition underLimitb (env : Env) (cfg : Config) (w : World) (k : KeyInfo) : bool :=
  let today := getTodayString (now w) in
  negb (redisFails env (GET (usageKeyOf (id k) today))) &&
  bool_decide (usageCount w (id k) today < dailyLimit cfg).

(** *** The fetch loop, in more detail *)

(** [set] of the cache throws: the cache is enabled and holds [maxKeys]
    entries or more. *)
Definition cacheFull (cfg : Config) (w : World) : bool :=
  cacheEnabled cfg &&
  bool_decide (-1 < maxKeys cfg ∧ maxKeys cfg <= Z.of_nat (size (cache w))).

Definition cacheFullMessage : string := "Cache max keys amount exceeded".

(** The expiry time [set] gives an entry stored at time [t]. *)
Definition expiryAt (cfg : Config) (t : Z) : Z :=
  if decide (stdTTL cfg = 0) then 0 else t + stdTTL cfg * 1000.

Definition isUpstream (e : Event) : bool :=
  match e with
  | EvUpstream _ _ _ _ => true
  | _ => false
  end.

(** An upstream request that ends in the [catch] of the key loop, for the
    credential and on the day whose error counter is stored under
    [redisKey]: one that was not answered 2xx, or any request at all when
    [set] throws after the answer ([full]). *)
Definition chargedError (full : bool) (redisKey : string) (e : Event) : bool :=
  match e with
  | EvUpstream keyId day _ ok => (negb ok || full) && String.eqb (errorKeyOf keyId day) redisKey
  | _ => false
  end.

Definition errorsCharged (full : bool) (redisKey : string) (tr : list Event) : Z :=
  countIf (chargedError full redisKey) tr.

(** What the fetch loop may do to [this.stats]: it counts upstream calls and
    cache writes, no more writes than calls. *)
Definition statsKept (s s' : Stats) : Prop :=
  totalRequests s' = totalRequests s ∧ cacheHits s' = cacheHits s ∧
  errors s' = errors s ∧ responseTimeSum s' = responseTimeSum s ∧
  maxResponseTime s' = maxResponseTime s ∧ minResponseTime s' = minResponseTime s ∧
  0 <= cacheWrites s' - cacheWrites s <= apiCalls s' - apiCalls s.

(** One of the upstream requests sent between [w] and [w'] got [reply]. *)
Definition answered (env : Env) (w w' : World) (reply : HttpResult) : Prop :=
  ∃ n url, (calls w ≤ n < calls w')%nat ∧ result (upstream env n url) = reply.

(** Where an error of the fetch loop comes from: an upstream answer, the
    selector, or the cache. *)
Definition raisedBy (env : Env) (w w' : World) (e : JsErr) : Prop :=
  match e with
  | AxiosResponseError _ status data => answered env w w' (HttpStatus status data)
  | AxiosRequestError message => answered env w w' (HttpNoResponse message)
  | Error message =>
      message = noKeysMessage ∨ message = noConnectionMessage ∨ message = cacheFullMessage
  | ThrownNull => False
  end.

(** What a stretch of the fetch loop does to the world besides the usage
    counters, [tr] being the events it adds and [full] telling whether [set]
    throws. *)
Record Fetching (env : Env) (full : bool) (w : World) (tr : list Event) (w' : World)
    : Prop := {
  fetching_trace : trace w' = trace w ++ tr;
  fetching_connected : redisConnected w' = redisConnected w;
  fetching_pending : pendingRequests w' = pendingRequests w;
  fetching_calls : calls w' = (calls w + length (List.filter isUpstream tr))%nat;
  fetching_stats : statsKept (stats w) (stats w');
  fetching_errors :
    ledgerWritable env w →
    ∀ keyId day,
      errorCount w' keyId day =
        errorCount w keyId day + errorsCharged full (errorKeyOf keyId day) tr }.

(** The invariant of [this.stats]. *)
Definition statsSane (s : Stats) : Prop :=
  cacheHits s + errors s <= totalRequests s ∧
  cacheWrites s <= apiCalls s ∧
  ∀ m, minResponseTime s = Some m → m <= maxResponseTime s.

(** What a part of the fetch loop hands back, a body ([inl]) or the last
    error ([inr]), and what it has done to the cache by then: a body is that
    of an upstream request answered 2xx, stored under the fingerprint when
    the cache is enabled; an error is the one the part started with or was
    raised on the way, and the cache is as it was. *)
Definition handsBack (env : Env) (cfg : Config) (cacheKey : string) (w w' : World)
    (lastError : JsErr) (v : JsVal + JsErr) : Prop :=
  match v with
  | inl data =>
      cacheFull cfg w = false ∧ answered env w w' (Http2xx data) ∧
      cache w' = if cacheEnabled cfg
                 then <[cacheKey := (data, expiryAt cfg (now w'))]> (cache w)
                 else cache w
  | inr err => cache w' = cache w ∧ (err = lastError ∨ raisedBy env w w' err)
  end.

(** How a call of [getWeatherData] for the fingerprint [key] ended, from
    world [w] to world [w'], with what outcome. *)
Inductive Served (env : Env) (cfg : Config) (key : string) (w w' : World)
    : res JsVal → Prop :=
  | NotInitialized :
      initialized cfg = false →
      cache w' = cache w → calls w' = calls w → redis w' = redis w →
      Served env cfg key w w' (Throw (initError cfg))
  | FromCache data expiry :
      initialized cfg = true → cacheEnabled cfg = true →
      cache w !! key = Some (data, expiry) → ¬ (expiry ≠ 0 ∧ expiry < now w) →
      truthy data = true →
      cache w' = cache w → calls w' = calls w → redis w' = redis w → now w' = now w →
      Served env cfg key w w' (Ok data)
  | FromPending outcome :
      initialized cfg = true →
      pendingRequests w !! key = Some outcome →
      calls w' = calls w → redis w' = redis w →
      Served env cfg key w w' outcome
  | Fetched data :
      initialized cfg = true →
      pendingRequests w !! key = None →
      answered env w w' (Http2xx data) →
      (cache w !! key = None → cacheFull cfg w = false) →
      (cacheEnabled cfg = true → cache w' !! key = Some (data, expiryAt cfg (now w'))) →
      Served env cfg key w w' (Ok data)
  | FetchFailed e :
      initialized cfg = true →
      pendingRequests w !! key = None →
      e = ThrownNull ∨ raisedBy env w w' e →
      (cache w !! key = None → cache w' = cache w) →
      Served env cfg key w w' (Throw e).

(** A world whose cache holds as many entries as a cache of two may hold,
    none of them for [sampleParams]. *)
Definition smallCacheConfig : Config :=
  {| keys := loadApiKeys ["secret-one"; "secret-two"];
     dailyLimit := 2000; retryCount := 3; retryDelay := 1000;
     cacheEnabled := true; stdTTL := 300; maxKeys := 2;
     initialized := true; initFailure := "Redis连接超时";
     appIdKey := Some "app-id" |}.

Definition fullCacheWorld : World :=
  setCache {[ "weather:lat:1:lon:1" := (JObj "{}", 1705336500000);
              "weather:lat:2:lon:2" := (JObj "{}", 1705336500000) ]} (sampleWorld ∅).

(** The status codes of the JSON replies the [/onecall] handler builds. *)
Definition handlerStatuses : list Z := [401; 429; 500; 503].

(** ** The day key, day by day *)

(** The time values a [Date] can hold. *)
Definition validTime (t : Z) : Prop := -8640000000000000 <= t <= 8640000000000000.

(** The day number of a calendar date: the way back from [JsDate.civil]. *)
Definition daysFromCivil (date : Z * Z * Z) : Z :=
  let '(y, m, d) := date in
  let y' := if decide (m <= 2) then y - 1 else y in
  let era := y' `div` 400 in
  let yoe := y' - era * 400 in
  let mp := if decide (m <= 2) then m + 9 else m - 3 in
  let doy := (153 * mp + 2) `div` 5 + d - 1 in
  let doe := yoe * 365 + yoe `div` 4 - yoe `div` 100 + doy in
  era * 146097 + doe - 719468.

(** * Verification *)

(** ** Strings *)

#[local] Arguments String.append !_ _ / : simpl nomatch.

Lemma append_assoc (a b c : string) : (a +:+ b) +:+ c = a +:+ (b +:+ c).
Proof. induction a as [|x a IH]; simpl; [done | by rewrite IH]. Qed.

Lemma append_nil_r (a : string) : a +:+ "" = a.
Proof. induction a as [|x a IH]; simpl; [done | by rewrite IH]. Qed.

Lemma append_inv_head (a b c : string) : a +:+ b = a +:+ c → b = c.
Proof. induction a as [|x a IH]; simpl; [done | intros [= H]; auto]. Qed.

Lemma startsWith_append (p s : string) : Js.startsWith p (p +:+ s) = true.
Proof.
  induction p as [|x p IH]; simpl; [done |].
  destruct (decide (x = x)); [done | congruence].
Qed.

Lemma includes_startsWith (needle s : string) :
  Js.startsWith needle s = true → Js.includes needle s = true.
Proof. intros H. destruct s; simpl; rewrite H; done. Qed.

Lemma includes_append (needle pre post : string) :
  Js.includes needle (pre +:+ needle +:+ post) = true.
Proof.
  induction pre as [|x pre IH].
  - simpl. apply includes_startsWith, startsWith_append.
  - simpl. rewrite IH. apply orb_true_r.
Qed.

Lemma lacks_append c a b : lacks c a → lacks c b → lacks c (a +:+ b).
Proof. induction a; simpl; [done | intros [? ?] ?; auto]. Qed.

Lemma beforeFirst_append c a b :
  lacks c a → Js.beforeFirst c (a +:+ String c b) = a.
Proof.
  induction a as [|x a IH]; simpl.
  - intros _. destruct (decide (c = c)); [done | congruence].
  - intros [Hx Ha]. destruct (decide (x = c)); [done |]. by rewrite IH.
Qed.

Lemma digit_not (c : ascii) (n : Z) :
  (nat_of_ascii c < 48 ∨ 57 < nat_of_ascii c)%nat → Js.digit n ≠ c.
Proof.
  intros Hc Heq. subst c. unfold Js.digit in Hc.
  assert (0 <= n `mod` 10 < 10) as Hm by (apply Z.mod_pos_bound; lia).
  rewrite nat_ascii_embedding in Hc; lia.
Qed.

Lemma lacks_pad c w n :
  (nat_of_ascii c < 48 ∨ 57 < nat_of_ascii c)%nat → lacks c (Js.pad w n).
Proof.
  intros Hc. revert n. induction w as [|w IH]; intros n; simpl; [done |].
  apply lacks_append; [apply IH |]. simpl. split; [by apply digit_not | done].
Qed.

(** ** The day key is the UTC date *)

Lemma lacks_isoDate days : lacks "T" (JsDate.isoDate days).
Proof.
  unfold JsDate.isoDate. destruct (JsDate.civil days) as [[y m] d].
  assert (∀ w n, lacks "T" (Js.pad w n)) as Hpad
    by (intros; apply lacks_pad; change (nat_of_ascii "T") with 84%nat; lia).
  assert (lacks "T" "-") as Hdash by (simpl; split; [discriminate | done]).
  assert (lacks "T" (JsDate.isoYear y)) as Hyear.
  { unfold JsDate.isoYear. destruct (decide (0 <= y <= 9999)); [auto |].
    apply lacks_append; [| auto].
    destruct (decide (y < 0)); simpl; split; (discriminate || done). }
  auto using lacks_append.
Qed.

Lemma getTodayString_utc (t : Z) :
  getTodayString t = JsDate.isoDate (JsDate.Day t).
Proof.
  unfold getTodayString, JsDate.toISOString.
  change ("T" +:+ ?s) with (String "T" s).
  apply beforeFirst_append, lacks_isoDate.
Qed.

Lemma getTodayString_same_day (t1 t2 : Z) :
  JsDate.Day t1 = JsDate.Day t2 → getTodayString t1 = getTodayString t2.
Proof. intros H. by rewrite !getTodayString_utc, H. Qed.

(** ** Array.prototype.sort *)

Section JsSortFacts.
Context {A : Type} (compare : A → A → Z).
Let R (a b : A) : Prop := compare a b <= 0.
Hypothesis compare_total : ∀ a b, R a b ∨ R b a.
Hypothesis compare_trans : ∀ a b c, R a b → R b c → R a c.

Lemma sortInsert_Permutation x l : sortInsert compare x l ≡ₚ x :: l.
Proof using Type.
  induction l as [|y l IH]; simpl; [done |].
  destruct (decide (compare x y <= 0)); [done |].
  rewrite IH. apply Permutation_swap.
Qed.

Lemma jsSort_Permutation l : jsSort compare l ≡ₚ l.
Proof using Type.
  induction l as [|x l IH]; simpl; [done |].
  by rewrite sortInsert_Permutation, IH.
Qed.

Lemma sortInsert_Sorted x l : Sorted R l → Sorted R (sortInsert compare x l).
Proof using compare_total.
  induction 1 as [|y l Hl IH Hhd]; simpl.
  - repeat constructor.
  - destruct (decide (compare x y <= 0)) as [Hxy|Hxy].
    + constructor; [by constructor | by constructor].
    + constructor; [done |].
      assert (R y x) as Hyx by (destruct (compare_total x y); done).
      destruct Hhd as [|z l' Hyz]; simpl; [by constructor |].
      destruct (decide (compare x z <= 0)); by constructor.
Qed.

Lemma jsSort_Sorted l : Sorted R (jsSort compare l).
Proof using compare_total.
  induction l as [|x l IH]; simpl; [constructor | by apply sortInsert_Sorted].
Qed.

Lemma jsSort_StronglySorted l : StronglySorted R (jsSort compare l).
Proof using compare_total compare_trans.
  apply Sorted_StronglySorted; [exact compare_trans | apply jsSort_Sorted].
Qed.
End JsSortFacts.

Lemma StronglySorted_mono {A} (R1 R2 : A → A → Prop) (l : list A) :
  (∀ a b, R1 a b → R2 a b) → StronglySorted R1 l → StronglySorted R2 l.
Proof.
  intros HR. induction 1 as [|x l Hl IH Hx]; constructor; [done |].
  eapply Forall_impl; [exact Hx | auto].
Qed.

Lemma compareKeys_le (a b : AvailableKey) :
  compareKeys a b <= 0 ↔ priorityThenUsage a b.
Proof.
  unfold compareKeys, priorityThenUsage.
  destruct (decide (priority (keyInfo a) ≠ priority (keyInfo b))); lia.
Qed.

Lemma compareKeys_total a b : compareKeys a b <= 0 ∨ compareKeys b a <= 0.
Proof. rewrite !compareKeys_le. unfold priorityThenUsage. lia. Qed.

Lemma compareKeys_trans a b c :
  compareKeys a b <= 0 → compareKeys b c <= 0 → compareKeys a c <= 0.
Proof. rewrite !compareKeys_le. unfold priorityThenUsage. lia. Qed.

(** ** The selector reads and does nothing else *)

Ltac unfold_monad := unfold mbind, M_bind, mret, M_ret, tryCatch, gets, modify, throw in *.

Section SelectorFacts.
Variable env : Env.
Variable cfg : Config.

Lemma readCounter_run k w :
  readCounter env k w =
    if redisFails env (GET k) then (Throw redisError, w)
    else (Ok (default 0 (strings (redis w) !! k)), w).
Proof. unfold readCounter, redisGet. unfold_monad. by destruct (redisFails env _). Qed.

Lemma probeKey_run today k w :
  probeKey env cfg today k w = (Ok (probed env cfg today w k), w).
Proof.
  unfold probeKey, probed, usageCount, errorCount. unfold_monad.
  rewrite readCounter_run.
  destruct (redisFails env (GET (usageKeyOf _ _))); [done |].
  rewrite readCounter_run.
  destruct (redisFails env (GET (errorKeyOf _ _))); [done |].
  by destruct (decide _).
Qed.

Lemma probeKeys_run today ks w :
  probeKeys env cfg today ks w = (Ok (ks ≫= probed env cfg today w), w).
Proof.
  induction ks as [|k ks IH]; [done |].
  simpl. unfold_monad. by rewrite probeKey_run, IH.
Qed.

Lemma getAllAvailableKeys_run w :
  getAllAvailableKeys env cfg w =
    if redisConnected w
    then (Ok (jsSort compareKeys
                (keys cfg ≫= probed env cfg (getTodayString (now w)) w)), w)
    else (Throw (Error "Redis连接不可用，无法获取API密钥"), w).
Proof.
  unfold getAllAvailableKeys. destruct (redisConnected w); simpl; [| done].
  unfold_monad. by rewrite probeKeys_run.
Qed.

Lemma getAllAvailableKeys_world w : snd (getAllAvailableKeys env cfg w) = w.
Proof. rewrite getAllAvailableKeys_run. by destruct (redisConnected w). Qed.

Lemma elem_of_probed today w k a :
  a ∈ probed env cfg today w k ↔
    a = {| keyInfo := k; currentUsage := usageCount w (id k) today;
           currentErrors := errorCount w (id k) today |} ∧
    readable env (id k) today ∧
    usageCount w (id k) today < dailyLimit cfg ∧
    errorCount w (id k) today < maxErrors.
Proof.
  unfold probed, readable.
  destruct (redisFails env (GET (usageKeyOf _ _))).
  { rewrite elem_of_nil. intuition discriminate. }
  destruct (redisFails env (GET (errorKeyOf _ _))).
  { rewrite elem_of_nil. intuition discriminate. }
  destruct (decide _) as [H|H].
  - rewrite list_elem_of_singleton. intuition.
  - rewrite elem_of_nil. intuition.
Qed.

(** Who is in the selector's result. *)
Lemma selector_elem_of w l a :
  fst (getAllAvailableKeys env cfg w) = Ok l →
  let today := getTodayString (now w) in
  a ∈ l ↔ ∃ k, k ∈ keys cfg ∧ a ∈ probed env cfg today w k.
Proof.
  rewrite getAllAvailableKeys_run.
  destruct (redisConnected w); simpl; [| done].
  intros [= <-]. rewrite jsSort_Permutation, list_elem_of_bind.
  split; intros (k & ? & ?); exists k; done.
Qed.

Lemma selector_appears w l c :
  c ∈ keys cfg →
  fst (getAllAvailableKeys env cfg w) = Ok l →
  let today := getTodayString (now w) in
  appears c l ↔
    readable env (id c) today ∧
    usageCount w (id c) today < dailyLimit cfg ∧
    errorCount w (id c) today < maxErrors.
Proof.
  intros Hc Hl today. unfold appears. split.
  - intros (a & Ha & <-).
    apply (selector_elem_of _ _ _ Hl) in Ha as (k & Hk & Ha).
    apply elem_of_probed in Ha as (-> & ?). done.
  - intros H.
    exists {| keyInfo := c; currentUsage := usageCount w (id c) today;
              currentErrors := errorCount w (id c) today |}.
    split; [| reflexivity].
    apply (selector_elem_of _ _ _ Hl). exists c. split; [done |].
    apply elem_of_probed. done.
Qed.

End SelectorFacts.

(** ** Ledger writes never lower a counter of the current day *)

Lemma usageKey_not_errorKey k1 d1 k2 d2 : usageKeyOf k1 d1 ≠ errorKeyOf k2 d2.
Proof. unfold usageKeyOf, errorKeyOf. simpl. discriminate. Qed.

Lemma includes_suffix (needle pre : string) : Js.includes needle (pre +:+ needle) = true.
Proof. rewrite <- (append_nil_r needle) at 2. apply includes_append. Qed.

Lemma usageKey_includes_day k d : Js.includes d (usageKeyOf k d) = true.
Proof.
  unfold usageKeyOf.
  rewrite <- (append_assoc k), <- (append_assoc "usage:"). apply includes_suffix.
Qed.

Lemma errorKey_includes_day k d : Js.includes d (errorKeyOf k d) = true.
Proof.
  unfold errorKeyOf.
  rewrite <- (append_assoc k), <- (append_assoc "errors:"). apply includes_suffix.
Qed.

Lemma lookup_foldr_delete {V} (m : gmap string V) (ks : list string) (k : string) :
  k ∉ ks → foldr delete m ks !! k = m !! k.
Proof.
  induction ks as [|k' ks IH]; simpl; [done |].
  rewrite not_elem_of_cons. intros [Hne Hk].
  rewrite lookup_delete_ne; [auto | done].
Qed.

Lemma counter_insert_mono (m : gmap string Z) (k k' : string) :
  default 0 (m !! k') <= default 0 (<[k := default 0 (m !! k) + 1]> m !! k').
Proof.
  destruct (decide (k = k')) as [->|Hne].
  - rewrite lookup_insert_eq. simpl. lia.
  - rewrite lookup_insert_ne; [lia | done].
Qed.

Ltac case_fails :=
  match goal with
  | |- context [redisFails ?e ?c] => destruct (redisFails e c) eqn:?; simpl
  end.

Section LedgerFacts.
Variable env : Env.

(** [recordUsage] either leaves the integers alone or adds one under the
    usage key of the current day. *)
Lemma recordUsage_strings keyId w :
  let w' := snd (recordUsage env keyId w) in
  let k := usageKeyOf keyId (getTodayString (now w)) in
  now w' = now w ∧ redisConnected w' = redisConnected w ∧
  (strings (redis w') = strings (redis w) ∨
   (redisConnected w = true ∧ redisFails env (INCR k) = false ∧
    strings (redis w') = <[k := default 0 (strings (redis w) !! k) + 1]> (strings (redis w)))).
Proof.
  unfold recordUsage, redisIncr, redisExpire, redisLpush. unfold_monad.
  destruct (redisConnected w) eqn:Hc; simpl; [| auto].
  repeat case_fails; auto 8.
Qed.

Lemma recordError_strings keyId w :
  let w' := snd (recordError env keyId w) in
  let k := errorKeyOf keyId (getTodayString (now w)) in
  now w' = now w ∧ redisConnected w' = redisConnected w ∧
  (strings (redis w') = strings (redis w) ∨
   strings (redis w') = <[k := default 0 (strings (redis w) !! k) + 1]> (strings (redis w))).
Proof.
  unfold recordError, redisIncr, redisExpire. unfold_monad.
  destruct (redisConnected w) eqn:Hc; simpl; [| auto].
  repeat case_fails; auto 8.
Qed.

(** [cleanupOldUsage] deletes only keys that do not contain today's
    date. *)
Lemma cleanupOldUsage_strings w k :
  let w' := snd (cleanupOldUsage env w) in
  now w' = now w ∧ redisConnected w' = redisConnected w ∧
  (Js.includes (getTodayString (now w)) k = true →
   strings (redis w') !! k = strings (redis w) !! k).
Proof.
  unfold cleanupOldUsage, redisKeys, redisDel. unfold_monad.
  destruct (redisConnected w) eqn:Hc; simpl; [| auto].
  do 3 (case_fails; [auto |]).
  destruct (decide _); simpl; [| auto].
  case_fails; [auto |].
  split; [done |]. split; [done |]. intros Hk.
  apply lookup_foldr_delete.
  rewrite !elem_of_app, !list_elem_of_filter. intros [[H _]|[[H _]|[H _]]]; congruence.
Qed.

Lemma applyOp_counts w op keyId :
  let d := getTodayString (now w) in
  usageCount w keyId d <= usageCount (applyOp env w op) keyId d ∧
  errorCount w keyId d <= errorCount (applyOp env w op) keyId d.
Proof.
  unfold usageCount, errorCount. destruct op as [k|k| |ms|up]; simpl.
  - destruct (recordUsage_strings k w) as (_ & _ & [->| (_ & _ & ->)]); [lia |].
    split; apply counter_insert_mono.
  - destruct (recordError_strings k w) as (_ & _ & [->| ->]); [lia |].
    split; apply counter_insert_mono.
  - pose proof (cleanupOldUsage_strings w (usageKeyOf keyId (getTodayString (now w))))
      as (_ & _ & Hu).
    pose proof (cleanupOldUsage_strings w (errorKeyOf keyId (getTodayString (now w))))
      as (_ & _ & He).
    rewrite Hu by apply usageKey_includes_day.
    rewrite He by apply errorKey_includes_day.
    lia.
  - lia.
  - lia.
Qed.

Lemma staysOn_counts day ops w keyId :
  staysOn env day ops w →
  let w' := foldl (applyOp env) w ops in
  getTodayString (now w') = day ∧
  usageCount w keyId day <= usageCount w' keyId day ∧
  errorCount w keyId day <= errorCount w' keyId day.
Proof.
  revert w. induction ops as [|op ops IH]; intros w; simpl.
  - intros [Hday _]. split; [done | lia].
  - intros [Hday Hrest]. destruct (IH _ Hrest) as (Hd & Hu & He).
    split; [done |].
    pose proof (applyOp_counts w op keyId) as [Hu' He']. rewrite Hday in Hu', He'.
    lia.
Qed.
End LedgerFacts.

(** ** The selector: eligibility (C3) and order (C4) *)

Example sampleConfig_keys : keys sampleConfig = [sampleKey1; sampleKey2].
Proof. vm_compute. reflexivity. Qed.

(** C3, as stated, fails: a credential whose counters are both below their
    bounds is left out of the result when its usage counter cannot be read
    (the [catch] of the selector's loop skips it). *)
Lemma selector_eligibility_counterexample :
  ¬ (∀ env cfg w l c,
       c ∈ keys cfg →
       fst (getAllAvailableKeys env cfg w) = Ok l →
       appears c l ↔
         usageCount w (id c) (getTodayString (now w)) < dailyLimit cfg ∧
         errorCount w (id c) (getTodayString (now w)) < maxErrors).
Proof.
  intros H.
  specialize (H (unreadable "usage:key_1:2024-01-15") sampleConfig (sampleWorld ∅)
                [available sampleKey2 0 0] sampleKey1).
  destruct H as [_ H].
  - rewrite sampleConfig_keys. apply list_elem_of_here.
  - vm_compute. reflexivity.
  - destruct H as (a & Ha & Hk).
    + vm_compute. split; reflexivity.
    + apply list_elem_of_singleton in Ha. subst a. discriminate Hk.
Qed.

(** C3 (amended): a configured credential [c] appears in the list returned
    by [getAllAvailableKeys] if and only if both of its counters for the
    current day can be read, its usage counter is below [dailyLimit] and its
    error counter is below 3; and once either bound is reached, [c] stays
    out of every later result while the day key is unchanged, whatever
    usage and error recordings, cleanups, clock ticks and connection events
    happen in between. *)
Theorem selector_eligibility env cfg w l c :
  c ∈ keys cfg →
  fst (getAllAvailableKeys env cfg w) = Ok l →
  (appears c l ↔
     readable env (id c) (getTodayString (now w)) ∧
     usageCount w (id c) (getTodayString (now w)) < dailyLimit cfg ∧
     errorCount w (id c) (getTodayString (now w)) < maxErrors) ∧
  (blocked cfg w (id c) (getTodayString (now w)) →
   ∀ ops l',
     staysOn env (getTodayString (now w)) ops w →
     fst (getAllAvailableKeys env cfg (foldl (applyOp env) w ops)) = Ok l' →
     ¬ appears c l').
Proof.
  intros Hc Hl. split; [by apply selector_appears |].
  intros Hblocked ops l' Hstay Hl' Happ.
  apply (selector_appears _ _ _ _ _ Hc Hl') in Happ as (_ & Hu & He).
  destruct (staysOn_counts env _ ops w (id c) Hstay) as (Hday & Hu' & He').
  rewrite Hday in Hu, He. unfold blocked in Hblocked. lia.
Qed.

(** On 2024-01-15 the second credential has spent its quota; after one more
    successful call on the first, a failed one on the second and a cleanup,
    it is still not selected. *)
Lemma selector_eligibility_witness :
  let env := healthyEnv (JObj "{}") in
  let w := sampleWorld {[ "usage:key_2:2024-01-15" := 2000 ]} in
  (appears sampleKey2 [available sampleKey1 0 0] ↔
     readable env "key_2" "2024-01-15" ∧
     usageCount w "key_2" "2024-01-15" < 2000 ∧
     errorCount w "key_2" "2024-01-15" < maxErrors) ∧
  (blocked sampleConfig w "key_2" "2024-01-15" →
   ∀ ops l',
     staysOn env "2024-01-15" ops w →
     fst (getAllAvailableKeys env sampleConfig (foldl (applyOp env) w ops)) = Ok l' →
     ¬ appears sampleKey2 l').
Proof.
  intros env w.
  apply (selector_eligibility env sampleConfig w [available sampleKey1 0 0] sampleKey2).
  - rewrite sampleConfig_keys. apply list_elem_of_further, list_elem_of_here.
  - vm_compute. reflexivity.
Defined.

(** C4, as stated, fails: with 5 calls charged to [key_1] and none to
    [key_2], the selector still puts [key_1] first. *)
Lemma selector_order_counterexample :
  ¬ (∀ env cfg w l,
       fst (getAllAvailableKeys env cfg w) = Ok l → Sorted usageThenPriority l).
Proof.
  intros H.
  specialize (H (healthyEnv (JObj "{}")) sampleConfig
                (sampleWorld {[ "usage:key_1:2024-01-15" := 5 ]})
                [available sampleKey1 5 0; available sampleKey2 0 0]).
  assert (Sorted usageThenPriority [available sampleKey1 5 0; available sampleKey2 0 0])
    as Hs by (apply H; vm_compute; reflexivity).
  apply Sorted_inv in Hs as [_ Hhd]. apply HdRel_inv in Hhd.
  unfold usageThenPriority in Hhd. simpl in Hhd. lia.
Qed.

(** C4 (amended): the list returned by [getAllAvailableKeys], which the
    fetch loop iterates in order, is sorted by priority ascending
    (configuration order), with current usage ascending as the tie-break
    between equal priorities; the order is a function of the ledger
    snapshot, with no randomization. *)
Theorem selector_order env cfg w l :
  fst (getAllAvailableKeys env cfg w) = Ok l →
  StronglySorted priorityThenUsage l.
Proof.
  rewrite getAllAvailableKeys_run.
  destruct (redisConnected w); simpl; [| done].
  intros [= <-].
  eapply StronglySorted_mono; [| apply (jsSort_StronglySorted compareKeys)].
  - intros a b. apply compareKeys_le.
  - apply compareKeys_total.
  - apply compareKeys_trans.
Qed.

Lemma selector_order_witness :
  StronglySorted priorityThenUsage [available sampleKey1 5 0; available sampleKey2 0 0].
Proof.
  apply (selector_order (healthyEnv (JObj "{}")) sampleConfig
           (sampleWorld {[ "usage:key_1:2024-01-15" := 5 ]})).
  vm_compute. reflexivity.
Defined.

(** ** What the ledger writes return *)

Section LedgerRuns.
Variable env : Env.

Lemma recordUsage_run keyId w :
  let k := usageKeyOf keyId (getTodayString (now w)) in
  ∃ r', recordUsage env keyId w = (Ok tt, setRedis r' w) ∧
        strings r' =
          if redisConnected w && negb (redisFails env (INCR k))
          then <[k := default 0 (strings (redis w) !! k) + 1]> (strings (redis w))
          else strings (redis w).
Proof.
  unfold recordUsage, redisIncr, redisExpire, redisLpush. unfold_monad.
  destruct w as [t c r ca p s n tr lg]. simpl.
  destruct c; simpl; [| by exists r].
  repeat case_fails; eexists; (split; [reflexivity | done]).
Qed.

Lemma recordError_run keyId w :
  let k := errorKeyOf keyId (getTodayString (now w)) in
  ∃ r' v, recordError env keyId w = (Ok v, setRedis r' w) ∧
        strings r' =
          if redisConnected w && negb (redisFails env (INCR k))
          then <[k := default 0 (strings (redis w) !! k) + 1]> (strings (redis w))
          else strings (redis w).
Proof.
  unfold recordError, redisIncr, redisExpire. unfold_monad.
  destruct w as [t c r ca p s n tr lg]. simpl.
  destruct c; simpl; [| by exists r, None].
  repeat case_fails; do 2 eexists; (split; [reflexivity | done]).
Qed.
End LedgerRuns.

(** ** Progress of the fetch loop *)

Lemma successesOn_app k tr1 tr2 :
  successesOn k (tr1 ++ tr2) = successesOn k tr1 + successesOn k tr2.
Proof. unfold successesOn. rewrite List.filter_app, length_app. lia. Qed.

Lemma pacing_app tr1 tr2 : pacing (tr1 ++ tr2) = pacing tr1 ++ pacing tr2.
Proof. apply List.filter_app. Qed.

Section ProgressFacts.
Variable env : Env.
Variable ks : list KeyInfo.
Variable params : Params.

Lemma Progress_refl w : Progress env ks params w [] w.
Proof.
  split; auto.
  - by rewrite app_nil_r.
  - intros _ keyId day. unfold successesOn. simpl. lia.
Qed.

Lemma Progress_trans w tr1 w1 tr2 w2 :
  Progress env ks params w tr1 w1 →
  Progress env ks params w1 tr2 w2 →
  Progress env ks params w (tr1 ++ tr2) w2.
Proof.
  intros [Ht1 Hc1 Hp1 Hs1 Hu1] [Ht2 Hc2 Hp2 Hs2 Hu2]. split.
  - by rewrite Ht2, Ht1, app_assoc.
  - congruence.
  - congruence.
  - by apply Forall_app.
  - intros Hw keyId day.
    assert (ledgerWritable env w1) as Hw1.
    { destruct Hw as [Hconn Hincr]. split; [congruence | done]. }
    rewrite (Hu2 Hw1), (Hu1 Hw), successesOn_app. lia.
Qed.

(** A step that leaves the trace, the ledger, the connection and the
    pending map alone. *)
Lemma Progress_silent w w' :
  trace w' = trace w → redisConnected w' = redisConnected w →
  pendingRequests w' = pendingRequests w → redis w' = redis w →
  Progress env ks params w [] w'.
Proof.
  intros Ht Hc Hp Hr. split; auto.
  - by rewrite Ht, app_nil_r.
  - intros _ keyId day. unfold usageCount, successesOn. rewrite Hr. simpl. lia.
Qed.

(** A step that only adds an event which is not a 2xx answer. *)
Lemma Progress_event w e :
  sentWith ks params e → (∀ k, chargedTo k e = false) →
  Progress env ks params w [e] (emit e w).
Proof.
  intros Hs Hc. split; auto.
  intros _ keyId day. unfold successesOn, usageCount. simpl. rewrite Hc. simpl. lia.
Qed.
End ProgressFacts.

Section FetchFacts.
Variable env : Env.
Variable cfg : Config.
Variable params : Params.

Lemma successesOn_one redisKey keyId day url :
  successesOn redisKey [EvUpstream keyId day url true] =
    if String.eqb (usageKeyOf keyId day) redisKey then 1 else 0.
Proof. unfold successesOn. cbn [List.filter chargedTo]. by destruct (String.eqb _ _). Qed.

(** A 2xx answer followed by [recordUsage]: the usage counter of the
    credential, for the day of the answer, is one higher once the ledger
    takes the write. *)
Lemma Progress_charged ks w ms (k : KeyInfo) r' wEnd :
  let t := now w + ms in
  let today := getTodayString t in
  let redisKey := usageKeyOf (id k) today in
  k ∈ ks →
  strings r' =
    (if redisConnected w && negb (redisFails env (INCR redisKey))
     then <[redisKey := default 0 (strings (redis w) !! redisKey) + 1]> (strings (redis w))
     else strings (redis w)) →
  trace wEnd = trace w ++ [EvUpstream (id k) today (buildApiUrl params (key k)) true] →
  redisConnected wEnd = redisConnected w →
  pendingRequests wEnd = pendingRequests w →
  strings (redis wEnd) = strings r' →
  Progress env ks params w
    [EvUpstream (id k) today (buildApiUrl params (key k)) true] wEnd.
Proof.
  intros t today redisKey Hk Hstr Htr Hconn Hpend Hend.
  subst redisKey today t. split; auto.
  - constructor; [| constructor]. simpl. eauto.
  - intros [Hc Hincr] keyId day. rewrite successesOn_one.
    unfold usageCount. rewrite Hend, Hstr, Hc, Hincr. cbn [andb negb].
    destruct (String.eqb_spec (usageKeyOf (id k) (getTodayString (now w + ms)))
                (usageKeyOf keyId day)) as [<-|Hne].
    + rewrite lookup_insert_eq. simpl. lia.
    + rewrite lookup_insert_ne; [lia | done].
Qed.

Lemma callWithKey_Progress ks cacheKey apiKey w r w' :
  keyInfo apiKey ∈ ks →
  callWithKey env cfg params cacheKey apiKey w = (r, w') →
  ∃ e, Progress env ks params w [e] w' ∧ isPacing e = false ∧
       (∀ data, r = Ok data → isSuccess e = true).
Proof.
  intros Hk. unfold callWithKey, httpGet. unfold_monad.
  destruct (result (upstream env (calls w) _)) as [data|status data|message] eqn:Hres.
  - match goal with |- context [recordUsage env ?i ?w1] =>
      destruct (recordUsage_run env i w1) as (r' & -> & Hstr) end.
    simpl in Hstr.
    destruct (cacheEnabled cfg); unfold cacheSet; unfold_monad; simpl;
      [destruct (decide _) |]; intros [= <- <-];
      (eexists; split;
       [eapply (Progress_charged ks w _ (keyInfo apiKey) r'); [done | exact Hstr | done..]
       | split; [reflexivity | intros; reflexivity]]).
  - intros [= <- <-].
    match goal with |- context [emit ?e ?w1] =>
      exists e; split; [apply (Progress_trans _ _ _ _ [] w1 [e]) | split; [reflexivity | done]]
    end.
    + by apply Progress_silent.
    + apply Progress_event; [simpl; eauto | done].
  - intros [= <- <-].
    match goal with |- context [emit ?e ?w1] =>
      exists e; split; [apply (Progress_trans _ _ _ _ [] w1 [e]) | split; [reflexivity | done]]
    end.
    + by apply Progress_silent.
    + apply Progress_event; [simpl; eauto | done].
Qed.

Lemma recordError_Progress ks keyId w r w' :
  recordError env keyId w = (r, w') → Progress env ks params w [] w'.
Proof.
  destruct (recordError_run env keyId w) as (r' & v & -> & Hstr).
  intros [= <- <-]. split; auto.
  - simpl. by rewrite app_nil_r.
  - intros _ k day. unfold usageCount, successesOn. simpl. rewrite Hstr.
    destruct (_ && _); [| lia].
    rewrite lookup_insert_ne; [lia |]. intros H. symmetry in H.
    by apply usageKey_not_errorKey in H.
Qed.

Lemma tryKeys_Progress ks cacheKey availableKeys lastError w r w' :
  Forall (λ a, keyInfo a ∈ ks) availableKeys →
  tryKeys env cfg params cacheKey availableKeys lastError w = (r, w') →
  ∃ tr, Progress env ks params w tr w' ∧ pacing tr = [] ∧
        (∀ data, r = Ok (inl data) → ∃ tr' e, tr = tr' ++ [e] ∧ isSuccess e = true).
Proof.
  intros Hks. revert lastError w.
  induction Hks as [|apiKey rest Hk Hrest IH]; intros lastError w; simpl.
  - intros [= <- <-]. exists []. split; [apply Progress_refl | done].
  - unfold_monad.
    destruct (callWithKey env cfg params cacheKey apiKey w) as [[data|e] w1] eqn:Hcall;
      destruct (callWithKey_Progress ks cacheKey apiKey w _ _ Hk Hcall)
        as (ev & Hp & Hev & Hok).
    + intros [= <- <-]. exists [ev]. split; [done |]. split.
      * unfold pacing. simpl. by rewrite Hev.
      * intros ? _. exists [], ev. split; [done | eauto].
    + destruct (recordError env (id (keyInfo apiKey)) w1) as [[v|e'] w2] eqn:Herr;
        pose proof (recordError_Progress ks _ _ _ _ Herr) as Hp2.
      * intros Hrun. destruct (IH _ _ Hrun) as (tr & Hp3 & Htr & Hlast).
        exists ([ev] ++ [] ++ tr). split; [| split].
        -- eapply Progress_trans; [exact Hp |]. eapply Progress_trans; eauto.
        -- rewrite !pacing_app, Htr. unfold pacing. simpl. by rewrite Hev.
        -- intros data Hr. destruct (Hlast data Hr) as (tr' & e0 & -> & He0).
           exists (ev :: tr'), e0. done.
      * intros [= <- <-]. exists ([ev] ++ []). split; [| split; [| done]].
        -- eapply Progress_trans; eauto.
        -- unfold pacing. simpl. by rewrite Hev.
Qed.

Lemma selector_keys w l :
  fst (getAllAvailableKeys env cfg w) = Ok l →
  Forall (λ a, keyInfo a ∈ keys cfg) l.
Proof.
  intros Hl. apply Forall_forall. intros a Ha.
  apply (selector_elem_of _ _ _ _ a Hl) in Ha as (k & Hk & Ha).
  apply elem_of_probed in Ha as (-> & _). done.
Qed.

(** One attempt: a selection, then upstream calls only; it never throws,
    and it hands back a body only right after a 2xx answer. *)
Lemma attemptOnce_Progress cacheKey attempt lastError w r w' :
  attemptOnce env cfg params cacheKey attempt lastError w = (r, w') →
  ∃ tr v, r = Ok v ∧
          Progress env (keys cfg) params w (EvSelect attempt :: tr) w' ∧
          pacing tr = [] ∧
          (∀ data, v = inl data → ∃ tr' e, tr = tr' ++ [e] ∧ isSuccess e = true).
Proof.
  unfold attemptOnce. unfold_monad.
  set (w1 := emit (EvSelect attempt) w).
  assert (Progress env (keys cfg) params w [EvSelect attempt] w1) as Hp1
    by (apply Progress_event; done).
  pose proof (getAllAvailableKeys_world env cfg w1) as Hw.
  pose proof (selector_keys w1) as Hkeys.
  destruct (getAllAvailableKeys env cfg w1) as [[l|e] w2]; simpl in Hw; subst w2.
  - destruct (decide (length l = 0%nat)).
    + intros [= <- <-]. exists [], (inr (Error noKeysMessage)).
      repeat split; auto; try apply Hp1; intros ? [=].
    + destruct (tryKeys env cfg params cacheKey l lastError w1) as [[v|e] w3] eqn:Htry;
        destruct (tryKeys_Progress (keys cfg) _ _ _ _ _ _ (Hkeys l eq_refl) Htry)
          as (tr & Hp2 & Htr & Hlast);
        intros [= <- <-]; exists tr; eexists; (split; [reflexivity |]);
        (split; [apply (Progress_trans _ _ _ _ [_] w1 tr); done |]);
        (split; [done |]).
      * intros data ->. eauto.
      * intros data [=].
  - intros [= <- <-]. exists [], (inr e).
    repeat split; auto; try apply Hp1; intros ? [=].
Qed.

Lemma sleep_Progress ms w :
  Progress env (keys cfg) params w [EvSleep ms] (snd (sleep ms w)).
Proof.
  unfold sleep. simpl.
  apply (Progress_trans _ _ _ _ [] (setNow (now w + timerDelay ms) w) [EvSleep ms]).
  - by apply Progress_silent.
  - apply Progress_event; done.
Qed.

(** The retry loop with [n] iterations left, the next one being attempt
    [a]: it starts [m] attempts, paced by [schedule]. *)
Lemma retryLoop_Progress cacheKey n a lastError w r w' :
  (n = 0%nat ∨ a + Z.of_nat n = retryCount cfg + 1) →
  retryLoop env cfg params cacheKey n a lastError w = (r, w') →
  ∃ tr m, Progress env (keys cfg) params w tr w' ∧ (m ≤ n)%nat ∧
          pacing tr = schedule (retryDelay cfg) a m ∧
          (∀ e, r = Throw e → m = n) ∧ (∀ v, r = Ok v → (1 ≤ m)%nat).
Proof.
  revert a lastError w. induction n as [|n IH]; intros a lastError w Hn; simpl.
  - intros [= <- <-]. exists [], 0%nat.
    split; [apply Progress_refl |]. repeat split; [lia | done..].
  - destruct Hn as [Hn|Hn]; [done |]. unfold_monad.
    destruct (attemptOnce env cfg params cacheKey a lastError w) as [r1 w1] eqn:Hatt.
    destruct (attemptOnce_Progress _ _ _ _ _ _ Hatt) as (tr1 & v & -> & Hp1 & Htr1 & _).
    destruct v as [data|lastError'].
    + intros [= <- <-]. exists (EvSelect a :: tr1), 1%nat.
      split; [done |]. split; [lia |]. split.
      * unfold pacing in *. simpl. by rewrite Htr1.
      * split; [done | lia].
    + destruct (decide (a < retryCount cfg)) as [Hlt|Hge].
      * pose proof (sleep_Progress (retryDelay cfg * a) w1) as Hp2.
        unfold sleep in *. simpl in Hp2 |- *.
        intros Hrun.
        destruct (IH (a + 1) _ _ ltac:(right; lia) Hrun) as (tr3 & m & Hp3 & Hm & Htr3 & Hthrow & Hok).
        exists ((EvSelect a :: tr1) ++ [EvSleep (retryDelay cfg * a)] ++ tr3), (S m).
        split; [eapply Progress_trans; [exact Hp1 |]; eapply Progress_trans; eauto |].
        split; [lia |].
        assert (1 ≤ m)%nat as Hm1.
        { destruct r as [v|e]; [eauto |]. rewrite (Hthrow e eq_refl). lia. }
        split; [| split; [intros e ->; by rewrite (Hthrow e eq_refl) | intros; lia]].
        rewrite !pacing_app, Htr3. unfold pacing in *. simpl. rewrite Htr1.
        destruct m; [lia | done].
      * intros Hrun.
        destruct (IH (a + 1) _ _ ltac:(left; lia) Hrun) as (tr3 & m & Hp3 & Hm & Htr3 & Hthrow & Hok).
        assert (n = 0%nat) as -> by lia. assert (m = 0%nat) as -> by lia.
        exists ((EvSelect a :: tr1) ++ tr3), 1%nat.
        split; [eapply Progress_trans; eauto |].
        split; [lia |]. split.
        -- rewrite pacing_app, Htr3. unfold pacing in *. simpl. by rewrite Htr1.
        -- split; [done | lia].
Qed.

Lemma fetchWeatherFromAPI_Progress cacheKey w r w' :
  fetchWeatherFromAPI env cfg params cacheKey w = (r, w') →
  ∃ tr m, Progress env (keys cfg) params w tr w' ∧
          (m ≤ Z.to_nat (retryCount cfg))%nat ∧
          pacing tr = schedule (retryDelay cfg) 1 m ∧
          (∀ e, r = Throw e → m = Z.to_nat (retryCount cfg)) ∧
          (∀ v, r = Ok v → (1 ≤ m)%nat).
Proof. apply retryLoop_Progress. lia. Qed.
End FetchFacts.

(** ** Retry backoff (C7) *)

Lemma schedule_head delay a n : schedule delay a (S n) = EvSelect a :: tail (schedule delay a (S n)).
Proof. by destruct n. Qed.

Lemma schedule_backoff delay a0 m a :
  a0 <= a → a + 1 < a0 + Z.of_nat m →
  ∃ pre post,
    schedule delay a0 m =
      pre ++ [EvSelect a; EvSleep (delay * a); EvSelect (a + 1)] ++ post.
Proof.
  revert a0. induction m as [|m IH]; intros a0 Hle Hlt; [lia |].
  destruct m as [|m]; [lia |].
  change (schedule delay a0 (S (S m)))
    with (EvSelect a0 :: EvSleep (delay * a0) :: schedule delay (a0 + 1) (S m)).
  destruct (decide (a = a0)) as [->|Hne].
  - exists [], (tail (schedule delay (a0 + 1) (S m))).
    by rewrite (schedule_head delay (a0 + 1) m) at 1.
  - destruct (IH (a0 + 1)) as (pre & post & ->); [lia | lia |].
    by exists (EvSelect a0 :: EvSleep (delay * a0) :: pre), post.
Qed.

(** *** The clock *)

Lemma timerDelay_range ms : 1 <= timerDelay ms <= 2147483647.
Proof. unfold timerDelay. destruct (decide _); lia. Qed.

Lemma slept_app tr1 tr2 : slept (tr1 ++ tr2) = slept tr1 + slept tr2.
Proof. induction tr1 as [|[] tr1 IH]; simpl; lia. Qed.

Lemma slept_pacing tr : slept tr = slept (pacing tr).
Proof. unfold pacing. induction tr as [|[] tr IH]; simpl; lia. Qed.

Section ClockFacts.
Variable env : Env.
Variable cfg : Config.
Variable params : Params.
Hypothesis Hanswers : answersTakeTime env.

Lemma callWithKey_now cacheKey apiKey w r w' :
  callWithKey env cfg params cacheKey apiKey w = (r, w') → now w <= now w'.
Proof.
  unfold callWithKey, httpGet. unfold_monad.
  pose proof (Hanswers (calls w) (buildApiUrl params (key (keyInfo apiKey)))) as Hnn.
  destruct (result (upstream env (calls w) _)) as [data|status data|message] eqn:Hres.
  - match goal with |- context [recordUsage env ?i ?w1] =>
      destruct (recordUsage_run env i w1) as (r' & -> & Hstr) end.
    destruct (cacheEnabled cfg); unfold cacheSet; unfold_monad; simpl;
      [destruct (decide _) |]; intros [= <- <-]; simpl; lia.
  - intros [= <- <-]. simpl. lia.
  - intros [= <- <-]. simpl. lia.
Qed.

Lemma tryKeys_now cacheKey availableKeys lastError w r w' :
  tryKeys env cfg params cacheKey availableKeys lastError w = (r, w') → now w <= now w'.
Proof.
  revert lastError w. induction availableKeys as [|apiKey rest IH]; intros lastError w; simpl.
  - intros [= <- <-]. lia.
  - unfold_monad.
    destruct (callWithKey env cfg params cacheKey apiKey w) as [[data|e] w1] eqn:Hcall;
      pose proof (callWithKey_now _ _ _ _ _ Hcall) as Hnow.
    + by intros [= <- <-].
    + destruct (recordError_run env (id (keyInfo apiKey)) w1) as (r' & v & -> & Hstr).
      intros Hrun. apply IH in Hrun. simpl in Hrun. lia.
Qed.

Lemma attemptOnce_now cacheKey a lastError w r w' :
  attemptOnce env cfg params cacheKey a lastError w = (r, w') → now w <= now w'.
Proof.
  unfold attemptOnce. unfold_monad.
  pose proof (getAllAvailableKeys_world env cfg (emit (EvSelect a) w)) as Hw.
  destruct (getAllAvailableKeys env cfg (emit (EvSelect a) w)) as [[l|e] w1];
    simpl in Hw; subst w1.
  - destruct (decide (length l = 0%nat)); [by intros [= <- <-] |].
    destruct (tryKeys env cfg params cacheKey l lastError (emit (EvSelect a) w))
      as [[v|e] w2] eqn:Htry; apply tryKeys_now in Htry; by intros [= <- <-].
  - by intros [= <- <-].
Qed.

(** A run of the loop lasts at least as long as its timers. *)
Lemma retryLoop_clock cacheKey n a lastError w r w' :
  retryLoop env cfg params cacheKey n a lastError w = (r, w') →
  now w - slept (trace w) <= now w' - slept (trace w').
Proof.
  revert a lastError w. induction n as [|n IH]; intros a lastError w; simpl.
  - intros [= <- <-]. lia.
  - unfold_monad.
    destruct (attemptOnce env cfg params cacheKey a lastError w) as [r1 w1] eqn:Hatt.
    pose proof (attemptOnce_now _ _ _ _ _ _ Hatt) as Hnow.
    destruct (attemptOnce_Progress _ _ _ _ _ _ _ _ _ Hatt) as (tr1 & v & -> & Hp1 & Htr1 & _).
    assert (slept (trace w1) = slept (trace w)) as Hslept.
    { rewrite (progress_trace _ _ _ _ _ _ Hp1), slept_app. simpl.
      rewrite (slept_pacing tr1), Htr1. simpl. lia. }
    destruct v as [data|lastError'].
    + intros [= <- <-]. lia.
    + destruct (decide (a < retryCount cfg)); unfold sleep; simpl;
        intros Hrun; apply IH in Hrun; simpl in Hrun;
        rewrite ?slept_app in Hrun; simpl in Hrun; lia.
Qed.
End ClockFacts.



(** Three attempts with two credentials each, every request answered 500
    after 5 ms. *)
Example backoff_example :
  let run := fetchWeatherFromAPI (failingEnv 500) sampleConfig sampleParams "k" (sampleWorld ∅) in
  pacing (trace run.2) = [EvSelect 1; EvSleep 1000; EvSelect 2; EvSleep 2000; EvSelect 3] ∧
  now run.2 - now (sampleWorld ∅) = 6 * 5 + 1000 + 2000.
Proof. vm_compute. split; reflexivity. Qed.

(** With a delay beyond the range of a timer, each backoff lasts 1 ms. *)
Example long_backoff_example :
  let run := fetchWeatherFromAPI (failingEnv 500) longBackoffConfig sampleParams "k"
               (sampleWorld ∅) in
  pacing (trace run.2) = [EvSelect 1; EvSleep 3000000000; EvSelect 2] ∧
  now run.2 - now (sampleWorld ∅) = 4 * 5 + 1.
Proof. vm_compute. split; reflexivity. Qed.

(** ** getWeatherData as a whole *)

Section ServiceFacts.
Variable env : Env.
Variable cfg : Config.

Lemma cacheGet_silent params cacheKey w r w' :
  cacheGet cacheKey w = (r, w') → Progress env (keys cfg) params w [] w'.
Proof.
  unfold cacheGet. destruct (cache w !! cacheKey) as [[v t]|]; [destruct (decide _) |];
    intros [= <- <-]; by apply Progress_silent.
Qed.

(** The cache lookup of [getWeatherData] changes nothing but the cache. *)
Lemma lookup_silent params cacheKey w r w' :
  (if cacheEnabled cfg then cacheGet cacheKey else mret None) w = (r, w') →
  Progress env (keys cfg) params w [] w' ∧ stats w' = stats w ∧ now w' = now w ∧
  calls w' = calls w.
Proof.
  destruct (cacheEnabled cfg).
  - unfold cacheGet. destruct (cache w !! cacheKey) as [[v t]|]; [destruct (decide _) |];
      intros [= <- <-]; (split; [by apply Progress_silent | done]).
  - intros [= <- <-]. split; [apply Progress_refl | done].
Qed.

Lemma getWeatherData_Progress params w r w' :
  getWeatherData env cfg params w = (r, w') →
  ∃ tr, Progress env (keys cfg) params w tr w'.
Proof.
  unfold getWeatherData, ensureInitialized, settle, awaitPromise, tryFinally,
    updateResponseTime.
  unfold_monad.
  set (w0 := setStats (bumpTotalRequests (stats w)) w).
  assert (Progress env (keys cfg) params w [] w0) as Hp0 by (by apply Progress_silent).
  destruct (initialized cfg).
  2:{ simpl. intros [= <- <-]. exists []. by apply Progress_silent. }
  destruct ((if cacheEnabled cfg then cacheGet (generateCacheKey params)
             else (λ w2 : World, (Ok None, w2))) w0)
    as [[cachedData|e] w1] eqn:Hget;
    destruct (lookup_silent params _ _ _ _ Hget) as (Hp1 & _).
  2:{ simpl. intros [= <- <-]. exists ([] ++ [] ++ []).
      eapply Progress_trans; [exact Hp0 |]. eapply Progress_trans; [exact Hp1 |].
      by apply Progress_silent. }
  destruct (cacheHit cachedData) as [data|].
  { simpl. intros [= <- <-]. exists ([] ++ [] ++ []).
    eapply Progress_trans; [exact Hp0 |]. eapply Progress_trans; [exact Hp1 |].
    by apply Progress_silent. }
  destruct (pendingRequests w1 !! generateCacheKey params) as [[v|e]|] eqn:Hpend.
  - simpl. intros [= <- <-]. exists ([] ++ []).
    eapply Progress_trans; [exact Hp0 |]. exact Hp1.
  - simpl. intros [= <- <-]. exists ([] ++ [] ++ []).
    eapply Progress_trans; [exact Hp0 |]. eapply Progress_trans; [exact Hp1 |].
    by apply Progress_silent.
  - destruct (fetchWeatherFromAPI env cfg params (generateCacheKey params) w1)
      as [rf w2] eqn:Hfetch.
    destruct (fetchWeatherFromAPI_Progress _ _ _ _ _ _ _ Hfetch) as (tr & m & Hp2 & _).
    assert (pendingRequests w2 !! generateCacheKey params = None) as Hnone
      by (by rewrite (progress_pending _ _ _ _ _ _ Hp2)).
    intros Hrun. exists ([] ++ [] ++ tr ++ []).
    eapply Progress_trans; [exact Hp0 |]. eapply Progress_trans; [exact Hp1 |].
    eapply Progress_trans; [exact Hp2 |]. revert Hrun.
    destruct rf as [v|e]; simpl; intros [= <- <-];
      (apply Progress_silent; simpl; [done | done | | done]);
      by rewrite delete_insert_id.
Qed.
End ServiceFacts.

(** ** Usage is recorded with every 2xx answer (C2) *)

(** C2, as stated, fails: on a Redis that rejects writes the upstream call
    succeeds and its body is returned, while the usage counter of the
    credential stays where it was ([recordUsage] logs and returns). *)
Lemma usage_recorded_counterexample :
  ¬ (∀ env cfg params w r w',
       getWeatherData env cfg params w = (r, w') →
       ∃ tr, trace w' = trace w ++ tr ∧
             ∀ keyId day,
               usageCount w' keyId day =
                 usageCount w keyId day + successesOn (usageKeyOf keyId day) tr).
Proof.
  intros H.
  pose (run := getWeatherData (readOnlyEnv (JObj "{}")) sampleConfig sampleParams
                (sampleWorld ∅)).
  destruct (H (readOnlyEnv (JObj "{}")) sampleConfig sampleParams (sampleWorld ∅)
              (fst run) (snd run)) as (tr & Htr & Hu).
  { vm_compute. reflexivity. }
  specialize (Hu "key_1" "2024-01-15").
  simpl app in Htr. rewrite <- Htr in Hu. vm_compute in Hu. discriminate Hu.
Qed.

Example usage_not_recorded_example :
  let run := getWeatherData (readOnlyEnv (JObj "{}")) sampleConfig sampleParams (sampleWorld ∅) in
  fst run = Ok (JObj "{}") ∧ calls (snd run) = 1%nat ∧
  usageCount (snd run) "key_1" "2024-01-15" = 0.
Proof. vm_compute. auto. Qed.

(** C2 (amended): while the ledger takes writes (the Redis client is
    connected and INCR is served), every upstream call answered 2xx during
    a [getWeatherData] call adds exactly one to the usage counter of the
    credential used, under the day key current when the answer arrives, and
    nothing else changes a usage counter; the counters are in that state
    when [getWeatherData] returns. *)
Theorem usage_recorded_once env cfg params w r w' :
  ledgerWritable env w →
  getWeatherData env cfg params w = (r, w') →
  ∃ tr, trace w' = trace w ++ tr ∧
        ∀ keyId day,
          usageCount w' keyId day =
            usageCount w keyId day + successesOn (usageKeyOf keyId day) tr.
Proof.
  intros Hw Hrun.
  destruct (getWeatherData_Progress _ _ _ _ _ _ Hrun) as (tr & Hp).
  exists tr. split; [apply Hp |]. by apply (progress_usage _ _ _ _ _ _ Hp).
Qed.

Lemma usage_recorded_once_witness :
  let env := healthyEnv (JObj "{}") in
  let w := sampleWorld {[ "usage:key_1:2024-01-15" := 41 ]} in
  let run := getWeatherData env sampleConfig sampleParams w in
  ∃ tr, trace (snd run) = [] ++ tr ∧
        ∀ keyId day,
          usageCount (snd run) keyId day =
            usageCount w keyId day + successesOn (usageKeyOf keyId day) tr.
Proof.
  intros env w run.
  apply (usage_recorded_once env sampleConfig sampleParams w (fst run)).
  - split; [reflexivity | intros k; reflexivity].
  - vm_compute. reflexivity.
Defined.

Example usage_recorded_example :
  let run := getWeatherData (healthyEnv (JObj "{}")) sampleConfig sampleParams
               (sampleWorld {[ "usage:key_1:2024-01-15" := 41 ]}) in
  fst run = Ok (JObj "{}") ∧ usageCount (snd run) "key_1" "2024-01-15" = 42.
Proof. vm_compute. auto. Qed.

(** ** A cache hit touches nothing but telemetry (C9) *)

(** C9, as stated, fails: a live cache entry whose body is falsy (here the
    empty string of a 200 answer without content, stored by a first call)
    does not pass [if (cachedData)]; the second call goes upstream again and
    charges the ledger a second time. *)
Lemma cache_hit_counterexample :
  ¬ (∀ env cfg params w data expiry,
       initialized cfg = true → cacheEnabled cfg = true →
       cache w !! generateCacheKey params = Some (data, expiry) →
       ¬ (expiry ≠ 0 ∧ expiry < now w) →
       let run := getWeatherData env cfg params w in
       fst run = Ok data ∧ redis (snd run) = redis w ∧ calls (snd run) = calls w ∧
       pendingRequests (snd run) = pendingRequests w).
Proof.
  intros H.
  destruct (H (healthyEnv (JStr "")) sampleConfig sampleParams afterEmptyBody
              (JStr "") 1705336500005) as (_ & _ & Hcalls & _).
  - reflexivity.
  - reflexivity.
  - vm_compute. reflexivity.
  - vm_compute. intros [_ Hlt]. discriminate Hlt.
  - vm_compute in Hcalls. discriminate Hcalls.
Qed.

Example cache_miss_on_empty_body :
  let run := getWeatherData (healthyEnv (JStr "")) sampleConfig sampleParams afterEmptyBody in
  calls afterEmptyBody = 1%nat ∧ calls (snd run) = 2%nat ∧
  usageCount afterEmptyBody "key_1" "2024-01-15" = 1 ∧
  usageCount (snd run) "key_1" "2024-01-15" = 2.
Proof. vm_compute. auto. Qed.

(** C9 (amended): when the cache is enabled and holds a non-expired entry
    with a truthy body for the fingerprint, [getWeatherData] returns that
    body and the world it leaves differs from the one it found in
    [this.stats] only: Redis (every usage and error counter), the upstream
    call count, the event trace, [pendingRequests] and the cache are the
    same, and within the statistics only [totalRequests], [cacheHits] and
    the response-time fields move. *)
Theorem cache_hit_frame env cfg params w data expiry :
  initialized cfg = true → cacheEnabled cfg = true →
  cache w !! generateCacheKey params = Some (data, expiry) →
  ¬ (expiry ≠ 0 ∧ expiry < now w) →
  truthy data = true →
  ∃ s', getWeatherData env cfg params w = (Ok data, setStats s' w) ∧
        totalRequests s' = totalRequests (stats w) + 1 ∧
        cacheHits s' = cacheHits (stats w) + 1 ∧
        cacheWrites s' = cacheWrites (stats w) ∧
        apiCalls s' = apiCalls (stats w) ∧
        errors s' = errors (stats w).
Proof.
  intros Hinit Henabled Hentry Hlive Htruthy.
  unfold getWeatherData, ensureInitialized, cacheGet, cacheHit, updateResponseTime.
  unfold_monad. rewrite Hinit, Henabled. simpl. rewrite Hentry.
  destruct (decide (expiry ≠ 0 ∧ expiry < now w)); [done |].
  rewrite Htruthy. simpl. eexists. split; [reflexivity |]. simpl. done.
Qed.

Lemma cache_hit_frame_witness :
  let w := cachedWorld (JObj "{}") in
  ∃ s', getWeatherData (healthyEnv JNull) sampleConfig sampleParams w
          = (Ok (JObj "{}"), setStats s' w) ∧
        totalRequests s' = totalRequests (stats w) + 1 ∧
        cacheHits s' = cacheHits (stats w) + 1 ∧
        cacheWrites s' = cacheWrites (stats w) ∧
        apiCalls s' = apiCalls (stats w) ∧
        errors s' = errors (stats w).
Proof.
  intros w.
  apply (cache_hit_frame (healthyEnv JNull) sampleConfig sampleParams w (JObj "{}")
           1705336500000).
  - reflexivity.
  - reflexivity.
  - vm_compute. reflexivity.
  - vm_compute. intros [_ Hlt]. discriminate Hlt.
  - reflexivity.
Defined.

(** ** No credential available: 429 (C6) *)

Section QuotaFacts.
Variable env : Env.
Variable cfg : Config.

(** The selector looks at the clock, the connection flag and Redis. *)
Lemma selector_same w1 w2 :
  now w1 = now w2 → redisConnected w1 = redisConnected w2 → redis w1 = redis w2 →
  fst (getAllAvailableKeys env cfg w1) = fst (getAllAvailableKeys env cfg w2).
Proof.
  intros Hn Hc Hr. rewrite !getAllAvailableKeys_run, Hc, Hn.
  unfold probed, usageCount, errorCount. rewrite Hr. by destruct (redisConnected w2).
Qed.

Lemma retryLoop_noKeys params cacheKey w n a lastError w1 :
  unspent w w1 →
  Forall (noneAvailableAt env cfg w) (attemptTimes cfg n a (now w1)) →
  ∃ w2, retryLoop env cfg params cacheKey n a lastError w1 =
          (Throw (match n with O => lastError | S _ => Error noKeysMessage end), w2) ∧
        unspent w w2.
Proof.
  revert a lastError w1. induction n as [|n IH]; intros a lastError w1 Hw Htimes; simpl.
  - by exists w1.
  - apply Forall_cons in Htimes as [Hnow Hlater].
    unfold attemptOnce, sleep. unfold_monad.
    assert (fst (getAllAvailableKeys env cfg (emit (EvSelect a) w1)) = Ok []) as Hsel.
    { rewrite <- Hnow. destruct Hw as (Hc & Hr & _). by apply selector_same. }
    pose proof (getAllAvailableKeys_world env cfg (emit (EvSelect a) w1)) as Hsame.
    destruct (getAllAvailableKeys env cfg (emit (EvSelect a) w1)) as [r0 w0].
    simpl in Hsel, Hsame. subst r0 w0. simpl.
    destruct (decide (a < retryCount cfg)); simpl.
    + edestruct (IH (a + 1) (Error noKeysMessage)) as (w2 & -> & Hw2);
        [| exact Hlater |].
      * destruct Hw as (? & ? & ? & ? & ?). by repeat split.
      * exists w2. split; [| done]. by destruct n.
    + edestruct (IH (a + 1) (Error noKeysMessage)) as (w2 & -> & Hw2);
        [| exact Hlater |].
      * destruct Hw as (? & ? & ? & ? & ?). by repeat split.
      * exists w2. split; [| done]. by destruct n.
Qed.

Lemma getWeatherData_noKeys params w :
  initialized cfg = true →
  cache w !! generateCacheKey params = None →
  pendingRequests w !! generateCacheKey params = None →
  1 <= retryCount cfg →
  Forall (noneAvailableAt env cfg w)
         (attemptTimes cfg (Z.to_nat (retryCount cfg)) 1 (now w)) →
  ∃ w', getWeatherData env cfg params w = (Throw (Error noKeysMessage), w').
Proof.
  intros Hinit Hcache Hpend Hcount Htimes.
  unfold getWeatherData, ensureInitialized, cacheGet, settle, awaitPromise, tryFinally,
    updateResponseTime, fetchWeatherFromAPI.
  unfold_monad. rewrite Hinit. simpl.
  set (w0 := setStats (bumpTotalRequests (stats w)) w).
  edestruct (retryLoop_noKeys params (generateCacheKey params) w
               (Z.to_nat (retryCount cfg)) 1 ThrownNull w0) as (w2 & Hloop & _).
  { by repeat split. }
  { exact Htimes. }
  assert (Z.to_nat (retryCount cfg) ≠ 0%nat) as Hn by lia.
  destruct (cacheEnabled cfg); simpl; rewrite ?Hcache; simpl; rewrite Hpend, Hloop;
    destruct (Z.to_nat (retryCount cfg)); try done; simpl; eauto.
Qed.
End QuotaFacts.

Lemma noKeysMessage_is_quota : Js.includes "限制" noKeysMessage = true.
Proof. vm_compute. reflexivity. Qed.

(** The error reply of the handler has five fields, none of which names a
    time to retry. *)
Lemma failure_reply_no_hint status message rid w responseTime :
  ¬ carriesRetryHint
      {| statusCode := status; headers := [];
         payload := SendJson (failure message rid w ++ [("responseTime", JNum responseTime)]) |}.
Proof.
  intros [(name & v & Hname & Hin)|(name & v & fields & Hp & Hname & Hin)].
  - simpl in Hin. by apply elem_of_nil in Hin.
  - injection Hp as <-. unfold hintNames in Hname. unfold failure in Hin. simpl in Hin.
    rewrite !elem_of_cons, elem_of_nil in Hin.
    rewrite !elem_of_cons, elem_of_nil in Hname.
    destruct Hin as [[= -> _]|[[= -> _]|[[= -> _]|[[= -> _]|[[= -> _]|[]]]]]];
      destruct Hname as [?|[?|[?|[?|[?|[?|[]]]]]]]; discriminate.
Qed.

(** C6 (amended): when the request is authorised, misses the cache, finds
    no pending request for its fingerprint and every attempt finds the
    selector empty, the reply has status 429, no header, and the JSON body
    [{success: false, error, timestamp, requestId, responseTime}] whose
    [error] is the selector's message; it carries no retry-after hint. *)
Theorem no_credentials_429 env cfg request w :
  present (appIdKey cfg) = true →
  query request !! "appid" = appIdKey cfg →
  initialized cfg = true →
  cache w !! generateCacheKey (weatherParamsOf (query request)) = None →
  pendingRequests w !! generateCacheKey (weatherParamsOf (query request)) = None →
  1 <= retryCount cfg →
  Forall (noneAvailableAt env cfg w)
         (attemptTimes cfg (Z.to_nat (retryCount cfg)) 1 (now w)) →
  ∃ reply w',
    onecall env cfg request w = (Ok reply, w') ∧
    reply = {| statusCode := 429; headers := [];
               payload := SendJson
                 [ ("success", JBool false); ("error", JStr noKeysMessage);
                   ("timestamp", timestamp w'); ("requestId", JStr (requestId request));
                   ("responseTime", JNum (now w' - now w)) ] |} ∧
    ¬ carriesRetryHint reply.
Proof.
  intros Hpresent Hauth Hinit Hcache Hpend Hcount Htimes.
  set (w0 := setLogs (logs (setLogs (logs w ++ [LogReceived (query request)]) w)
                        ++ [LogHandling])
               (setLogs (logs w ++ [LogReceived (query request)]) w)).
  destruct (getWeatherData_noKeys env cfg (weatherParamsOf (query request)) w0)
    as (w1 & Hrun); try done.
  { eapply Forall_impl; [exact Htimes |]. intros t Ht.
    unfold noneAvailableAt in *. rewrite <- Ht. by apply selector_same. }
  eexists _, (setLogs (logs w1 ++ [LogFailed noKeysMessage (now w1 - now w) (query request)])
                w1).
  split; [| split; [reflexivity |]].
  - unfold onecall, onecallHandler, writeLog, onecallCatch. unfold_monad.
    rewrite Hpresent. cbn [negb].
    destruct (decide (query request !! "appid" ≠ appIdKey cfg)); [done |].
    cbn beta iota. fold w0. rewrite Hrun, noKeysMessage_is_quota. reflexivity.
  - match goal with
    | |- context [timestamp ?x] =>
        apply (failure_reply_no_hint 429 noKeysMessage (requestId request) x)
    end.
Qed.

Ltac eval_attemptTimes :=
  match goal with
  | |- Forall _ ?l => let l' := eval vm_compute in l in change l with l'
  end.

Lemma no_credentials_429_witness :
  ∃ reply w',
    onecall (healthyEnv JNull) sampleConfig sampleRequest exhaustedWorld = (Ok reply, w') ∧
    reply = {| statusCode := 429; headers := [];
               payload := SendJson
                 [ ("success", JBool false); ("error", JStr noKeysMessage);
                   ("timestamp", timestamp w'); ("requestId", JStr "req-1");
                   ("responseTime", JNum (now w' - now exhaustedWorld)) ] |} ∧
    ¬ carriesRetryHint reply.
Proof.
  apply (no_credentials_429 (healthyEnv JNull) sampleConfig sampleRequest exhaustedWorld).
  - reflexivity.
  - vm_compute. reflexivity.
  - reflexivity.
  - vm_compute. reflexivity.
  - vm_compute. reflexivity.
  - vm_compute. discriminate.
  - eval_attemptTimes. repeat (constructor; [vm_compute; reflexivity |]). constructor.
Defined.

(** C6, as stated, fails in its second half: the 429 reply carries neither
    a header nor a field that names a time to retry. *)
Lemma no_credentials_hint_counterexample :
  ¬ (∀ env cfg request w,
       present (appIdKey cfg) = true →
       query request !! "appid" = appIdKey cfg →
       initialized cfg = true →
       cache w !! generateCacheKey (weatherParamsOf (query request)) = None →
       pendingRequests w !! generateCacheKey (weatherParamsOf (query request)) = None →
       1 <= retryCount cfg →
       Forall (noneAvailableAt env cfg w)
              (attemptTimes cfg (Z.to_nat (retryCount cfg)) 1 (now w)) →
       ∃ reply w', onecall env cfg request w = (Ok reply, w') ∧
                   statusCode reply = 429 ∧ carriesRetryHint reply).
Proof.
  intros H.
  destruct (H (healthyEnv JNull) sampleConfig sampleRequest exhaustedWorld)
    as (reply & w' & Hrun & _ & Hhint).
  - reflexivity.
  - vm_compute. reflexivity.
  - reflexivity.
  - vm_compute. reflexivity.
  - vm_compute. reflexivity.
  - vm_compute. discriminate.
  - eval_attemptTimes. repeat (constructor; [vm_compute; reflexivity |]). constructor.
  - vm_compute in Hrun. injection Hrun as <- _.
    revert Hhint.
    apply (failure_reply_no_hint 429 noKeysMessage "req-1"
             (setNow 1705336203000 exhaustedWorld) 3000).
Qed.

Example no_credentials_example :
  fst (onecall (healthyEnv JNull) sampleConfig sampleRequest exhaustedWorld) =
    Ok {| statusCode := 429; headers := [];
          payload := SendJson
            [ ("success", JBool false); ("error", JStr noKeysMessage);
              ("timestamp", JStr "2024-01-15T16:30:03.000Z"); ("requestId", JStr "req-1");
              ("responseTime", JNum 3000) ] |}.
Proof. vm_compute. reflexivity. Qed.

(** ** The day key (C5) *)

Example today_example : getTodayString 1705336200000 = "2024-01-15".
Proof. vm_compute. reflexivity. Qed.

Example iso_example : JsDate.toISOString 1705336200123 = "2024-01-15T16:30:00.123Z".
Proof. vm_compute. reflexivity. Qed.

Example leap_day_example : getTodayString 951782400000 = "2000-02-29".
Proof. vm_compute. reflexivity. Qed.

Example before_epoch_example : getTodayString (-1) = "1969-12-31".
Proof. vm_compute. reflexivity. Qed.

(** C5: [getTodayString] prints the UTC date, not the date on the server's
    clock: at every instant it is the local date of a server in UTC,
    whatever the zone of this server.  On a server eight hours east of UTC,
    at 2024-01-15T16:30:00Z (00:30 on 16 January, local time): the day key
    is still 2024-01-15 while the local date is 2024-01-16; the key did not
    change at local midnight (15:59:59.999Z to 16:00:00.000Z) and changes at
    UTC midnight, eight hours into the local day; [getNextResetTime] of the
    same class announces the reset for the next local midnight. *)
Theorem dayKey_is_utc_date :
  let tz := 480 in
  let t := 1705336200000 in
  let localMidnight := 1705334400000 in
  let utcMidnight := 1705363200000 in
  (∀ instant, getTodayString instant = JsDate.localDateString 0 instant) ∧
  getTodayString t = "2024-01-15" ∧
  JsDate.localDateString tz t = "2024-01-16" ∧
  JsDate.localDateString tz (localMidnight - 1) = "2024-01-15" ∧
  JsDate.localDateString tz localMidnight = "2024-01-16" ∧
  getTodayString (localMidnight - 1) = getTodayString localMidnight ∧
  getTodayString (utcMidnight - 1) = "2024-01-15" ∧
  getTodayString utcMidnight = "2024-01-16" ∧
  JsDate.localDateString tz (utcMidnight - 1) = JsDate.localDateString tz utcMidnight ∧
  getNextResetTime tz t = "2024-01-16T16:00:00.000Z".
Proof.
  split.
  - intros instant. rewrite getTodayString_utc.
    unfold JsDate.localDateString, JsDate.LocalTime. by rewrite Z.add_0_r.
  - vm_compute. repeat split; reflexivity.
Qed.

(** In general the day key is the ISO date of the UTC day number, whatever
    the server's zone, and is constant on each UTC day. *)
Lemma dayKey_constant_on_utc_day (t1 t2 : Z) :
  t1 `div` 86400000 = t2 `div` 86400000 → getTodayString t1 = getTodayString t2.
Proof. apply getTodayString_same_day. Qed.

(** ** The client's appid stops at the handler (C10) *)

Lemma weatherParamsOf_insert (q : Params) (a : string) :
  weatherParamsOf (<["appid" := a]> q) = weatherParamsOf q.
Proof. unfold weatherParamsOf. apply delete_insert_eq. Qed.

Lemma urlParams_appid (params : Params) (apiKey : string) :
  filter (λ p, p.1 = "appid") (urlParams params apiKey) = [("appid", apiKey)].
Proof.
  unfold urlParams.
  destruct (present (params !! "exclude")), (present (params !! "units")),
    (present (params !! "lang")); reflexivity.
Qed.

(** Besides [appid], the entries of an upstream URL are [lat], [lon] and
    those of [exclude], [units] and [lang] that are set, each with the
    value of the parameter object. *)
Lemma urlParams_others (params : Params) (apiKey name value : string) :
  (name, value) ∈ urlParams params apiKey → name ≠ "appid" →
  name ∈ fingerprintParams ∧ value = template (params !! name).
Proof.
  unfold urlParams, fingerprintParams.
  destruct (present (params !! "exclude")), (present (params !! "units")),
    (present (params !! "lang")); simpl; intros Hin Hne;
    repeat (apply elem_of_cons in Hin as [[= -> ->]|Hin];
            [first [done | split; [rewrite !elem_of_cons; tauto | done]] |]);
    by apply elem_of_nil in Hin.
Qed.

(** *** The query text of an upstream URL reads back as its entries *)

Lemma decode_encode_char (c : ascii) :
  UrlParse.hexValue (Url.hexDigit (nat_of_ascii c / 16)) = Some (nat_of_ascii c / 16)%nat ∧
  UrlParse.hexValue (Url.hexDigit (nat_of_ascii c mod 16)) = Some (nat_of_ascii c mod 16)%nat.
Proof. destruct c as [[] [] [] [] [] [] [] []]; vm_compute; done. Qed.

Lemma unreserved_plain (c : ascii) :
  Url.unreserved c = true →
  c ≠ "+"%char ∧ c ≠ "%"%char ∧ c ≠ "&"%char ∧ c ≠ "="%char.
Proof.
  destruct c as [[] [] [] [] [] [] [] []]; vm_compute; intros H; try discriminate H;
    repeat split; discriminate.
Qed.

Lemma hexDigit_plain (n : nat) :
  (n < 16)%nat → Url.hexDigit n ≠ "&"%char ∧ Url.hexDigit n ≠ "="%char.
Proof.
  intros H. do 16 (destruct n as [|n]; [vm_compute; split; discriminate |]). lia.
Qed.

Lemma decode_encode (s : string) : UrlParse.decode (Url.encode s) = s.
Proof.
  induction s as [|c s IH]; [done |].
  cbn [Url.encode].
  destruct (Url.unreserved c) eqn:Hu.
  - destruct (unreserved_plain c Hu) as (Hp & Hq & _).
    cbn [UrlParse.decode]. rewrite !decide_False by done. by rewrite IH.
  - destruct (decide (c = " "%char)) as [->|Hs].
    + cbn [UrlParse.decode]. rewrite decide_True by done. by rewrite IH.
    + destruct (decode_encode_char c) as [Hh Hl].
      cbn [UrlParse.decode]. rewrite decide_False by discriminate.
      rewrite decide_True by done. rewrite Hh, Hl, IH. f_equal.
      rewrite <- (ascii_nat_embedding c) at 3. f_equal.
      pose proof (Nat.div_mod_eq (nat_of_ascii c) 16). lia.
Qed.

Lemma encode_lacks (s : string) : lacks "&" (Url.encode s) ∧ lacks "=" (Url.encode s).
Proof.
  induction s as [|c s [IH1 IH2]]; [done |].
  cbn [Url.encode].
  destruct (Url.unreserved c) eqn:Hu.
  - destruct (unreserved_plain c Hu) as (_ & _ & Ha & He). simpl. done.
  - destruct (decide (c = " "%char)); simpl; [done |].
    assert (nat_of_ascii c / 16 < 16)%nat as H1.
    { pose proof (nat_ascii_bounded c). apply Nat.Div0.div_lt_upper_bound. lia. }
    assert (nat_of_ascii c mod 16 < 16)%nat as H2 by (apply Nat.mod_upper_bound; lia).
    destruct (hexDigit_plain _ H1), (hexDigit_plain _ H2). done.
Qed.

Lemma lacks_app c a b : lacks c a → lacks c b → lacks c (a +:+ b).
Proof. induction a as [|x a IH]; simpl; [done | intros [? ?] ?; auto]. Qed.

Lemma cutAt_app c a b : lacks c a → UrlParse.cutAt c (a +:+ String c b) = (a, b).
Proof.
  induction a as [|x a IH]; simpl.
  - intros _. by rewrite decide_True.
  - intros [Hx Ha]. rewrite decide_False by done. by rewrite IH.
Qed.

Lemma splitOn_lacks c a : lacks c a → UrlParse.splitOn c a = [a].
Proof.
  induction a as [|x a IH]; simpl; [done |].
  intros [Hx Ha]. rewrite decide_False by done. by rewrite IH.
Qed.

Lemma splitOn_app c a b :
  lacks c a → UrlParse.splitOn c (a +:+ String c b) = a :: UrlParse.splitOn c b.
Proof.
  induction a as [|x a IH]; simpl.
  - intros _. by rewrite decide_True.
  - intros [Hx Ha]. rewrite decide_False by done. by rewrite IH.
Qed.

Lemma splitOn_join c (parts : list string) :
  parts ≠ [] → Forall (lacks c) parts →
  UrlParse.splitOn c (Js.join (String c "") parts) = parts.
Proof.
  induction parts as [|p [|q rest] IH]; [done | |].
  - intros _ [Hp _]%Forall_cons. simpl. by apply splitOn_lacks.
  - intros _ [Hp Hrest]%Forall_cons.
    change (Js.join (String c "") (p :: q :: rest))
      with (p +:+ String c "" +:+ Js.join (String c "") (q :: rest)).
    change (p +:+ String c "" +:+ Js.join (String c "") (q :: rest))
      with (p +:+ String c (Js.join (String c "") (q :: rest))).
    rewrite splitOn_app by done. by rewrite IH.
Qed.

Lemma serialize_parse (pairs : list (string * string)) :
  UrlParse.parse (Url.serialize pairs) = pairs.
Proof.
  unfold UrlParse.parse, Url.serialize.
  destruct pairs as [|p pairs]; [done |].
  rewrite splitOn_join.
  - generalize (p :: pairs). clear. intros l.
    induction l as [|[n v] l IH]; [done |].
    rewrite fmap_cons. cbn [fst snd].
    rewrite filter_cons_True.
    2:{ destruct (Url.encode n); discriminate. }
    rewrite fmap_cons. change (Url.encode n +:+ "=" +:+ Url.encode v)
      with (Url.encode n +:+ String "=" (Url.encode v)).
    rewrite cutAt_app by apply encode_lacks. cbn [fst snd].
    rewrite !decode_encode. f_equal. apply IH.
  - done.
  - apply Forall_fmap, Forall_forall. intros [n v] _. simpl.
    apply lacks_app; [apply encode_lacks |]. split; [done | apply encode_lacks].
Qed.

Lemma stripPrefix_app (p s : string) : stripPrefix p (p +:+ s) = Some s.
Proof.
  induction p as [|a p IH]; simpl; [by destruct s |].
  by rewrite decide_True.
Qed.

Lemma queryOf_buildApiUrl params apiKey :
  queryOf (buildApiUrl params apiKey) = Some (Url.serialize (urlParams params apiKey)).
Proof.
  unfold queryOf, buildApiUrl. rewrite <- append_assoc. apply stripPrefix_app.
Qed.

(** *** The service leaves the request log alone *)

Lemma setLogs_same (w : World) : setLogs (logs w) w = w.
Proof. by destruct w. Qed.

Lemma logFree_logs {A} (m : M A) w : logFree m → logs (m w).2 = logs w.
Proof.
  intros H. specialize (H (logs w) w). rewrite setLogs_same in H.
  rewrite H at 1. reflexivity.
Qed.

Lemma logFree_ret {A} (a : A) : logFree (mret a).
Proof. by intros l w. Qed.

Lemma logFree_throw {A} e : logFree (@throw A e).
Proof. by intros l w. Qed.

Lemma logFree_bind {A B} (m : M A) (f : A → M B) :
  logFree m → (∀ a, logFree (f a)) → logFree (m ≫= f).
Proof.
  intros Hm Hf l w. unfold mbind, M_bind. rewrite Hm.
  destruct (m w) as [[a|e] w1]; simpl; [apply Hf | done].
Qed.

Lemma logFree_tryCatch {A} (body : M A) (handler : JsErr → M A) :
  logFree body → (∀ e, logFree (handler e)) → logFree (tryCatch body handler).
Proof.
  intros Hm Hf l w. unfold tryCatch. rewrite Hm.
  destruct (body w) as [[a|e] w1]; simpl; [done | apply Hf].
Qed.

Lemma logFree_tryFinally {A} (body : M A) (cleanup : World → World) :
  logFree body → (∀ l w, cleanup (setLogs l w) = setLogs l (cleanup w)) →
  logFree (tryFinally body cleanup).
Proof.
  intros Hm Hc l w. unfold tryFinally. rewrite Hm.
  destruct (body w) as [r w1]; simpl. by rewrite Hc.
Qed.

Lemma logFree_settle {A} (m : M A) : logFree m → logFree (settle m).
Proof.
  intros Hm l w. unfold settle. rewrite Hm. by destruct (m w).
Qed.

Lemma logFree_gets {A} (f : World → A) :
  (∀ l w, f (setLogs l w) = f w) → logFree (gets f).
Proof. intros Hf l w. unfold gets. by rewrite Hf. Qed.

Lemma logFree_modify (f : World → World) :
  (∀ l w, f (setLogs l w) = setLogs l (f w)) → logFree (modify f).
Proof. intros Hf l w. unfold modify. by rewrite Hf. Qed.

Ltac logfree_step :=
  first
    [ apply logFree_ret | apply logFree_throw
    | apply logFree_bind; [| intros ?]
    | apply logFree_tryCatch; [| intros ?]
    | apply logFree_tryFinally; [| done]
    | apply logFree_settle
    | apply logFree_gets; done
    | apply logFree_modify; done
    | assumption
    | match goal with
      | |- logFree (if ?b then _ else _) => destruct b
      | |- logFree (match ?x with _ => _ end) => destruct x
      end ].

Ltac logfree := repeat logfree_step.

Section LogFacts.
Variable env : Env.
Variable cfg : Config.

Lemma logFree_redisGet k : logFree (redisGet env k).
Proof. intros l w. unfold redisGet. by destruct (redisFails _ _). Qed.

Lemma logFree_redisIncr k : logFree (redisIncr env k).
Proof. intros l w. unfold redisIncr. by destruct (redisFails _ _). Qed.

Lemma logFree_redisExpire k n : logFree (redisExpire env k n).
Proof. intros l w. unfold redisExpire. by destruct (redisFails _ _). Qed.

Lemma logFree_redisLpush k v : logFree (redisLpush env k v).
Proof. intros l w. unfold redisLpush. by destruct (redisFails _ _). Qed.

Lemma logFree_recordUsage keyId : logFree (recordUsage env keyId).
Proof.
  intros l w. unfold recordUsage. cbn [redisConnected setLogs now].
  destruct (redisConnected w); [| done]. cbn [negb].
  apply (logFree_tryCatch _ _); [| intros; apply logFree_ret].
  logfree; auto using logFree_redisIncr, logFree_redisExpire, logFree_redisLpush.
Qed.

Lemma logFree_recordError keyId : logFree (recordError env keyId).
Proof.
  intros l w. unfold recordError. cbn [redisConnected setLogs now].
  destruct (redisConnected w); [| done]. cbn [negb].
  apply (logFree_tryCatch _ _); [| intros; apply logFree_ret].
  logfree; auto using logFree_redisIncr, logFree_redisExpire.
Qed.

Lemma logFree_probeKeys today ks : logFree (probeKeys env cfg today ks).
Proof.
  induction ks as [|k ks IH]; simpl; [apply logFree_ret |].
  unfold probeKey, readCounter. logfree; auto using logFree_redisGet.
Qed.

Lemma logFree_getAllAvailableKeys : logFree (getAllAvailableKeys env cfg).
Proof.
  intros l w. unfold getAllAvailableKeys. cbn [redisConnected setLogs now].
  destruct (redisConnected w); [| done]. cbn [negb].
  apply (logFree_bind _ _); [apply logFree_probeKeys | intros; apply logFree_ret].
Qed.

Lemma logFree_cacheGet k : logFree (cacheGet k).
Proof.
  intros l w. unfold cacheGet. cbn [cache setLogs now].
  destruct (cache w !! k) as [[v t]|]; [| done]. by destruct (decide _).
Qed.

Lemma logFree_cacheSet k v : logFree (cacheSet cfg k v).
Proof. intros l w. unfold cacheSet. cbn [cache setLogs now]. by destruct (decide _). Qed.

Lemma logFree_httpGet keyId url : logFree (httpGet env keyId url).
Proof.
  intros l w. unfold httpGet. cbn [calls setLogs now].
  by destruct (result (upstream env (calls w) url)).
Qed.

Lemma logFree_sleep ms : logFree (sleep ms).
Proof. by intros l w. Qed.

Lemma logFree_tryKeys params cacheKey ks lastError :
  logFree (tryKeys env cfg params cacheKey ks lastError).
Proof.
  revert lastError. induction ks as [|k ks IH]; intros lastError; simpl;
    [apply logFree_ret |].
  unfold callWithKey.
  logfree; auto using logFree_httpGet, logFree_recordUsage, logFree_recordError,
    logFree_cacheSet.
Qed.

Lemma logFree_attemptOnce params cacheKey a lastError :
  logFree (attemptOnce env cfg params cacheKey a lastError).
Proof.
  unfold attemptOnce.
  logfree; auto using logFree_getAllAvailableKeys, logFree_tryKeys.
Qed.

Lemma logFree_retryLoop params cacheKey n a lastError :
  logFree (retryLoop env cfg params cacheKey n a lastError).
Proof.
  revert a lastError. induction n as [|n IH]; intros a lastError; simpl;
    [apply logFree_throw |].
  logfree;
    auto using logFree_attemptOnce, logFree_sleep, logFree_getAllAvailableKeys,
      logFree_tryKeys.
Qed.

Lemma logFree_updateResponseTime startTime : logFree (updateResponseTime startTime).
Proof. by intros l w. Qed.

Lemma logFree_getWeatherData params : logFree (getWeatherData env cfg params).
Proof.
  unfold getWeatherData, fetchWeatherFromAPI, ensureInitialized, awaitPromise.
  logfree; auto using logFree_cacheGet, logFree_retryLoop, logFree_updateResponseTime.
Qed.
End LogFacts.

(** *** The handler, step by step *)

Section RouteFacts.
Variable env : Env.
Variable cfg : Config.

(** The world in which the handler reaches its [try] block. *)
Lemma onecall_run request w :
  let arrived := setLogs (logs w ++ [LogReceived (query request); LogHandling]) w in
  onecall env cfg request w =
    if negb (present (appIdKey cfg)) then
      (Ok {| statusCode := 500; headers := [];
             payload := SendJson (failure "服务器配置错误：缺少APP_ID_KEY环境变量"
                                    (requestId request) w) |}, arrived)
    else if decide (query request !! "appid" ≠ appIdKey cfg) then
      (Ok {| statusCode := 401; headers := [];
             payload := SendJson (failure "无效的appid参数" (requestId request) w) |}, arrived)
    else
      let run := getWeatherData env cfg (weatherParamsOf (query request)) w in
      match run.1 with
      | Ok result =>
          let hdrs := [ ("X-Response-Time", pretty (now run.2 - now w) +:+ "ms") ] in
          (Ok (if negb (truthy result)
               then {| statusCode := 500; headers := hdrs;
                       payload := SendJson (failure "无法获取天气数据"
                                              (requestId request) run.2) |}
               else {| statusCode := 200; headers := hdrs; payload := SendData result |}),
           setLogs (logs arrived ++ [LogCompleted (now run.2 - now w) (truthy result)]) run.2)
      | Throw e => onecallCatch request (now w) e (setLogs (logs arrived) run.2)
      end.
Proof.
  intros arrived. unfold onecall, onecallHandler, writeLog. unfold_monad. cbn beta iota.
  change (setLogs (logs (setLogs (logs w ++ [LogReceived (query request)]) w) ++ [LogHandling])
            (setLogs (logs w ++ [LogReceived (query request)]) w))
    with (setLogs ((logs w ++ [LogReceived (query request)]) ++ [LogHandling]) w).
  rewrite <- app_assoc. cbn [app]. fold arrived.
  destruct (negb (present (appIdKey cfg))); [done |].
  destruct (decide (query request !! "appid" ≠ appIdKey cfg)); [done |].
  unfold arrived at 1 2. rewrite logFree_getWeatherData.
  destruct (getWeatherData env cfg (weatherParamsOf (query request)) w) as [[result|e] w1];
    cbn [fst snd]; [| done].
  by destruct (truthy result).
Qed.
End RouteFacts.

(** *** The service does not look at [APP_ID_KEY] *)

Lemma bind_ext {A B} (m m' : M A) (f g : A → M B) w :
  m w = m' w → (∀ a w', f a w' = g a w') → (m ≫= f) w = (m' ≫= g) w.
Proof.
  intros Hm Hf. unfold mbind, M_bind. rewrite Hm.
  destruct (m' w) as [[a|e] w1]; [apply Hf | done].
Qed.

Lemma tryCatch_ext {A} (m m' : M A) (h h' : JsErr → M A) w :
  m w = m' w → (∀ e w', h e w' = h' e w') → tryCatch m h w = tryCatch m' h' w.
Proof.
  intros Hm Hh. unfold tryCatch. rewrite Hm.
  destruct (m' w) as [[a|e] w1]; [done | apply Hh].
Qed.

Section AppIdKeyFacts.
Variable env : Env.
Variable cfg : Config.
Variable expected : option string.

Lemma probeKeys_setAppIdKey today ks w :
  probeKeys env (setAppIdKey expected cfg) today ks w = probeKeys env cfg today ks w.
Proof.
  revert w. induction ks as [|k ks IH]; intros w; [done |].
  cbn [probeKeys]. unfold_monad.
  change (probeKey env (setAppIdKey expected cfg) today k) with (probeKey env cfg today k).
  destruct (probeKey env cfg today k w) as [[found|e] w1]; [| done].
  by rewrite IH.
Qed.

Lemma getAllAvailableKeys_setAppIdKey w :
  getAllAvailableKeys env (setAppIdKey expected cfg) w = getAllAvailableKeys env cfg w.
Proof.
  unfold getAllAvailableKeys. destruct (negb (redisConnected w)); [done |].
  unfold_monad. cbn [keys setAppIdKey]. by rewrite probeKeys_setAppIdKey.
Qed.

Lemma tryKeys_setAppIdKey params cacheKey ks lastError w :
  tryKeys env (setAppIdKey expected cfg) params cacheKey ks lastError w =
  tryKeys env cfg params cacheKey ks lastError w.
Proof.
  revert lastError w. induction ks as [|k ks IH]; intros lastError w; [done |].
  cbn [tryKeys].
  change (callWithKey env (setAppIdKey expected cfg) params cacheKey k)
    with (callWithKey env cfg params cacheKey k).
  apply bind_ext; [done |]. intros [data|error] w1; [done | apply IH].
Qed.

Lemma attemptOnce_setAppIdKey params cacheKey a lastError w :
  attemptOnce env (setAppIdKey expected cfg) params cacheKey a lastError w =
  attemptOnce env cfg params cacheKey a lastError w.
Proof.
  unfold attemptOnce. apply tryCatch_ext; [| done].
  apply bind_ext; [done |]. intros _ w0.
  apply bind_ext; [apply getAllAvailableKeys_setAppIdKey |].
  intros l w1. destruct (decide (length l = 0%nat)); [done | apply tryKeys_setAppIdKey].
Qed.

Lemma retryLoop_setAppIdKey params cacheKey n a lastError w :
  retryLoop env (setAppIdKey expected cfg) params cacheKey n a lastError w =
  retryLoop env cfg params cacheKey n a lastError w.
Proof.
  revert a lastError w. induction n as [|n IH]; intros a lastError w; [done |].
  cbn [retryLoop]. apply bind_ext; [apply attemptOnce_setAppIdKey |].
  intros [data|e] w1; [done |].
  cbn [retryCount retryDelay setAppIdKey]. apply bind_ext; [done |]. intros _ w2. apply IH.
Qed.

Lemma getWeatherData_setAppIdKey params w :
  getWeatherData env (setAppIdKey expected cfg) params w = getWeatherData env cfg params w.
Proof.
  unfold getWeatherData.
  apply bind_ext; [done |]. intros startTime w0.
  apply bind_ext; [done |]. intros _ w1.
  apply tryCatch_ext; [| done].
  apply bind_ext; [done |]. intros _ w2.
  cbn [cacheEnabled setAppIdKey].
  apply bind_ext; [done |]. intros cachedData w3.
  destruct (cacheHit cachedData); [done |].
  apply bind_ext; [done |]. intros pending w4.
  destruct (pending !! generateCacheKey params); [done |].
  unfold tryFinally.
  erewrite bind_ext; [reflexivity | | done].
  unfold settle, fetchWeatherFromAPI. cbn [retryCount setAppIdKey].
  by rewrite retryLoop_setAppIdKey.
Qed.
End AppIdKeyFacts.

(** *** The claim *)

Lemma onecall_Progress env cfg request w r w' :
  onecall env cfg request w = (r, w') →
  ∃ tr, Progress env (keys cfg) (weatherParamsOf (query request)) w tr w'.
Proof.
  rewrite onecall_run. cbn zeta.
  destruct (negb (present (appIdKey cfg))).
  { intros [= <- <-]. exists []. by apply Progress_silent. }
  destruct (decide (query request !! "appid" ≠ appIdKey cfg)).
  { intros [= <- <-]. exists []. by apply Progress_silent. }
  destruct (getWeatherData env cfg (weatherParamsOf (query request)) w) as [rg w1] eqn:Hrun.
  destruct (getWeatherData_Progress _ _ _ _ _ _ Hrun) as (tr & Hp).
  cbn [fst snd]. intros H. exists (tr ++ []).
  eapply Progress_trans; [exact Hp |]. apply Progress_silent;
    destruct rg as [result|[]]; injection H as <- <-; done.
Qed.

Lemma generateCacheKey_appid (params : Params) (a : string) :
  generateCacheKey (<["appid" := a]> params) = generateCacheKey params.
Proof. unfold generateCacheKey. by rewrite !lookup_insert_ne. Qed.

Lemma buildApiUrl_appid (params : Params) (a secret : string) :
  buildApiUrl (<["appid" := a]> params) secret = buildApiUrl params secret.
Proof. unfold buildApiUrl, urlParams. by rewrite !lookup_insert_ne. Qed.



Example appid_example :
  let served (a : string) :=
    onecall (healthyEnv (JObj "{}")) sampleConfig
      {| query := <["appid" := a]> sampleParams; requestId := "req-1" |} (sampleWorld ∅) in
  (∃ r, fst (served "app-id") = Ok r ∧ statusCode r = 200) ∧
  (∃ r, fst (served "guess") = Ok r ∧ statusCode r = 401) ∧
  (∃ r, fst (served "secret-one") = Ok r ∧ statusCode r = 401) ∧
  trace (snd (served "guess")) = [] ∧
  logs (snd (served "guess")) = [LogReceived (<["appid" := "guess"]> sampleParams); LogHandling] ∧
  trace (snd (served "app-id")) =
    [ EvSelect 1;
      EvUpstream "key_1" "2024-01-15"
        "https://api.openweathermap.org/data/3.0/onecall?lat=39.9042&lon=116.4074&appid=secret-one&units=metric&lang=zh_cn"
        true ].
Proof. vm_compute. repeat split; eauto. Qed.

(** ** The fingerprint (C8) *)

Example validated_example : validated sampleParams = true.
Proof. vm_compute. reflexivity. Qed.

Example validated_exclude_example :
  validated (<["exclude" := "minutely,hourly"]> sampleParams) = true ∧
  validated (<["exclude" := "minutely,"]> sampleParams) = false ∧
  validated (<["units" := "kelvin"]> sampleParams) = false ∧
  validated (<["lang" := "e"]> sampleParams) = false ∧
  validated (delete "lon" sampleParams) = false.
Proof. vm_compute. auto. Qed.

(** The shape of a fingerprint. *)
Lemma generateCacheKey_shape (p : Params) :
  generateCacheKey p =
    "weather:lat:" +:+ template (p !! "lat") +:+ ":lon:" +:+ template (p !! "lon") +:+
    optionalPart "exclude" (p !! "exclude") +:+
    optionalPart "units" (p !! "units") +:+
    optionalPart "lang" (p !! "lang").
Proof.
  unfold generateCacheKey, optionalPart.
  destruct (present (p !! "exclude")), (present (p !! "units")), (present (p !! "lang"));
    simpl; rewrite ?append_assoc; simpl; rewrite ?append_nil_r; reflexivity.
Qed.

Lemma lacks_not_colon_in (c : ascii) (a r : string) : ¬ lacks c (a +:+ String c r).
Proof. induction a as [|x a IH]; simpl; [intros [H _]; done | intros [_ H]; auto]. Qed.

(** Two texts without [c], each followed by [c]: they end at the same place. *)
Lemma split_at (c : ascii) (a b r s : string) :
  lacks c a → lacks c b → a +:+ String c r = b +:+ String c s → a = b ∧ r = s.
Proof.
  revert b. induction a as [|x a IH]; intros [|y b]; simpl.
  - intros _ _ [= ->]. done.
  - intros _ [Hy _] [= -> _]. done.
  - intros [Hx _] _ [= -> _]. done.
  - intros [_ Ha] [_ Hb] [= -> H]. destruct (IH b Ha Hb H) as [-> ->]. done.
Qed.

(** A tail is empty or starts with the separator. *)
Definition isTail (c : ascii) (t : string) : Prop :=
  t = "" ∨ ∃ r, t = String c r.

Lemma split_tail (c : ascii) (a b t1 t2 : string) :
  lacks c a → lacks c b → isTail c t1 → isTail c t2 →
  a +:+ t1 = b +:+ t2 → a = b ∧ t1 = t2.
Proof.
  intros Ha Hb [->|[r1 ->]] [->|[r2 ->]] H.
  - rewrite !append_nil_r in H. done.
  - rewrite append_nil_r in H. subst a. by apply lacks_not_colon_in in Ha.
  - rewrite append_nil_r in H. subst b. by apply lacks_not_colon_in in Hb.
  - destruct (split_at c a b r1 r2 Ha Hb H) as [-> ->]. done.
Qed.

Lemma isTail_optionalPart name v t :
  isTail ":" t → isTail ":" (optionalPart name v +:+ t).
Proof.
  intros Ht. unfold optionalPart. destruct (present v); simpl; [right; eauto | done].
Qed.

Lemma isTail_nil c : isTail c "".
Proof. by left. Qed.

(** *** What validation gives *)

Lemma allChars_lacks f c s : f c = false → allChars f s = true → lacks c s.
Proof.
  intros Hc. induction s as [|a s IH]; simpl; [done |].
  intros [Ha Hs]%andb_prop. split; [congruence | auto].
Qed.

Lemma isNumberText_lacks s : isNumberText s = true → lacks ":" s.
Proof.
  unfold isNumberText. intros [_ H]%andb_prop.
  by apply (allChars_lacks numberChar).
Qed.

Lemma stripPrefix_Some p s r : stripPrefix p s = Some r → s = p +:+ r.
Proof.
  revert s. induction p as [|a p IH]; intros [|b s]; simpl; try done.
  - by intros [= ->].
  - by intros [= ->].
  - destruct (decide (a = b)) as [->|]; [| done]. intros H. by rewrite (IH _ H).
Qed.

Lemma token_lacks tok :
  tok ∈ ["current"; "minutely"; "hourly"; "daily"; "alerts"] → lacks ":" tok ∧ tok ≠ "".
Proof.
  rewrite !elem_of_cons, elem_of_nil.
  intros [->|[->|[->|[->|[->|[]]]]]];
    (split; [simpl; repeat split; discriminate | discriminate]).
Qed.

Lemma stripToken_Some s r :
  stripToken s = Some r → ∃ tok, s = tok +:+ r ∧ lacks ":" tok ∧ tok ≠ "".
Proof.
  unfold stripToken. intros H.
  assert (∃ tok, tok ∈ ["current"; "minutely"; "hourly"; "daily"; "alerts"] ∧
                 stripPrefix tok s = Some r) as (tok & Htok & Hstrip).
  { destruct (stripPrefix "current" s) eqn:H1;
      [injection H as ->; eexists; split; [| exact H1]; set_solver |].
    destruct (stripPrefix "minutely" s) eqn:H2;
      [injection H as ->; eexists; split; [| exact H2]; set_solver |].
    destruct (stripPrefix "hourly" s) eqn:H3;
      [injection H as ->; eexists; split; [| exact H3]; set_solver |].
    destruct (stripPrefix "daily" s) eqn:H4;
      [injection H as ->; eexists; split; [| exact H4]; set_solver |].
    eexists; split; [| exact H]; set_solver. }
  exists tok. split; [by apply stripPrefix_Some | by apply token_lacks].
Qed.

Lemma matchesExcludeWithin_lacks fuel s :
  matchesExcludeWithin fuel s = true → lacks ":" s ∧ s ≠ "".
Proof.
  revert s. induction fuel as [|fuel IH]; intros s; simpl; [done |].
  destruct (stripToken s) as [[|c rest]|] eqn:Htok; [| | done];
    apply stripToken_Some in Htok as (tok & -> & Hlacks & Hne).
  - intros _. rewrite append_nil_r. done.
  - destruct (decide (c = ","%char)) as [->|]; [| done].
    intros [Hrest _]%IH. split.
    + apply lacks_append; [done |]. simpl. split; [discriminate | done].
    + destruct tok; [done | discriminate].
Qed.

Lemma unitsEnum_lacks u : u ∈ unitsEnum → lacks ":" u ∧ u ≠ "".
Proof.
  unfold unitsEnum. rewrite !elem_of_cons, elem_of_nil.
  intros [->|[->|[->|[]]]]; (split; [simpl; repeat split; discriminate | discriminate]).
Qed.

Lemma validated_inv (p : Params) :
  validated p = true →
  ∃ lat lon, p !! "lat" = Some lat ∧ p !! "lon" = Some lon ∧
             lacks ":" lat ∧ lacks ":" lon ∧
             goodOptional true (p !! "exclude") ∧
             goodOptional true (p !! "units") ∧
             goodOptional false (p !! "lang").
Proof.
  unfold validated.
  intros [[[Hnum Hex]%andb_prop Hun]%andb_prop Hla]%andb_prop.
  destruct (p !! "lat") as [lat|]; [| done]. destruct (p !! "lon") as [lon|]; [| done].
  apply andb_prop in Hnum as [Hlat Hlon].
  exists lat, lon. repeat split; try by apply isNumberText_lacks.
  - destruct (p !! "exclude") as [e|]; [right | by left].
    apply matchesExcludeWithin_lacks in Hex as [? ?]. eauto.
  - destruct (p !! "units") as [u|]; [right | by left].
    apply bool_decide_eq_true in Hun. apply unitsEnum_lacks in Hun as [? ?]. eauto.
  - destruct (p !! "lang") as [l|]; [right | by left].
    apply bool_decide_eq_true in Hla. exists l. repeat split; [| done].
    intros ->. simpl in Hla. lia.
Qed.

Lemma optionalPart_good name b v :
  goodOptional b v →
  (v = None ∧ optionalPart name v = "") ∨
  (∃ s, v = Some s ∧ (b = true → lacks ":" s) ∧
        optionalPart name v = ":" +:+ name +:+ ":" +:+ s).
Proof.
  intros [->|(s & -> & Hne & Hs)]; [by left | right].
  exists s. repeat split; [done |]. unfold optionalPart, present.
  destruct (String.eqb_spec s ""); done.
Qed.

Lemma isTail_optionalPart_alone name v : isTail ":" (optionalPart name v).
Proof.
  rewrite <- (append_nil_r (optionalPart name v)).
  apply isTail_optionalPart, isTail_nil.
Qed.

Lemma optional_split name v1 v2 t1 t2 :
  goodOptional true v1 → goodOptional true v2 →
  isTail ":" t1 → isTail ":" t2 → notPrefixed name t1 → notPrefixed name t2 →
  optionalPart name v1 +:+ t1 = optionalPart name v2 +:+ t2 →
  v1 = v2 ∧ t1 = t2.
Proof.
  intros H1 H2 Ht1 Ht2 Hn1 Hn2.
  destruct (optionalPart_good name _ _ H1) as [[-> ->]|(s1 & -> & Hs1 & ->)];
    destruct (optionalPart_good name _ _ H2) as [[-> ->]|(s2 & -> & Hs2 & ->)];
    rewrite ?append_assoc; simpl; rewrite ?append_assoc; simpl.
  - done.
  - intros ->. destruct (Hn1 (s2 +:+ t2)). by simpl.
  - intros <-. destruct (Hn2 (s1 +:+ t1)). by simpl.
  - intros [= H]. apply append_inv_head in H. injection H as H.
    destruct (split_tail ":" s1 s2 t1 t2) as [-> ->]; auto.
Qed.

Lemma lang_split v1 v2 :
  goodOptional false v1 → goodOptional false v2 →
  optionalPart "lang" v1 = optionalPart "lang" v2 → v1 = v2.
Proof.
  intros H1 H2.
  destruct (optionalPart_good "lang" _ _ H1) as [[-> ->]|(s1 & -> & _ & ->)];
    destruct (optionalPart_good "lang" _ _ H2) as [[-> ->]|(s2 & -> & _ & ->)];
    simpl; try done.
  by intros [= ->].
Qed.

Lemma notPrefixed_units_lang u l :
  notPrefixed "exclude" (optionalPart "units" u +:+ optionalPart "lang" l).
Proof.
  intros r. unfold optionalPart.
  destruct (present u), (present l); simpl; discriminate.
Qed.

Lemma notPrefixed_lang l : notPrefixed "units" (optionalPart "lang" l).
Proof. intros r. unfold optionalPart. destruct (present l); simpl; discriminate. Qed.

Lemma fingerprint_separates (p1 p2 : Params) :
  validated p1 = true → validated p2 = true →
  generateCacheKey p1 = generateCacheKey p2 →
  p1 !! "lat" = p2 !! "lat" ∧ p1 !! "lon" = p2 !! "lon" ∧
  p1 !! "exclude" = p2 !! "exclude" ∧ p1 !! "units" = p2 !! "units" ∧
  p1 !! "lang" = p2 !! "lang".
Proof.
  intros (lat1 & lon1 & Hlat1 & Hlon1 & Hc1 & Hd1 & He1 & Hu1 & Hl1)%validated_inv
         (lat2 & lon2 & Hlat2 & Hlon2 & Hc2 & Hd2 & He2 & Hu2 & Hl2)%validated_inv.
  rewrite !generateCacheKey_shape, Hlat1, Hlat2, Hlon1, Hlon2. simpl.
  intros [= H].
  apply (split_at ":") in H as [-> H]; [| done | done].
  injection H as H.
  apply (split_tail ":") in H as [-> H]; [| done | done | |];
    try (apply isTail_optionalPart, isTail_optionalPart, isTail_optionalPart_alone).
  apply optional_split in H as [-> H]; [| done | done | | | |];
    try (apply isTail_optionalPart, isTail_optionalPart_alone);
    try apply notPrefixed_units_lang.
  apply optional_split in H as [-> H]; [| done | done | | | |];
    try apply isTail_optionalPart_alone; try apply notPrefixed_lang.
  apply lang_split in H as ->; done.
Qed.

(** C8: on parameter sets that pass the validation of [/onecall], two sets
    have the same fingerprint exactly when they agree on [lat], [lon],
    [exclude], [units] and [lang]: agreement gives equal fingerprints
    (determinism), and a difference in any of the five gives different
    fingerprints (injectivity). *)
Theorem fingerprint_injective (p1 p2 : Params) :
  validated p1 = true → validated p2 = true →
  generateCacheKey p1 = generateCacheKey p2 ↔
    ∀ name, name ∈ fingerprintParams → p1 !! name = p2 !! name.
Proof.
  intros Hv1 Hv2. split.
  - intros H name Hname.
    destruct (fingerprint_separates p1 p2 Hv1 Hv2 H) as (? & ? & ? & ? & ?).
    unfold fingerprintParams in Hname. rewrite !elem_of_cons, elem_of_nil in Hname.
    destruct Hname as [->|[->|[->|[->|[->|[]]]]]]; done.
  - intros H. unfold generateCacheKey.
    rewrite (H "lat"), (H "lon"), (H "exclude"), (H "units"), (H "lang");
      [done | unfold fingerprintParams; set_solver..].
Qed.

Lemma fingerprint_injective_witness :
  let p1 := sampleParams in
  let p2 := <["units" := "imperial"]> sampleParams in
  generateCacheKey p1 = generateCacheKey p2 ↔
    ∀ name, name ∈ fingerprintParams → p1 !! name = p2 !! name.
Proof.
  intros p1 p2. apply (fingerprint_injective p1 p2).
  - vm_compute. reflexivity.
  - vm_compute. reflexivity.
Defined.

Example fingerprint_example :
  generateCacheKey sampleParams = "weather:lat:39.9042:lon:116.4074:units:metric:lang:zh_cn" ∧
  generateCacheKey (<["exclude" := "minutely,hourly"]> (delete "lang" sampleParams)) =
    "weather:lat:39.9042:lon:116.4074:exclude:minutely,hourly:units:metric".
Proof. vm_compute. auto. Qed.

(** Without validation the fingerprint is not injective: a [units] text
    that contains the separator imitates a [lang] part.  The cache warm-up
    accepts such a location. *)
Example fingerprint_collision_unvalidated :
  let p1 : Params := {[ "lat" := "1"; "lon" := "2"; "units" := "metric:lang:en" ]} in
  let p2 : Params := {[ "lat" := "1"; "lon" := "2"; "units" := "metric"; "lang" := "en" ]} in
  generateCacheKey p1 = generateCacheKey p2 ∧ p1 !! "units" ≠ p2 !! "units" ∧
  validated p1 = false.
Proof. vm_compute. repeat split; discriminate. Qed.

(** ** Single flight (C1) *)

Module CoalescerFacts.
Import Coalescer CoalescerSpec.

Example twoCallers_example :
  let s := run sampleConfig (twoCallers (JObj "{}")) in
  tasks s = [Finished (Some 0%nat) (Ok (JObj "{}")); Finished (Some 0%nat) (Ok (JObj "{}"))] ∧
  length (promises s) = 1%nat ∧ pendingRequests s = ∅.
Proof. vm_compute. auto. Qed.

Lemma invariant_initial : invariant initial.
Proof. split; unfold inFlight; simpl; intros; by rewrite ?lookup_nil in *. Qed.

Lemma invariant_call s params :
  invariant s →
  invariant {| cache := cache s; pendingRequests := pendingRequests s;
               promises := promises s; tasks := tasks s ++ [AwaitInit params] |}.
Proof.
  intros [Hin Hown Huniq Hfin].
  assert (∀ i t, (tasks s ++ [AwaitInit params]) !! i = Some t → t ≠ AwaitInit params →
                 tasks s !! i = Some t) as Hold.
  { intros i t Hi Hne. apply lookup_app_Some in Hi as [Hi|[_ Hi]]; [done |].
    apply list_lookup_singleton_Some in Hi as [_ <-]. done. }
  split; simpl.
  - exact Hin.
  - intros i k p Hi. apply Hold in Hi; [eauto | done].
  - intros i j k1 k2 p Hi Hj. apply Hold in Hi, Hj; [eauto | done | done].
  - intros i p o Hi. apply Hold in Hi; [eauto | done].
Qed.

(** Replacing a task by one that is not an initiator (and, if finished,
    finished with the outcome of the promise it awaited). *)
Lemma invariant_setTask s i t :
  invariant s →
  (∀ k p, t ≠ AwaitOwn k p) →
  (∀ p o, t = Finished (Some p) o →
          ∃ k, promises s !! p = Some {| fingerprint := k; settled := Some o |}) →
  invariant (setTask i t s).
Proof.
  intros [Hin Hown Huniq Hfin] Ht Hdone.
  assert (∀ j t', <[i := t]> (tasks s) !! j = Some t' →
                  t' = t ∨ tasks s !! j = Some t') as Hold.
  { intros j t' Hj. apply list_lookup_insert_Some in Hj as [(_ & <- & _)|[_ Hj]]; auto. }
  split; simpl.
  - exact Hin.
  - intros j k p Hj. apply Hold in Hj as [Hj|Hj]; [| eauto]. symmetry in Hj. by apply Ht in Hj.
  - intros j1 j2 k1 k2 p H1 H2.
    apply Hold in H1 as [H1|H1]; [symmetry in H1; by apply Ht in H1 |].
    apply Hold in H2 as [H2|H2]; [symmetry in H2; by apply Ht in H2 |]. eauto.
  - intros j p o Hj. apply Hold in Hj as [Hj|Hj]; eauto.
Qed.

(** A call that finds neither a cached body nor a pending entry registers
    a new promise. *)
Lemma invariant_start s i cacheKey :
  invariant s →
  (i < length (tasks s))%nat →
  pendingRequests s !! cacheKey = None →
  invariant
    {| cache := cache s;
       pendingRequests := <[cacheKey := length (promises s)]> (pendingRequests s);
       promises := promises s ++ [ {| fingerprint := cacheKey; settled := None |} ];
       tasks := <[i := AwaitOwn cacheKey (length (promises s))]> (tasks s) |}.
Proof.
  intros [Hin Hown Huniq Hfin] Hi Hnone.
  remember (length (promises s)) as n eqn:Hn.
  assert (∀ p pr, (promises s ++ [ {| fingerprint := cacheKey; settled := None |} ]) !! p
                    = Some pr →
                  promises s !! p = Some pr ∨
                  (p = n ∧ pr = {| fingerprint := cacheKey; settled := None |})) as Hprom.
  { intros p pr Hp. apply lookup_app_Some in Hp as [Hp|[Hge Hp]]; [by left | right].
    apply list_lookup_singleton_Some in Hp as [Hz <-]. split; [lia | done]. }
  assert (∀ p pr, promises s !! p = Some pr →
                  (promises s ++ [ {| fingerprint := cacheKey; settled := None |} ]) !! p
                    = Some pr ∧ p ≠ n) as Hkeep.
  { intros p pr Hp. split; [by apply lookup_app_l_Some |].
    apply lookup_lt_Some in Hp. lia. }
  assert (∀ j t', <[i := AwaitOwn cacheKey n]> (tasks s) !! j = Some t' →
                  (j = i ∧ t' = AwaitOwn cacheKey n) ∨ (j ≠ i ∧ tasks s !! j = Some t'))
    as Hold.
  { intros j t' Hj. apply list_lookup_insert_Some in Hj as [(<- & <- & _)|[? Hj]]; auto. }
  assert (∀ k p, pendingRequests s !! k = Some p →
                 <[cacheKey := n]> (pendingRequests s) !! k = Some p) as Hpend.
  { intros k p Hk. rewrite lookup_insert_ne; [done | congruence]. }
  split; unfold inFlight; simpl.
  - intros k p Hp. apply Hprom in Hp as [Hp|[-> [= <-]]].
    + apply Hpend. by apply Hin.
    + apply lookup_insert_eq.
  - intros j k p Hj. apply Hold in Hj as [[-> [= <- <-]]|[Hne Hj]].
    + split; [apply lookup_insert_eq |]. exists None.
      rewrite lookup_app_r by lia. by replace (p - length (promises s))%nat with 0%nat by lia.
    + destruct (Hown _ _ _ Hj) as [Hk [st Hp]]. split; [by apply Hpend |].
      exists st. by apply Hkeep.
  - intros j1 j2 k1 k2 p H1 H2.
    apply Hold in H1 as [[-> Ht1]|[Hne1 H1]];
      apply Hold in H2 as [[-> Ht2]|[Hne2 H2]]; [done | | | eauto].
    + injection Ht1 as -> ->.
      destruct (Hown _ _ _ H2) as [_ [st Hp]]. by apply Hkeep in Hp as [_ ?].
    + injection Ht2 as -> ->.
      destruct (Hown _ _ _ H1) as [_ [st Hp]]. by apply Hkeep in Hp as [_ ?].
  - intros j p o Hj. apply Hold in Hj as [[_ [=]]|[_ Hj]].
    destruct (Hfin _ _ _ Hj) as [k Hp]. exists k. by apply Hkeep.
Qed.

(** An initiator continues after its promise settled: it removes the
    entry and finishes with the outcome. *)
Lemma invariant_finish s i cacheKey p outcome :
  invariant s →
  tasks s !! i = Some (AwaitOwn cacheKey p) →
  outcomeOf s p = Some outcome →
  invariant
    {| cache := cache s;
       pendingRequests := delete cacheKey (pendingRequests s);
       promises := promises s;
       tasks := <[i := Finished (Some p) outcome]> (tasks s) |}.
Proof.
  intros [Hin Hown Huniq Hfin] Hi Hout.
  destruct (Hown _ _ _ Hi) as [Hpend [st Hp]].
  assert (st = Some outcome) as ->.
  { unfold outcomeOf in Hout. rewrite Hp in Hout. done. }
  assert (∀ j t', <[i := Finished (Some p) outcome]> (tasks s) !! j = Some t' →
                  (j = i ∧ t' = Finished (Some p) outcome) ∨ (j ≠ i ∧ tasks s !! j = Some t'))
    as Hold.
  { intros j t' Hj. apply list_lookup_insert_Some in Hj as [(<- & <- & _)|[? Hj]]; auto. }
  split; unfold inFlight; simpl.
  - intros k q Hq. pose proof (Hin _ _ Hq) as Hk.
    rewrite lookup_delete_ne; [done |]. intros <-.
    rewrite Hpend in Hk. injection Hk as <-. unfold inFlight in Hq. congruence.
  - intros j k q Hj. apply Hold in Hj as [[_ [=]]|[Hne Hj]].
    destruct (Hown _ _ _ Hj) as [Hk Hq]. split; [| done].
    rewrite lookup_delete_ne; [done |]. intros <-.
    rewrite Hpend in Hk. injection Hk as <-. destruct Hne. eauto.
  - intros j1 j2 k1 k2 q H1 H2.
    apply Hold in H1 as [[_ [=]]|[_ H1]]. apply Hold in H2 as [[_ [=]]|[_ H2]]. eauto.
  - intros j q o Hj. apply Hold in Hj as [[_ [= <- <-]]|[_ Hj]]; eauto.
Qed.

Lemma invariant_settle cfg s p outcome :
  invariant s → invariant (settle cfg p outcome s).
Proof.
  intros Hinv. unfold settle.
  destruct (promises s !! p) as [[cacheKey [st|]]|] eqn:Hp; [done | | done].
  destruct Hinv as [Hin Hown Huniq Hfin].
  assert (∀ q pr, <[p := {| fingerprint := cacheKey; settled := Some outcome |}]> (promises s)
                    !! q = Some pr →
                  (q = p ∧ pr = {| fingerprint := cacheKey; settled := Some outcome |}) ∨
                  (q ≠ p ∧ promises s !! q = Some pr)) as Hprom.
  { intros q pr Hq. apply list_lookup_insert_Some in Hq as [(<- & <- & _)|[? Hq]]; auto. }
  assert (∀ q k st, promises s !! q = Some {| fingerprint := k; settled := st |} →
                    ∃ st', <[p := {| fingerprint := cacheKey; settled := Some outcome |}]>
                             (promises s) !! q = Some {| fingerprint := k; settled := st' |} ∧
                           (q ≠ p → st' = st)) as Hkeep.
  { intros q k st Hq. destruct (decide (q = p)) as [->|Hne].
    - rewrite Hp in Hq. injection Hq as <- <-. exists (Some outcome).
      split; [| done]. apply list_lookup_insert_eq. by apply lookup_lt_Some in Hp.
    - exists st. split; [| done]. by rewrite list_lookup_insert_ne. }
  split; unfold inFlight; simpl.
  - intros k q Hq. apply Hprom in Hq as [[_ [=]]|[_ Hq]]. by apply Hin.
  - intros j k q Hj. destruct (Hown _ _ _ Hj) as [Hk [st Hq]]. split; [done |].
    destruct (Hkeep _ _ _ Hq) as (st' & ? & _). eauto.
  - exact Huniq.
  - intros j q o Hj. destruct (Hfin _ _ _ Hj) as [k Hq].
    destruct (Hkeep _ _ _ Hq) as (st' & Hq' & Hst).
    exists k. rewrite Hq'. destruct (decide (q = p)) as [->|Hne]; [| by rewrite Hst].
    rewrite Hp in Hq. discriminate Hq.
Qed.

Lemma invariant_turn cfg s e : invariant s → invariant (turn cfg s e).
Proof.
  intros Hinv. destruct e as [params|i|p outcome|cacheKey]; simpl.
  - by apply invariant_call.
  - unfold resume. destruct (tasks s !! i) as [[params|cacheKey p|p|awaited outcome]|] eqn:Hi;
      [| | | done | done].
    + unfold afterInit. destruct (negb (initialized cfg)).
      { apply invariant_setTask; [done | done | intros ? ? [=]]. }
      destruct (cacheHit _).
      { apply invariant_setTask; [done | done | intros ? ? [=]]. }
      unfold joinOrStart.
      destruct (pendingRequests s !! generateCacheKey params) as [p|] eqn:Hpend.
      * apply invariant_setTask; [done | done | intros ? ? [=]].
      * apply invariant_start; [done | by apply lookup_lt_Some in Hi | done].
    + destruct (outcomeOf s p) as [outcome|] eqn:Hout; [| done].
      by apply invariant_finish.
    + destruct (outcomeOf s p) as [outcome|] eqn:Hout; [| done].
      apply invariant_setTask; [done | done |].
      intros q o [= <- <-]. unfold outcomeOf in Hout.
      destruct (promises s !! p) as [[k st]|]; [| done]. simpl in Hout. subst st. eauto.
  - by apply invariant_settle.
  - destruct Hinv. by split.
Qed.

Lemma invariant_run cfg turns : invariant (run cfg turns).
Proof.
  unfold run. induction turns as [|e turns IH] using rev_ind.
  - apply invariant_initial.
  - rewrite foldl_app. simpl. by apply invariant_turn.
Qed.


(** With the cache disabled, three calls for the same parameters around one
    slow fetch: one promise, one outcome. *)
Example single_flight_example :
  let cfg := {| keys := keys sampleConfig; dailyLimit := 2000; retryCount := 3;
                retryDelay := 1000; cacheEnabled := false; stdTTL := 300; maxKeys := 10000;
                initialized := true; initFailure := "Redis连接超时";
     appIdKey := Some "app-id" |} in
  let s := run cfg [ Call sampleParams; Resume 0; Call sampleParams; Call sampleParams;
                     Resume 2; Resume 1; Settle 0 (Throw (AxiosRequestError "timeout"));
                     Resume 1; Resume 0; Resume 2 ] in
  length (promises s) = 1%nat ∧
  tasks s = [ Finished (Some 0%nat) (Throw (AxiosRequestError "timeout"));
              Finished (Some 0%nat) (Throw (AxiosRequestError "timeout"));
              Finished (Some 0%nat) (Throw (AxiosRequestError "timeout")) ].
Proof. vm_compute. auto. Qed.

End CoalescerFacts.

(** * Further properties of the code *)

(** ** Ledger keys *)

Lemma append_length (a b : string) :
  String.length (a +:+ b) = (String.length a + String.length b)%nat.
Proof. induction a as [|x a IH]; simpl; [done | by rewrite IH]. Qed.

Lemma append_inv_tail (a b s : string) : a +:+ s = b +:+ s → a = b.
Proof.
  revert b. induction a as [|x a IH]; intros [|y b]; simpl; intros H.
  - done.
  - apply (f_equal String.length) in H. simpl in H. rewrite append_length in H. lia.
  - apply (f_equal String.length) in H. simpl in H. rewrite append_length in H. lia.
  - injection H as -> H. by rewrite (IH b H).
Qed.

(** On one day, distinct credentials have distinct counters. *)
Lemma usageKeyOf_inj (k1 k2 day : string) : usageKeyOf k1 day = usageKeyOf k2 day → k1 = k2.
Proof.
  unfold usageKeyOf. intros H. apply append_inv_head in H.
  rewrite <- !append_assoc in H. by apply append_inv_tail, append_inv_tail in H.
Qed.

Lemma errorKeyOf_inj (k1 k2 day : string) : errorKeyOf k1 day = errorKeyOf k2 day → k1 = k2.
Proof.
  unfold errorKeyOf. intros H. apply append_inv_head in H.
  rewrite <- !append_assoc in H. by apply append_inv_tail, append_inv_tail in H.
Qed.

Lemma usageKey_not_timeKey k1 d1 k2 d2 : usageKeyOf k1 d1 ≠ timeKeyOf k2 d2.
Proof. unfold usageKeyOf, timeKeyOf. simpl. discriminate. Qed.

Lemma errorKey_not_timeKey k1 d1 k2 d2 : errorKeyOf k1 d1 ≠ timeKeyOf k2 d2.
Proof. unfold errorKeyOf, timeKeyOf. simpl. discriminate. Qed.

(** ** loadApiKeys *)

(** X1. [loadApiKeys] keeps the order and the secrets of the configured
    list, numbers the credentials [key_1], [key_2], ... with priorities 0,
    1, ..., and so gives no two credentials the same id: on any one day
    their usage counters, and their error counters, live under different
    Redis keys. *)
Theorem loadApiKeys_distinct (secrets : list string) :
  length (loadApiKeys secrets) = length secrets ∧
  (∀ (i : nat) k, loadApiKeys secrets !! i = Some k →
     id k = "key_" +:+ pretty (i + 1)%nat ∧ priority k = Z.of_nat i ∧
     secrets !! i = Some (key k)) ∧
  NoDup (id <$> loadApiKeys secrets) ∧
  (∀ (i j : nat) k1 k2 day,
     loadApiKeys secrets !! i = Some k1 → loadApiKeys secrets !! j = Some k2 → i ≠ j →
     usageKeyOf (id k1) day ≠ usageKeyOf (id k2) day ∧
     errorKeyOf (id k1) day ≠ errorKeyOf (id k2) day).
Proof.
  assert (∀ (i : nat) k, loadApiKeys secrets !! i = Some k →
            id k = "key_" +:+ pretty (i + 1)%nat ∧ priority k = Z.of_nat i ∧
            secrets !! i = Some (key k)) as Hshape.
  { intros i k. unfold loadApiKeys. rewrite list_lookup_imap_Some.
    intros (secret & Hs & ->). simpl. done. }
  assert (∀ (i j : nat) k1 k2,
            loadApiKeys secrets !! i = Some k1 → loadApiKeys secrets !! j = Some k2 →
            id k1 = id k2 → i = j) as Hinj.
  { intros i j k1 k2 H1 H2 Hid.
    apply Hshape in H1 as (E1 & _). apply Hshape in H2 as (E2 & _).
    rewrite E1, E2 in Hid. apply append_inv_head in Hid.
    apply (inj pretty) in Hid. lia. }
  split; [apply length_imap |]. split; [exact Hshape |]. split.
  - apply NoDup_alt. intros i j x. rewrite !list_lookup_fmap.
    destruct (loadApiKeys secrets !! i) as [k1|] eqn:H1; [| done].
    destruct (loadApiKeys secrets !! j) as [k2|] eqn:H2; [| done].
    simpl. intros [= <-] [= Hid]. eapply Hinj; eauto.
  - intros i j k1 k2 day H1 H2 Hne. split; intros Heq; apply Hne.
    + apply usageKeyOf_inj in Heq. eapply Hinj; eauto.
    + apply errorKeyOf_inj in Heq. eapply Hinj; eauto.
Qed.

(** ** The queries read and do nothing else *)

Section QueryFacts.
Variable env : Env.
Variable cfg : Config.

Lemma getKeyUsage_run keyId w :
  getKeyUsage env keyId w =
    (Ok (if redisConnected w &&
            negb (redisFails env (GET (usageKeyOf keyId (getTodayString (now w)))))
         then usageCount w keyId (getTodayString (now w)) else 0), w).
Proof.
  unfold getKeyUsage, usageCount. destruct (redisConnected w); simpl; [| done].
  unfold_monad. rewrite readCounter_run. by destruct (redisFails env _).
Qed.

Lemma getKeyErrorCount_run keyId w :
  getKeyErrorCount env keyId w =
    (Ok (if redisConnected w &&
            negb (redisFails env (GET (errorKeyOf keyId (getTodayString (now w)))))
         then errorCount w keyId (getTodayString (now w)) else 0), w).
Proof.
  unfold getKeyErrorCount, errorCount. destruct (redisConnected w); simpl; [| done].
  unfold_monad. rewrite readCounter_run. by destruct (redisFails env _).
Qed.

Lemma isKeyAvailable_run keyId w :
  let today := getTodayString (now w) in
  isKeyAvailable env cfg keyId w =
    (Ok (redisConnected w &&
         negb (redisFails env (GET (usageKeyOf keyId today))) &&
         negb (redisFails env (GET (errorKeyOf keyId today))) &&
         bool_decide (usageCount w keyId today < dailyLimit cfg) &&
         bool_decide (errorCount w keyId today < maxErrors)), w).
Proof.
  unfold isKeyAvailable, usageCount, errorCount.
  destruct (redisConnected w); simpl; [| done].
  unfold_monad. rewrite readCounter_run.
  destruct (redisFails env (GET (usageKeyOf _ _))); simpl; [done |].
  rewrite readCounter_run.
  by destruct (redisFails env (GET (errorKeyOf _ _))).
Qed.

Lemma isKeyAvailable_true keyId w :
  let today := getTodayString (now w) in
  fst (isKeyAvailable env cfg keyId w) = Ok true ↔
    redisConnected w = true ∧ readable env keyId today ∧
    usageCount w keyId today < dailyLimit cfg ∧ errorCount w keyId today < maxErrors.
Proof.
  intros today. rewrite isKeyAvailable_run. simpl. unfold readable. fold today.
  destruct (redisConnected w), (redisFails env (GET (usageKeyOf keyId today))),
    (redisFails env (GET (errorKeyOf keyId today))); simpl;
    try (split; [intros [=] | intros (? & (? & ?) & ?); done]).
  repeat case_bool_decide; simpl; split; try done; try (intros [=]); intros (_ & _ & ? & ?); lia.
Qed.

End QueryFacts.

(** ** Writing the ledger and reading it back *)

(** X2. While the ledger takes writes and the usage counter can be read,
    [recordUsage(keyId)] raises what [getKeyUsage(keyId)] returns by exactly
    one; it changes what [getKeyUsage] returns for no other credential and
    what [getKeyErrorCount] returns for none. *)
Theorem recordUsage_read_back env keyId w :
  ledgerWritable env w →
  redisFails env (GET (usageKeyOf keyId (getTodayString (now w)))) = false →
  let w' := snd (recordUsage env keyId w) in
  (∃ u, fst (getKeyUsage env keyId w) = Ok u ∧
        fst (getKeyUsage env keyId w') = Ok (u + 1)) ∧
  (∀ other, other ≠ keyId →
     fst (getKeyUsage env other w') = fst (getKeyUsage env other w)) ∧
  (∀ any, fst (getKeyErrorCount env any w') = fst (getKeyErrorCount env any w)).
Proof.
  intros [Hconn Hincr] Hget.
  destruct (recordUsage_run env keyId w) as (r' & Hrun & Hstr).
  rewrite Hrun. simpl in Hstr |- *. rewrite Hconn, Hincr in Hstr. simpl in Hstr.
  split; [| split].
  - exists (usageCount w keyId (getTodayString (now w))).
    rewrite !getKeyUsage_run. simpl. rewrite Hconn, Hget. simpl.
    split; [done |]. unfold usageCount. simpl. rewrite Hstr, lookup_insert_eq. done.
  - intros other Hne. rewrite !getKeyUsage_run. simpl.
    unfold usageCount. simpl. rewrite Hstr, lookup_insert_ne; [done |].
    intros Heq. by apply usageKeyOf_inj in Heq.
  - intros any. rewrite !getKeyErrorCount_run. simpl.
    unfold errorCount. simpl. rewrite Hstr, lookup_insert_ne; [done |].
    apply usageKey_not_errorKey.
Qed.

Lemma recordUsage_read_back_witness :
  let env := healthyEnv JNull in
  let w := sampleWorld {[ "usage:key_1:2024-01-15" := 41 ]} in
  let w' := snd (recordUsage env "key_1" w) in
  (∃ u, fst (getKeyUsage env "key_1" w) = Ok u ∧
        fst (getKeyUsage env "key_1" w') = Ok (u + 1)) ∧
  (∀ other, other ≠ "key_1" →
     fst (getKeyUsage env other w') = fst (getKeyUsage env other w)) ∧
  (∀ any, fst (getKeyErrorCount env any w') = fst (getKeyErrorCount env any w)).
Proof.
  intros env w.
  apply (recordUsage_read_back env "key_1" w).
  - split; [reflexivity | intros k; reflexivity].
  - reflexivity.
Defined.

(** X3. While the ledger takes writes, [recordError(keyId)] adds one to the
    error count of the day and resolves with the new count, or with
    [undefined] when the EXPIRE that follows the INCR is rejected; when the
    counter can be read, [getKeyErrorCount] returns the new count
    afterwards.  No usage reading changes.  The error that brings the count
    to 3 closes the credential: [isKeyAvailable] answers false and the
    selector leaves the credential out, whatever its usage. *)
Theorem recordError_third_strike env cfg keyId w :
  ledgerWritable env w →
  let today := getTodayString (now w) in
  let run := recordError env keyId w in
  fst run = (if redisFails env (EXPIRE (errorKeyOf keyId today) (48 * 60 * 60))
             then Ok None else Ok (Some (errorCount w keyId today + 1))) ∧
  (redisFails env (GET (errorKeyOf keyId today)) = false →
   fst (getKeyErrorCount env keyId w) = Ok (errorCount w keyId today) ∧
   fst (getKeyErrorCount env keyId (snd run)) = Ok (errorCount w keyId today + 1)) ∧
  (∀ any, fst (getKeyUsage env any (snd run)) = fst (getKeyUsage env any w)) ∧
  (2 <= errorCount w keyId today →
   fst (isKeyAvailable env cfg keyId (snd run)) = Ok false ∧
   ∀ c l, c ∈ keys cfg → id c = keyId →
     fst (getAllAvailableKeys env cfg (snd run)) = Ok l → ¬ appears c l).
Proof.
  intros [Hconn Hincr] today run.
  assert (∃ r', run =
                  (if redisFails env (EXPIRE (errorKeyOf keyId today) (48 * 60 * 60))
                   then Ok None else Ok (Some (errorCount w keyId today + 1)),
                   setRedis r' w) ∧
                strings r' = <[errorKeyOf keyId today := errorCount w keyId today + 1]>
                               (strings (redis w))) as (r' & Hrun & Hstr).
  { subst run. unfold recordError, redisIncr, redisExpire. unfold_monad.
    rewrite Hconn. simpl. fold today. rewrite Hincr. simpl.
    destruct (redisFails env (EXPIRE _ _)); eexists; (split; [reflexivity | done]). }
  rewrite Hrun. simpl.
  assert (errorCount (setRedis r' w) keyId today = errorCount w keyId today + 1) as Hcount.
  { unfold errorCount at 1. simpl. by rewrite Hstr, lookup_insert_eq. }
  split; [done |]. split; [| split].
  - intros Hget. rewrite !getKeyErrorCount_run. simpl. fold today.
    rewrite Hconn, Hget, Hcount. done.
  - intros any. rewrite !getKeyUsage_run. simpl.
    unfold usageCount. simpl. rewrite Hstr, lookup_insert_ne; [done |].
    intros Heq. symmetry in Heq. by apply usageKey_not_errorKey in Heq.
  - intros Htwo. split.
    + rewrite isKeyAvailable_run. simpl. fold today. rewrite Hcount.
      unfold maxErrors. rewrite (bool_decide_eq_false_2 (_ + 1 < 3)) by lia.
      by rewrite !andb_false_r.
    + intros c l Hc Hid Hl Happ.
      apply (selector_appears _ _ _ _ _ Hc Hl) in Happ as (_ & _ & He).
      simpl in He. fold today in He. rewrite Hid, Hcount in He. unfold maxErrors in He. lia.
Qed.

Lemma recordError_third_strike_witness :
  let env := healthyEnv JNull in
  let w := sampleWorld {[ "errors:key_1:2024-01-15" := 2 ]} in
  let run := recordError env "key_1" w in
  fst run = Ok (Some 3) ∧
  (redisFails env (GET "errors:key_1:2024-01-15") = false →
   fst (getKeyErrorCount env "key_1" w) = Ok 2 ∧
   fst (getKeyErrorCount env "key_1" (snd run)) = Ok 3) ∧
  (∀ any, fst (getKeyUsage env any (snd run)) = fst (getKeyUsage env any w)) ∧
  (2 <= 2 →
   fst (isKeyAvailable env sampleConfig "key_1" (snd run)) = Ok false ∧
   ∀ c l, c ∈ keys sampleConfig → id c = "key_1" →
     fst (getAllAvailableKeys env sampleConfig (snd run)) = Ok l → ¬ appears c l).
Proof.
  intros env w.
  apply (recordError_third_strike env sampleConfig "key_1" w).
  split; [reflexivity | intros k; reflexivity].
Defined.

(** X4. [isKeyAvailable] and the selector agree: for a configured
    credential, [isKeyAvailable(id)] resolves with true exactly when the
    credential is in the list [getAllAvailableKeys] returns at that moment;
    when the selector throws (Redis not connected) it resolves with false.
    It never throws and changes nothing. *)
Theorem isKeyAvailable_agrees_with_selector env cfg w c :
  c ∈ keys cfg →
  match fst (getAllAvailableKeys env cfg w) with
  | Ok l => fst (isKeyAvailable env cfg (id c) w) = Ok true ↔ appears c l
  | Throw _ => fst (isKeyAvailable env cfg (id c) w) = Ok false
  end ∧
  (∃ b, isKeyAvailable env cfg (id c) w = (Ok b, w)).
Proof.
  intros Hc. split; [| rewrite isKeyAvailable_run; eauto].
  destruct (fst (getAllAvailableKeys env cfg w)) as [l|e] eqn:Hl.
  - rewrite (selector_appears _ _ _ _ _ Hc Hl). rewrite isKeyAvailable_true.
    assert (redisConnected w = true) as Hconn.
    { rewrite getAllAvailableKeys_run in Hl. by destruct (redisConnected w). }
    simpl. rewrite Hconn. tauto.
  - rewrite getAllAvailableKeys_run in Hl. rewrite isKeyAvailable_run.
    by destruct (redisConnected w).
Qed.

Lemma isKeyAvailable_agrees_with_selector_witness :
  let env := healthyEnv JNull in
  let w := sampleWorld {[ "usage:key_2:2024-01-15" := 2000 ]} in
  (fst (isKeyAvailable env sampleConfig "key_2" w) = Ok true ↔
     appears sampleKey2 [available sampleKey1 0 0]) ∧
  (∃ b, isKeyAvailable env sampleConfig "key_2" w = (Ok b, w)).
Proof.
  intros env w.
  apply (isKeyAvailable_agrees_with_selector env sampleConfig w sampleKey2).
  rewrite sampleConfig_keys. apply list_elem_of_further, list_elem_of_here.
Defined.

(** ** getAvailableKey *)

Section LeastUsedFacts.
Variable env : Env.
Variable cfg : Config.

(** One iteration, in terms of what the selector's loop would push. *)
Lemma considerKey_run today k state w :
  considerKey env cfg today k state w =
    (Ok (match probed env cfg today w k with
         | [] => state
         | a :: _ =>
             if ltNumber (currentUsage a) state.2 ||
                (eqNumber (currentUsage a) state.2 &&
                 ltNumber (priority k) (priorityOrInfinity state.1))
             then (Some k, Some (currentUsage a)) else state
         end), w).
Proof.
  unfold considerKey, probed, usageCount, errorCount. unfold_monad.
  rewrite readCounter_run.
  destruct (redisFails env (GET (usageKeyOf _ _))); [done |].
  rewrite readCounter_run.
  destruct (redisFails env (GET (errorKeyOf _ _))); [done |].
  destruct (decide (maxErrors <= _)) as [He|He].
  { destruct (decide (_ ∧ _)) as [[_ H]|_]; [lia | done]. }
  destruct (decide (default 0 (strings (redis w) !! usageKeyOf (id k) today) < dailyLimit cfg))
    as [Hu|Hu].
  - destruct (decide (_ ∧ _)) as [_|H]; [| lia]. simpl. by destruct (_ || _).
  - destruct (decide (_ ∧ _)) as [[H _]|_]; [lia | done].
Qed.

Lemma probed_cases today w k :
  probed env cfg today w k = [] ∨
  ∃ a, probed env cfg today w k = [a] ∧ keyInfo a = k.
Proof.
  unfold probed. repeat case_fails; auto.
  destruct (decide _); [right | by left]. eauto.
Qed.

Lemma considerKeys_run today w ks seen state :
  leastOf env cfg today w seen state →
  ∃ state', considerKeys env cfg today ks state w = (Ok state', w) ∧
            leastOf env cfg today w (seen ++ ks) state'.
Proof.
  revert seen state. induction ks as [|k ks IH]; intros seen state Hinv; simpl.
  - exists state. by rewrite app_nil_r.
  - unfold_monad. rewrite considerKey_run.
    replace (seen ++ k :: ks) with ((seen ++ [k]) ++ ks) by (by rewrite <- app_assoc).
    apply IH. unfold leastOf in *. rewrite bind_app. simpl. rewrite app_nil_r.
    destruct (probed_cases today w k) as [->|(a & -> & Hk)].
    { rewrite app_nil_r. done. }
    destruct state as [[k0|] [u|]]; try done; simpl.
    + destruct Hinv as (a0 & Ha0 & Hk0 & Hu0 & Hmin).
      destruct (_ || _) eqn:Hcond.
      * exists a. split; [apply elem_of_app; right; apply list_elem_of_here |].
        repeat split; [done |].
        intros b [Hb| ->%list_elem_of_singleton]%elem_of_app; [| lia].
        specialize (Hmin b Hb).
        apply orb_true_iff in Hcond as [Hlt|[Heq _]%andb_true_iff].
        -- apply bool_decide_eq_true in Hlt. lia.
        -- apply bool_decide_eq_true in Heq. lia.
      * exists a0. split; [apply elem_of_app; by left |]. repeat split; [done.. |].
        intros b [Hb| ->%list_elem_of_singleton]%elem_of_app; [auto |].
        apply orb_false_iff in Hcond as [Hlt _].
        apply bool_decide_eq_false in Hlt. lia.
    + rewrite Hinv. simpl. exists a. split; [apply list_elem_of_here |].
      repeat split; [done |].
      intros b ->%list_elem_of_singleton. lia.
Qed.

End LeastUsedFacts.

(** X5. [getAvailableKey] reads and changes nothing.  With Redis connected
    it returns a credential exactly when [getAllAvailableKeys] returns a
    non-empty list at that moment; the credential it returns is in that
    list and none in the list has a lower usage.  When the list is empty it
    throws the all-spent error. *)
Theorem getAvailableKey_least_used env cfg w :
  redisConnected w = true →
  ∃ l, fst (getAllAvailableKeys env cfg w) = Ok l ∧
       snd (getAvailableKey env cfg w) = w ∧
       match fst (getAvailableKey env cfg w) with
       | Ok k => ∃ a, a ∈ l ∧ keyInfo a = k ∧ ∀ b, b ∈ l → currentUsage a <= currentUsage b
       | Throw e => e = Error allSpentMessage ∧ l = []
       end.
Proof.
  intros Hconn. rewrite getAllAvailableKeys_run, Hconn.
  eexists. split; [reflexivity |].
  unfold getAvailableKey. rewrite Hconn. simpl. unfold_monad.
  destruct (considerKeys_run env cfg (getTodayString (now w)) w (keys cfg) [] (None, None))
    as (state' & -> & Hinv); [done |].
  simpl in Hinv. destruct state' as [[k|] [u|]]; try done; simpl.
  - split; [done |]. destruct Hinv as (a & Ha & Hk & Hu & Hmin).
    exists a. rewrite jsSort_Permutation. split; [done |]. split; [done |].
    intros b Hb. rewrite jsSort_Permutation in Hb. rewrite Hu. auto.
  - split; [done |]. split; [done |]. by rewrite Hinv.
Qed.

Lemma getAvailableKey_least_used_witness :
  let env := healthyEnv JNull in
  let w := sampleWorld {[ "usage:key_1:2024-01-15" := 5 ]} in
  ∃ l, fst (getAllAvailableKeys env sampleConfig w) = Ok l ∧
       snd (getAvailableKey env sampleConfig w) = w ∧
       match fst (getAvailableKey env sampleConfig w) with
       | Ok k => ∃ a, a ∈ l ∧ keyInfo a = k ∧ ∀ b, b ∈ l → currentUsage a <= currentUsage b
       | Throw e => e = Error allSpentMessage ∧ l = []
       end.
Proof.
  intros env w. apply (getAvailableKey_least_used env sampleConfig w). reflexivity.
Defined.

Example getAvailableKey_example :
  fst (getAvailableKey (healthyEnv JNull) sampleConfig
         (sampleWorld {[ "usage:key_1:2024-01-15" := 5 ]})) = Ok sampleKey2 ∧
  fst (getAvailableKey (healthyEnv JNull) sampleConfig exhaustedWorld) =
    Throw (Error allSpentMessage).
Proof. vm_compute. auto. Qed.

Lemma probed_selectable env cfg w k u :
  selectableAt env cfg w k u →
  probed env cfg (getTodayString (now w)) w k =
    [available k u (errorCount w (id k) (getTodayString (now w)))].
Proof.
  intros ([Hr1 Hr2] & Hu & Hlt & He). unfold probed. rewrite Hr1, Hr2, Hu.
  destruct (decide _) as [_|H]; [done | tauto].
Qed.

Lemma sortInsert_head {A} (compare : A → A → Z) (x : A) (l : list A) :
  (∀ y, y ∈ l → compare x y <= 0) → sortInsert compare x l = x :: l.
Proof.
  destruct l as [|y l]; simpl; [done |]. intros H.
  destruct (decide (compare x y <= 0)) as [_|Hn]; [done |].
  destruct Hn. apply H, list_elem_of_here.
Qed.

(** X6. The tie-break of [getAvailableKey] does not favour the first
    credential: when the first two configured credentials (priority 0 and a
    higher one) can both be selected and tie for the least usage, it returns
    the second, because [selectedKey?.priority || Infinity] reads priority 0
    as [Infinity].  [getAllAvailableKeys] puts the first credential at the
    head of its list in the same situation. *)
Theorem getAvailableKey_tie env cfg w k1 k2 rest u :
  redisConnected w = true →
  keys cfg = k1 :: k2 :: rest →
  priority k1 = 0 → 0 < priority k2 →
  (∀ k, k ∈ rest →
     priority k2 <= priority k ∧ u <= usageCount w (id k) (getTodayString (now w))) →
  selectableAt env cfg w k1 u →
  selectableAt env cfg w k2 u →
  fst (getAvailableKey env cfg w) = Ok k2 ∧
  ∃ a l, fst (getAllAvailableKeys env cfg w) = Ok (a :: l) ∧ keyInfo a = k1.
Proof.
  intros Hconn Hkeys Hp1 Hp2 Hrest Hs1 Hs2.
  pose proof (probed_selectable _ _ _ _ _ Hs1) as Hpr1.
  pose proof (probed_selectable _ _ _ _ _ Hs2) as Hpr2.
  set (today := getTodayString (now w)) in *.
  split.
  - unfold getAvailableKey. rewrite Hconn, Hkeys. simpl. fold today. unfold_monad.
    rewrite considerKey_run, Hpr1. simpl.
    rewrite considerKey_run, Hpr2. simpl.
    rewrite (bool_decide_eq_false_2 (u < u)) by lia.
    rewrite (bool_decide_eq_true_2 (u = u)) by done.
    destruct (decide (priority k1 = 0)) as [_|Hn]; [| done]. simpl.
    assert (∀ ks, (∀ k, k ∈ ks → priority k2 <= priority k ∧ u <= usageCount w (id k) today) →
              considerKeys env cfg today ks (Some k2, Some u) w = (Ok (Some k2, Some u), w))
      as Hloop.
    { induction ks as [|k ks IH]; intros Hks; simpl; [done |].
      unfold_monad. rewrite considerKey_run.
      destruct (Hks k (list_elem_of_here _ _)) as [Hpk Huk].
      assert (match probed env cfg today w k with
              | [] => (Some k2, Some u)
              | a :: _ =>
                  if ltNumber (currentUsage a) (Some k2, Some u).2 ||
                     (eqNumber (currentUsage a) (Some k2, Some u).2 &&
                      ltNumber (priority k) (priorityOrInfinity (Some k2, Some u).1))
                  then (Some k, Some (currentUsage a)) else (Some k2, Some u)
              end = (Some k2, Some u)) as ->.
      { unfold probed. repeat case_fails; try done.
        destruct (decide _); [| done]. simpl.
        rewrite (bool_decide_eq_false_2 (usageCount w (id k) today < u)) by lia.
        destruct (decide (priority k2 = 0)); [lia |]. simpl.
        rewrite (bool_decide_eq_false_2 (priority k < priority k2)) by lia.
        by rewrite andb_false_r. }
      apply IH. intros k' Hk'. apply Hks. by apply list_elem_of_further. }
    rewrite (Hloop rest Hrest). done.
  - rewrite getAllAvailableKeys_run, Hconn, Hkeys. fold today. simpl.
    rewrite Hpr1. simpl. rewrite sortInsert_head.
    + eexists _, _. split; [reflexivity | done].
    + intros y Hy. rewrite jsSort_Permutation in Hy.
      apply elem_of_app in Hy as [Hy|Hy].
      * rewrite Hpr2 in Hy. apply list_elem_of_singleton in Hy as ->.
        unfold compareKeys. simpl. destruct (decide _); lia.
      * apply list_elem_of_bind in Hy as (k & Hy & Hk).
        apply elem_of_probed in Hy as (-> & _).
        destruct (Hrest k Hk) as [Hpk _].
        unfold compareKeys. simpl. destruct (decide _); lia.
Qed.

Lemma getAvailableKey_tie_witness :
  let env := healthyEnv JNull in
  let w := sampleWorld {[ "usage:key_1:2024-01-15" := 7; "usage:key_2:2024-01-15" := 7 ]} in
  fst (getAvailableKey env sampleConfig w) = Ok sampleKey2 ∧
  ∃ a l, fst (getAllAvailableKeys env sampleConfig w) = Ok (a :: l) ∧ keyInfo a = sampleKey1.
Proof.
  intros env w.
  apply (getAvailableKey_tie env sampleConfig w sampleKey1 sampleKey2 [] 7).
  - reflexivity.
  - vm_compute. reflexivity.
  - reflexivity.
  - reflexivity.
  - intros k Hk. by apply elem_of_nil in Hk.
  - vm_compute. repeat split; discriminate.
  - vm_compute. repeat split; discriminate.
Defined.

(** ** getKeyByRoundRobin *)

Section RoundRobinFacts.
Variable env : Env.
Variable cfg : Config.

Lemma roundRobin_run w i rem j0 c r i' w' :
  let n := length (keys cfg) in
  (i < n)%nat → (rem + j0 = n)%nat → c = ((i + j0) `mod` n)%nat →
  (∀ j' k', (j' < j0)%nat → keys cfg !! ((i + j') `mod` n)%nat = Some k' →
            ¬ underLimit env cfg w k') →
  roundRobin env cfg (getTodayString (now w)) rem c w = (r, i', w') →
  w' = w ∧ (i' < n)%nat ∧
  match r with
  | Ok k =>
      ∃ j, (j < n)%nat ∧ keys cfg !! ((i + j) `mod` n)%nat = Some k ∧
           i' = ((i + j + 1) `mod` n)%nat ∧ underLimit env cfg w k ∧
           ∀ j' k', (j' < j)%nat → keys cfg !! ((i + j') `mod` n)%nat = Some k' →
                    ¬ underLimit env cfg w k'
  | Throw e =>
      e = Error roundRobinSpentMessage ∧ i' = i ∧
      ∀ k, k ∈ keys cfg → ¬ underLimit env cfg w k
  end.
Proof.
  intros n Hi. revert j0 c. induction rem as [|rem IH]; intros j0 c Hrem Hc Hseen; simpl.
  - intros [= <- <- <-]. assert (j0 = n) as -> by lia.
    assert (c = i) as ->.
    { rewrite Hc. replace (i + n)%nat with (i + 1 * n)%nat by lia.
      rewrite Nat.Div0.mod_add. by apply Nat.mod_small. }
    split; [done |]. split; [done |]. split; [done |]. split; [done |].
    intros k Hk. apply list_elem_of_lookup in Hk as [p Hp].
    pose proof (lookup_lt_Some _ _ _ Hp) as Hlt. fold n in Hlt.
    destruct (decide (i ≤ p)%nat).
    + apply (Hseen (p - i)%nat); [lia |].
      replace (i + (p - i))%nat with p by lia. by rewrite Nat.mod_small.
    + apply (Hseen (p + n - i)%nat); [lia |].
      replace (i + (p + n - i))%nat with (p + 1 * n)%nat by lia.
      rewrite Nat.Div0.mod_add. by rewrite Nat.mod_small.
  - assert (c < n)%nat as Hcn by (rewrite Hc; apply Nat.mod_upper_bound; lia).
    destruct (lookup_lt_is_Some_2 (keys cfg) c Hcn) as [keyInfo Hlook].
    fold n. rewrite Hlook, readCounter_run.
    assert (((c + 1) `mod` n)%nat = ((i + (j0 + 1)) `mod` n)%nat) as Hnext.
    { rewrite Hc, Nat.Div0.add_mod_idemp_l. f_equal. lia. }
    assert (∀ j' k', (j' < j0 + 1)%nat → keys cfg !! ((i + j') `mod` n)%nat = Some k' →
                     ¬ underLimit env cfg w keyInfo → ¬ underLimit env cfg w k') as Hmore.
    { intros j' k' Hj' Hk' Hnot. destruct (decide (j' = j0)) as [->|Hne].
      - rewrite <- Hc, Hlook in Hk'. by injection Hk' as <-.
      - apply (Hseen j'); [lia | done]. }
    destruct (redisFails env (GET _)) eqn:Hget.
    + apply (IH (j0 + 1)%nat); [lia | done |].
      intros j' k' Hj' Hk'. apply (Hmore j' k' Hj' Hk').
      intros [Hr _]. congruence.
    + destruct (decide (_ < dailyLimit cfg)) as [Hlt|Hge].
      * intros [= <- <- <-]. split; [done |].
        split; [apply Nat.mod_upper_bound; lia |].
        exists j0. split; [lia |]. rewrite <- Hc. split; [done |].
        split; [rewrite Hnext; f_equal; lia |]. split; [done |].
        intros j' k' Hj'. by apply Hseen.
      * apply (IH (j0 + 1)%nat); [lia | done |].
        intros j' k' Hj' Hk'. apply (Hmore j' k' Hj' Hk').
        intros [_ Hu]. done.
Qed.

End RoundRobinFacts.

(** X7. [getKeyByRoundRobin] with Redis connected and the cursor inside the
    key list: it reads only, leaves the cursor inside the list, and tries
    the credentials in cyclic order from the cursor on.  It returns the
    first one whose usage counter can be read and is below the daily limit,
    with the cursor moved just past it; when no credential passes it throws
    and the cursor is back where it started.  Error counters are never
    consulted. *)
Theorem getKeyByRoundRobin_rotation env cfg w i r i' w' :
  let n := length (keys cfg) in
  redisConnected w = true → (i < n)%nat →
  getKeyByRoundRobin env cfg i w = (r, i', w') →
  w' = w ∧ (i' < n)%nat ∧
  match r with
  | Ok k =>
      ∃ j, (j < n)%nat ∧ keys cfg !! ((i + j) `mod` n)%nat = Some k ∧
           i' = ((i + j + 1) `mod` n)%nat ∧ underLimit env cfg w k ∧
           ∀ j' k', (j' < j)%nat → keys cfg !! ((i + j') `mod` n)%nat = Some k' →
                    ¬ underLimit env cfg w k'
  | Throw e =>
      e = Error roundRobinSpentMessage ∧ i' = i ∧
      ∀ k, k ∈ keys cfg → ¬ underLimit env cfg w k
  end.
Proof.
  intros n Hconn Hi. unfold getKeyByRoundRobin. rewrite Hconn. simpl.
  apply (roundRobin_run env cfg w i (length (keys cfg)) 0%nat i); [done | lia | |].
  - rewrite Nat.add_0_r. symmetry. by apply Nat.mod_small.
  - intros j' k' Hj'. lia.
Qed.

Lemma getKeyByRoundRobin_rotation_witness :
  let env := healthyEnv JNull in
  let w := sampleWorld {[ "usage:key_2:2024-01-15" := 2000; "errors:key_1:2024-01-15" := 3 ]} in
  w = w ∧ (1 < 2)%nat ∧
  ∃ j, (j < 2)%nat ∧ keys sampleConfig !! ((1 + j) `mod` 2)%nat = Some sampleKey1 ∧
       1%nat = ((1 + j + 1) `mod` 2)%nat ∧ underLimit env sampleConfig w sampleKey1 ∧
       ∀ j' k', (j' < j)%nat → keys sampleConfig !! ((1 + j') `mod` 2)%nat = Some k' →
                ¬ underLimit env sampleConfig w k'.
Proof.
  intros env w.
  apply (getKeyByRoundRobin_rotation env sampleConfig w 1%nat (Ok sampleKey1) 1%nat w).
  - reflexivity.
  - vm_compute. lia.
  - vm_compute. reflexivity.
Defined.

(** ** resetKeyUsage *)

Lemma resetKeyUsage_run env keyId w :
  let today := getTodayString (now w) in
  ∃ r', resetKeyUsage env keyId w = (Ok tt, setRedis r' w) ∧
        (∀ k, k ≠ usageKeyOf keyId today → k ≠ timeKeyOf keyId today →
              strings r' !! k = strings (redis w) !! k) ∧
        (redisConnected w = true →
         redisFails env (DEL [usageKeyOf keyId today]) = false →
         strings r' !! usageKeyOf keyId today = None).
Proof.
  intros today. unfold resetKeyUsage, redisDel. unfold_monad.
  destruct w as [t c r ca p s n tr]. simpl. subst today. simpl.
  destruct c; simpl; [| exists r; split; [done | split; [done | intros [=]]]].
  destruct (redisFails env (DEL [usageKeyOf _ _])) eqn:Hd1; simpl.
  { exists r. split; [done |]. split; [done | intros _ [=]]. }
  destruct (redisFails env (DEL [timeKeyOf _ _])) eqn:Hd2; simpl;
    (eexists; split; [reflexivity |]); simpl; (split; [| intros _ _]).
  - intros k Hu _. by rewrite lookup_delete_ne.
  - apply lookup_delete_eq.
  - intros k Hu Ht. by rewrite !lookup_delete_ne.
  - rewrite lookup_delete_ne by (symmetry; apply usageKey_not_timeKey).
    apply lookup_delete_eq.
Qed.

(** X8. [resetKeyUsage(keyId)] never throws.  With Redis connected and the
    DEL of the usage key served, the usage of [keyId] reads 0 afterwards.
    It leaves the usage of every other credential and every error counter
    as they were, so a credential closed by three errors stays closed after
    its usage is reset. *)
Theorem resetKeyUsage_keeps_errors env cfg keyId w :
  let today := getTodayString (now w) in
  let w' := snd (resetKeyUsage env keyId w) in
  fst (resetKeyUsage env keyId w) = Ok tt ∧
  (redisConnected w = true → redisFails env (DEL [usageKeyOf keyId today]) = false →
   fst (getKeyUsage env keyId w') = Ok 0) ∧
  (∀ other, other ≠ keyId → usageCount w' other today = usageCount w other today) ∧
  (∀ any, errorCount w' any today = errorCount w any today) ∧
  (maxErrors <= errorCount w keyId today →
   fst (isKeyAvailable env cfg keyId w') = Ok false).
Proof.
  intros today w'. subst w'.
  destruct (resetKeyUsage_run env keyId w) as (r' & Hrun & Hother & Hself).
  fold today in Hother, Hself. rewrite Hrun. simpl.
  assert (∀ any, errorCount (setRedis r' w) any today = errorCount w any today) as Herr.
  { intros any. unfold errorCount. simpl. rewrite Hother; [done | |].
    - intros H. symmetry in H. by apply usageKey_not_errorKey in H.
    - apply errorKey_not_timeKey. }
  split; [done |]. split; [| split; [| split; [done |]]].
  - intros Hconn Hdel. rewrite getKeyUsage_run. simpl. fold today.
    unfold usageCount. simpl. rewrite (Hself Hconn Hdel). simpl.
    by destruct (_ && _).
  - intros other Hne. unfold usageCount. simpl. rewrite Hother; [done | |].
    + intros H. by apply usageKeyOf_inj in H.
    + apply usageKey_not_timeKey.
  - intros Hblocked. rewrite isKeyAvailable_run. simpl. fold today. rewrite Herr.
    rewrite (bool_decide_eq_false_2 (_ < maxErrors)) by lia.
    by rewrite !andb_false_r.
Qed.

Example resetKeyUsage_example :
  let env := healthyEnv JNull in
  let w := sampleWorld {[ "usage:key_1:2024-01-15" := 1999; "errors:key_1:2024-01-15" := 3 ]} in
  let w' := snd (resetKeyUsage env "key_1" w) in
  fst (getKeyUsage env "key_1" w') = Ok 0 ∧
  fst (getKeyErrorCount env "key_1" w') = Ok 3 ∧
  fst (isKeyAvailable env sampleConfig "key_1" w') = Ok false.
Proof. vm_compute. auto. Qed.

(** ** getStats *)

Lemma sumZ_app (l1 l2 : list Z) : sumZ (l1 ++ l2) = sumZ l1 + sumZ l2.
Proof. unfold sumZ. induction l1 as [|x l1 IH]; simpl; lia. Qed.

Lemma sumZ_Permutation (l1 l2 : list Z) : l1 ≡ₚ l2 → sumZ l1 = sumZ l2.
Proof. unfold sumZ. induction 1; simpl; lia. Qed.

Lemma countIf_app {A} (f : A → bool) (l1 l2 : list A) :
  countIf f (l1 ++ l2) = countIf f l1 + countIf f l2.
Proof. unfold countIf. rewrite List.filter_app, length_app. lia. Qed.

Lemma countIf_Permutation {A} (f : A → bool) (l1 l2 : list A) :
  l1 ≡ₚ l2 → countIf f l1 = countIf f l2.
Proof.
  unfold countIf. induction 1 as [|x l l' _ IH|x y l|l l' l'' _ IH1 _ IH2]; simpl.
  - done.
  - destruct (f x); simpl; lia.
  - destruct (f x), (f y); simpl; lia.
  - lia.
Qed.

Lemma countIf_fmap {A B} (f : B → bool) (g : A → B) (l : list A) :
  countIf f (g <$> l) = countIf (f ∘ g) l.
Proof.
  unfold countIf, compose. f_equal.
  induction l as [|x l IH]; [done |].
  rewrite fmap_cons. simpl. destruct (f (g x)); simpl; by rewrite IH.
Qed.

Lemma countIf_bounds {A} (f : A → bool) (l : list A) :
  0 <= countIf f l <= Z.of_nat (length l).
Proof.
  unfold countIf. induction l as [|x l IH]; simpl; [lia |].
  destruct (f x); simpl; lia.
Qed.

Section StatsFacts.
Variable env : Env.
Variable cfg : Config.
Variable tz : Z.
Variable roundedPercent : Z → Z → string.

Lemma readCounters_run today k w :
  readCounters env today k w = (Ok (countersRead env today w k), w).
Proof.
  unfold readCounters, countersRead, redisGet, usageCount, errorCount. unfold_monad.
  destruct (redisFails env (GET (usageKeyOf _ _))); [done |].
  by destruct (redisFails env (GET (errorKeyOf _ _))).
Qed.

Lemma countKeys_run w ks stats :
  countKeys env cfg tz roundedPercent (getTodayString (now w)) ks stats w =
    (Ok (foldl (countStep env cfg tz roundedPercent w) stats ks), w).
Proof.
  revert stats. induction ks as [|k ks IH]; intros stats; simpl; [done |].
  unfold_monad. rewrite readCounters_run. apply IH.
Qed.

Lemma report_exclusive w k :
  KeyReport.blockedByErrors (reportOf env cfg tz roundedPercent w k) = true →
  KeyReport.available (reportOf env cfg tz roundedPercent w k) = false.
Proof. unfold reportOf, keyReport. simpl. intros ->. by rewrite andb_false_r. Qed.

(** The [stats] object after the loop has gone through [ks]. *)
Lemma countKeys_tally w ks stats :
  let report := reportOf env cfg tz roundedPercent w in
  let stats' := foldl (countStep env cfg tz roundedPercent w) stats ks in
  ManagerStats.total stats' = ManagerStats.total stats ∧
  ManagerStats.available stats' =
    ManagerStats.available stats + countIf KeyReport.available (report <$> ks) ∧
  ManagerStats.blocked stats' =
    ManagerStats.blocked stats + countIf (negb ∘ KeyReport.available) (report <$> ks) ∧
  ManagerStats.errorBlocked stats' =
    ManagerStats.errorBlocked stats + countIf KeyReport.blockedByErrors (report <$> ks) ∧
  ManagerStats.usage stats' = ManagerStats.usage stats ++ (report <$> ks) ∧
  ManagerStats.totalRequestsToday stats' =
    ManagerStats.totalRequestsToday stats + sumZ (KeyReport.requests <$> (report <$> ks)) ∧
  ManagerStats.totalErrorsToday stats' =
    ManagerStats.totalErrorsToday stats + sumZ (KeyReport.errors <$> (report <$> ks)) ∧
  ManagerStats.mode stats' = ManagerStats.mode stats ∧
  ManagerStats.error stats' = ManagerStats.error stats.
Proof.
  intros report. revert stats. induction ks as [|k ks IH]; intros stats stats'; subst stats'.
  - unfold countIf, sumZ. simpl. rewrite app_nil_r. repeat split; lia.
  - cbn [foldl]. rewrite fmap_cons.
    destruct (IH (countStep env cfg tz roundedPercent w stats k))
      as (H1 & H2 & H3 & H4 & H5 & H6 & H7 & H8 & H9).
    rewrite H1, H2, H3, H4, H5, H6, H7, H8, H9. clear H1 H2 H3 H4 H5 H6 H7 H8 H9 IH.
    change (report k :: (report <$> ks)) with ([report k] ++ (report <$> ks)).
    rewrite !fmap_app, !countIf_app, !sumZ_app.
    pose proof (report_exclusive w k) as Hexcl. fold (report k) in Hexcl.
    unfold countStep, countKey. cbn [ManagerStats.total ManagerStats.available
      ManagerStats.blocked ManagerStats.errorBlocked ManagerStats.usage
      ManagerStats.totalRequestsToday ManagerStats.totalErrorsToday
      ManagerStats.mode ManagerStats.error].
    change (keyReport cfg tz roundedPercent k
              (countersRead env (getTodayString (now w)) w k).1
              (countersRead env (getTodayString (now w)) w k).2 (now w))
      with (report k).
    assert (KeyReport.requests (report k) =
            (countersRead env (getTodayString (now w)) w k).1) as Hreq by reflexivity.
    assert (KeyReport.errors (report k) =
            (countersRead env (getTodayString (now w)) w k).2) as Herr by reflexivity.
    unfold countIf, sumZ, compose. cbn [fmap list_fmap List.filter foldr length].
    rewrite Hreq, Herr.
    destruct (KeyReport.available (report k)) eqn:Ha;
      destruct (KeyReport.blockedByErrors (report k)) eqn:Hb;
      try (specialize (Hexcl eq_refl); discriminate);
      cbn [negb length]; rewrite <- ?app_assoc; repeat split; try done; lia.
Qed.

End StatsFacts.

Lemma countIf_split {A} (f : A → bool) (l : list A) :
  countIf f l + countIf (negb ∘ f) l = Z.of_nat (length l).
Proof.
  unfold countIf, compose. induction l as [|x l IH]; simpl; [done |].
  destruct (f x); simpl; lia.
Qed.

Lemma countIf_le {A} (f g : A → bool) (l : list A) :
  (∀ x, x ∈ l → f x = true → g x = true) → countIf f l <= countIf g l.
Proof.
  unfold countIf. induction l as [|x l IH]; intros H; simpl; [done |].
  assert (Z.of_nat (length (List.filter f l)) <= Z.of_nat (length (List.filter g l))) as Hl.
  { apply IH. intros y Hy. apply H. by apply list_elem_of_further. }
  specialize (H x (list_elem_of_here _ _)).
  destruct (f x), (g x); simpl; try lia; discriminate (H eq_refl).
Qed.

(** X9. [getStats] never throws and changes nothing.  With Redis connected
    its [usage] array holds one row per configured credential, sorted by
    priority; [available] and [blocked] count the rows that are and are not
    available and add up to [total]; [errorBlocked] counts the rows blocked
    by errors and never exceeds [blocked]; the two totals are the sums of
    the rows' requests and errors.  With Redis not connected it returns
    [total] with every count 0, no row, and the error text. *)
Theorem getStats_tally env cfg tz roundedPercent w :
  ∃ s, getStats env cfg tz roundedPercent w = (Ok s, w) ∧
    ManagerStats.total s = Z.of_nat (length (keys cfg)) ∧
    if redisConnected w then
      ManagerStats.error s = None ∧
      ManagerStats.usage s ≡ₚ reportOf env cfg tz roundedPercent w <$> keys cfg ∧
      StronglySorted (λ a b, KeyReport.priority a <= KeyReport.priority b)
        (ManagerStats.usage s) ∧
      ManagerStats.available s = countIf KeyReport.available (ManagerStats.usage s) ∧
      ManagerStats.blocked s = countIf (negb ∘ KeyReport.available) (ManagerStats.usage s) ∧
      ManagerStats.errorBlocked s =
        countIf KeyReport.blockedByErrors (ManagerStats.usage s) ∧
      ManagerStats.available s + ManagerStats.blocked s = ManagerStats.total s ∧
      0 <= ManagerStats.errorBlocked s <= ManagerStats.blocked s ∧
      ManagerStats.totalRequestsToday s =
        sumZ (KeyReport.requests <$> ManagerStats.usage s) ∧
      ManagerStats.totalErrorsToday s =
        sumZ (KeyReport.errors <$> ManagerStats.usage s)
    else
      ManagerStats.error s = Some "Redis连接不可用" ∧ ManagerStats.usage s = [] ∧
      ManagerStats.available s = 0 ∧ ManagerStats.blocked s = 0 ∧
      ManagerStats.errorBlocked s = 0 ∧
      ManagerStats.totalRequestsToday s = 0 ∧ ManagerStats.totalErrorsToday s = 0.
Proof.
  unfold getStats. destruct (redisConnected w); simpl.
  2:{ eexists. split; [reflexivity |]. simpl. repeat split. }
  unfold_monad. rewrite countKeys_run.
  eexists. split; [reflexivity |].
  match goal with |- context [foldl _ ?s0 _] =>
    destruct (countKeys_tally env cfg tz roundedPercent w (keys cfg) s0)
      as (H1 & H2 & H3 & H4 & H5 & H6 & H7 & H8 & H9)
  end.
  cbn [ManagerStats.total ManagerStats.available ManagerStats.blocked
       ManagerStats.errorBlocked ManagerStats.usage ManagerStats.totalRequestsToday
       ManagerStats.totalErrorsToday ManagerStats.mode ManagerStats.error] in *.
  rewrite H1, H2, H3, H4, H5, H6, H7, H9. clear H1 H2 H3 H4 H5 H6 H7 H8 H9.
  set (rows := reportOf env cfg tz roundedPercent w <$> keys cfg).
  assert (jsSort compareReports rows ≡ₚ rows) as Hperm by apply jsSort_Permutation.
  rewrite app_nil_l, !Z.add_0_l.
  rewrite !(countIf_Permutation _ _ _ Hperm).
  rewrite (sumZ_Permutation _ _ (fmap_Permutation KeyReport.requests _ _ Hperm)).
  rewrite (sumZ_Permutation _ _ (fmap_Permutation KeyReport.errors _ _ Hperm)).
  split; [done |]. split; [done |]. split; [done |]. split.
  { eapply StronglySorted_mono; [| apply (jsSort_StronglySorted compareReports)].
    - intros a b. unfold compareReports. lia.
    - intros a b. unfold compareReports. lia.
    - intros a b c. unfold compareReports. lia. }
  split; [done |]. split; [done |]. split; [done |]. split.
  { rewrite countIf_split. subst rows. by rewrite length_fmap. }
  split; [| done].
  split; [apply countIf_bounds |].
  apply countIf_le. intros r Hr. subst rows.
  apply list_elem_of_fmap in Hr as (k & -> & _). unfold compose.
  intros Hb. by rewrite (report_exclusive env cfg tz roundedPercent w k Hb).
Qed.

(** X10. The report and the selector.  The list [getAllAvailableKeys] returns
    is never longer than [available] of [getStats] at the same moment, and
    has exactly that length when the counters of every configured credential
    can be read.  (A credential whose counters cannot be read is left out by
    the selector, and reported with zero requests, zero errors and
    [available: true] by [getStats].) *)
Theorem getStats_counts_selectable env cfg tz roundedPercent w l :
  fst (getAllAvailableKeys env cfg w) = Ok l →
  ∃ s, fst (getStats env cfg tz roundedPercent w) = Ok s ∧
       Z.of_nat (length l) <= ManagerStats.available s ∧
       ((∀ k, k ∈ keys cfg → readable env (id k) (getTodayString (now w))) →
        Z.of_nat (length l) = ManagerStats.available s).
Proof.
  intros Hl.
  assert (redisConnected w = true) as Hconn.
  { rewrite getAllAvailableKeys_run in Hl. by destruct (redisConnected w). }
  destruct (getStats_tally env cfg tz roundedPercent w) as (s & Hrun & _ & Htally).
  exists s. rewrite Hrun. split; [done |]. rewrite Hconn in Htally.
  destruct Htally as (_ & Hperm & _ & Ha & _).
  rewrite Ha, (countIf_Permutation _ _ _ Hperm), countIf_fmap. clear Ha Hperm.
  rewrite getAllAvailableKeys_run, Hconn in Hl. simpl in Hl. injection Hl as <-.
  rewrite jsSort_Permutation.
  set (today := getTodayString (now w)).
  assert (∀ k, Z.of_nat (length (probed env cfg today w k)) <=
               countIf (KeyReport.available ∘ reportOf env cfg tz roundedPercent w) [k] ∧
               (readable env (id k) today →
                Z.of_nat (length (probed env cfg today w k)) =
                countIf (KeyReport.available ∘ reportOf env cfg tz roundedPercent w) [k]))
    as Hone.
  { intros k. unfold countIf, compose, reportOf, countersRead, keyReport, probed, readable.
    fold today. simpl. unfold maxErrors.
    destruct (redisFails env (GET (usageKeyOf (id k) today))); simpl.
    { split; [by repeat case_bool_decide | intros [[=] _]]. }
    destruct (redisFails env (GET (errorKeyOf (id k) today))); simpl.
    { split; [by repeat case_bool_decide | intros [_ [=]]]. }
    destruct (decide _) as [[Hu He]|Hn]; repeat case_bool_decide; simpl; split;
      try done; try lia. }
  induction (keys cfg) as [|k ks IH]; [done |].
  rewrite bind_cons, length_app, Nat2Z.inj_add.
  change (k :: ks) with ([k] ++ ks). rewrite countIf_app.
  destruct (Hone k) as [Hle Heq]. destruct IH as [IHle IHeq]. split; [lia |].
  intros Hread. rewrite Heq, IHeq; [done | |].
  - intros k' Hk'. apply Hread. by apply list_elem_of_further.
  - apply Hread, list_elem_of_here.
Qed.

Lemma getStats_counts_selectable_witness :
  let env := unreadable "usage:key_1:2024-01-15" in
  let w := sampleWorld ∅ in
  ∃ s, fst (getStats env sampleConfig 480 (λ _ _, "0") w) = Ok s ∧
       1 <= ManagerStats.available s ∧
       ((∀ k, k ∈ keys sampleConfig → readable env (id k) "2024-01-15") →
        1 = ManagerStats.available s).
Proof.
  intros env w.
  apply (getStats_counts_selectable env sampleConfig 480 (λ _ _, "0") w
           [available sampleKey2 0 0]).
  vm_compute. reflexivity.
Defined.

Example getStats_example :
  let s := fst (getStats (unreadable "usage:key_1:2024-01-15") sampleConfig 480 (λ _ _, "0")
                  (sampleWorld {[ "usage:key_2:2024-01-15" := 2000 ]})) in
  ManagerStats.available <$> (match s with Ok s => Some s | Throw _ => None end) = Some 1 ∧
  ManagerStats.blocked <$> (match s with Ok s => Some s | Throw _ => None end) = Some 1 ∧
  fst (getAllAvailableKeys (unreadable "usage:key_1:2024-01-15") sampleConfig
         (sampleWorld {[ "usage:key_2:2024-01-15" := 2000 ]})) = Ok [].
Proof. vm_compute. auto. Qed.

(** ** getRemainingQuota *)

Section QuotaReadFacts.
Variable env : Env.
Variable cfg : Config.

Lemma sumZ_cons (x : Z) (l : list Z) : sumZ (x :: l) = x + sumZ l.
Proof. reflexivity. Qed.

Lemma sumUsage_run w ks totalUsed :
  sumUsage env (getTodayString (now w)) ks totalUsed w =
    (Ok (totalUsed + sumZ (usageRead env w <$> ks)), w).
Proof.
  revert totalUsed. induction ks as [|k ks IH]; intros totalUsed; cbn [sumUsage].
  - unfold sumZ. simpl. by rewrite Z.add_0_r.
  - unfold_monad. unfold redisGet. rewrite fmap_cons, sumZ_cons.
    unfold usageRead at 1, usageCount.
    destruct (redisFails env (GET _)); rewrite IH; do 2 f_equal; lia.
Qed.

Lemma getRemainingQuota_run w :
  getRemainingQuota env cfg w =
    (Ok (if redisConnected w
         then Z.max 0 (Z.of_nat (length (keys cfg)) * dailyLimit cfg -
                       sumZ (usageRead env w <$> keys cfg))
         else 0), w).
Proof.
  unfold getRemainingQuota. destruct (redisConnected w); simpl; [| done].
  unfold_monad. by rewrite sumUsage_run.
Qed.

(** Charging one credential raises the sum over a list of credentials with
    distinct ids by one when the credential is in the list and its counter
    can be read. *)
Lemma usageRead_charged w r' keyId ks :
  let today := getTodayString (now w) in
  strings r' = <[usageKeyOf keyId today := usageCount w keyId today + 1]> (strings (redis w)) →
  NoDup (id <$> ks) →
  sumZ (usageRead env (setRedis r' w) <$> ks) =
    sumZ (usageRead env w <$> ks) +
    (if bool_decide (keyId ∈ id <$> ks) &&
        negb (redisFails env (GET (usageKeyOf keyId today)))
     then 1 else 0).
Proof.
  intros today Hstr. induction ks as [|k ks IH]; intros Hnd.
  - simpl. unfold sumZ. simpl. done.
  - rewrite !fmap_cons in *. apply NoDup_cons in Hnd as [Hk Hnd].
    specialize (IH Hnd).
    rewrite !sumZ_cons, IH. clear IH.
    unfold usageRead at 1 3, usageCount. simpl. fold today. rewrite Hstr.
    destruct (decide (keyId = id k)) as [->|Hne].
    + rewrite lookup_insert_eq. simpl.
      rewrite (bool_decide_eq_true_2 (id k ∈ id k :: _)) by apply list_elem_of_here.
      rewrite (bool_decide_eq_false_2 (id k ∈ id <$> ks)) by done. simpl.
      unfold usageCount. destruct (redisFails env (GET _)); simpl; lia.
    + rewrite lookup_insert_ne by (intros H; by apply usageKeyOf_inj in H).
      assert (bool_decide (keyId ∈ id k :: (id <$> ks)) = bool_decide (keyId ∈ id <$> ks))
        as ->.
      { apply bool_decide_ext. rewrite elem_of_cons. tauto. }
      lia.
Qed.

End QuotaReadFacts.

(** X11. With credentials of distinct ids, a ledger that takes writes and a
    readable usage counter, [recordUsage] for a configured credential lowers
    what [getRemainingQuota] returns by exactly one, down to 0 and no
    further. *)
Theorem getRemainingQuota_after_usage env cfg w c :
  ledgerWritable env w →
  NoDup (id <$> keys cfg) → c ∈ keys cfg →
  redisFails env (GET (usageKeyOf (id c) (getTodayString (now w)))) = false →
  ∃ q, fst (getRemainingQuota env cfg w) = Ok q ∧ 0 <= q ∧
       fst (getRemainingQuota env cfg (snd (recordUsage env (id c) w))) =
         Ok (Z.max 0 (q - 1)) ∧
       (Z.of_nat (length (keys cfg)) * dailyLimit cfg <=
          sumZ (usageRead env w <$> keys cfg) → q = 0).
Proof.
  intros [Hconn Hincr] Hnd Hc Hget.
  destruct (recordUsage_run env (id c) w) as (r' & Hrun & Hstr).
  rewrite Hrun. simpl in Hstr |- *. rewrite Hconn, Hincr in Hstr. simpl in Hstr.
  rewrite !getRemainingQuota_run. simpl. rewrite Hconn.
  rewrite (usageRead_charged env w r' (id c) (keys cfg) Hstr Hnd), Hget.
  rewrite bool_decide_eq_true_2 by (apply list_elem_of_fmap; eauto). simpl.
  eexists. split; [reflexivity |]. split; [lia |]. split; [f_equal; lia | lia].
Qed.

Lemma getRemainingQuota_after_usage_witness :
  let env := healthyEnv JNull in
  let w := sampleWorld {[ "usage:key_1:2024-01-15" := 41 ]} in
  ∃ q, fst (getRemainingQuota env sampleConfig w) = Ok q ∧ 0 <= q ∧
       fst (getRemainingQuota env sampleConfig (snd (recordUsage env "key_1" w))) =
         Ok (Z.max 0 (q - 1)) ∧
       (2 * 2000 <= sumZ (usageRead env w <$> keys sampleConfig) → q = 0).
Proof.
  intros env w.
  apply (getRemainingQuota_after_usage env sampleConfig w sampleKey1).
  - split; [reflexivity | intros k; reflexivity].
  - apply (bool_decide_unpack _). vm_compute. exact I.
  - rewrite sampleConfig_keys. apply list_elem_of_here.
  - reflexivity.
Defined.

Example getRemainingQuota_example :
  fst (getRemainingQuota (healthyEnv JNull) sampleConfig
         (sampleWorld {[ "usage:key_1:2024-01-15" := 41 ]})) = Ok 3959 ∧
  fst (getRemainingQuota (healthyEnv JNull) sampleConfig
         (sampleWorld {[ "usage:key_1:2024-01-15" := 4500 ]})) = Ok 0 ∧
  fst (getRemainingQuota (healthyEnv JNull) sampleConfig
         (setRedisConnected false (sampleWorld ∅))) = Ok 0.
Proof. vm_compute. auto. Qed.

Lemma countersRead_usage env w k :
  (countersRead env (getTodayString (now w)) w k).1 = usageRead env w k.
Proof.
  unfold countersRead, usageRead.
  destruct (redisFails env (GET (usageKeyOf _ _))); [done |].
  by destruct (redisFails env (GET (errorKeyOf _ _))).
Qed.

(** X12. [getRemainingQuota] never throws and changes nothing; what it
    returns is never negative and never more than the sum of
    [remainingRequests] over the rows [getStats] reports at the same moment
    (it is less when a credential has gone past its limit, and 0 when Redis
    is not connected). *)
Theorem getRemainingQuota_bounds env cfg tz roundedPercent w :
  ∃ q s, getRemainingQuota env cfg w = (Ok q, w) ∧
         getStats env cfg tz roundedPercent w = (Ok s, w) ∧
         0 <= q <= sumZ (KeyReport.remainingRequests <$> ManagerStats.usage s) ∧
         (redisConnected w = false → q = 0).
Proof.
  destruct (getStats_tally env cfg tz roundedPercent w) as (s & Hs & _ & Htally).
  rewrite getRemainingQuota_run. eexists _, s. split; [reflexivity |]. split; [done |].
  destruct (redisConnected w); [| destruct Htally as (_ & -> & _); done].
  split; [| done]. destruct Htally as (_ & Hperm & _).
  rewrite (sumZ_Permutation _ _ (fmap_Permutation KeyReport.remainingRequests _ _ Hperm)).
  clear Hperm Hs. split; [lia |].
  assert (Z.of_nat (length (keys cfg)) * dailyLimit cfg - sumZ (usageRead env w <$> keys cfg)
          <= sumZ (KeyReport.remainingRequests <$>
                     (reportOf env cfg tz roundedPercent w <$> keys cfg)) ∧
          0 <= sumZ (KeyReport.remainingRequests <$>
                       (reportOf env cfg tz roundedPercent w <$> keys cfg))) as [H1 H2];
    [| lia].
  induction (keys cfg) as [|k ks [IH1 IH2]]; [done |].
  rewrite !fmap_cons, !sumZ_cons.
  assert (KeyReport.remainingRequests (reportOf env cfg tz roundedPercent w k) =
          Z.max 0 (dailyLimit cfg - usageRead env w k)) as ->.
  { unfold reportOf, keyReport. simpl. by rewrite countersRead_usage. }
  rewrite length_cons. lia.
Qed.

(** ** ApiKeyManager.healthCheck *)

Section ManagerHealthFacts.
Variable env : Env.
Variable cfg : Config.

Lemma countIf_one {A} (f : A → bool) (x : A) : countIf f [x] = if f x then 1 else 0.
Proof. unfold countIf. simpl. by destruct (f x). Qed.

Lemma countAvailable_run w ks availableKeys :
  countAvailable env cfg (getTodayString (now w)) ks availableKeys w =
    (Ok (availableKeys + countIf (underLimitb env cfg w) ks), w).
Proof.
  revert availableKeys. induction ks as [|k ks IH]; intros availableKeys; cbn [countAvailable].
  - unfold countIf. simpl. by rewrite Z.add_0_r.
  - unfold_monad. unfold redisGet.
    change (k :: ks) with ([k] ++ ks). rewrite countIf_app, countIf_one.
    unfold underLimitb at 1, usageCount. simpl.
    destruct (redisFails env (GET _)); simpl.
    + rewrite IH. do 2 f_equal; lia.
    + destruct (decide _); rewrite IH; do 2 f_equal.
      * rewrite bool_decide_eq_true_2 by done. lia.
      * rewrite bool_decide_eq_false_2 by done. lia.
Qed.

Lemma managerHealthCheck_run w :
  managerHealthCheck env cfg w =
    (Ok (if redisConnected w
         then {| ManagerHealth.status :=
                   if decide (0 < countIf (underLimitb env cfg w) (keys cfg))
                   then "healthy" else "unhealthy";
                 ManagerHealth.error := None;
                 ManagerHealth.availableKeys := countIf (underLimitb env cfg w) (keys cfg);
                 ManagerHealth.totalKeys := Z.of_nat (length (keys cfg));
                 ManagerHealth.redisConnected := Some true |}
         else {| ManagerHealth.status := "unhealthy";
                 ManagerHealth.error := Some "Redis连接不可用";
                 ManagerHealth.availableKeys := 0;
                 ManagerHealth.totalKeys := Z.of_nat (length (keys cfg));
                 ManagerHealth.redisConnected := None |}), w).
Proof.
  unfold managerHealthCheck. destruct (redisConnected w) eqn:Hconn; simpl; [| done].
  unfold_monad. rewrite countAvailable_run, Z.add_0_l. simpl. by rewrite Hconn.
Qed.

Lemma underLimitb_true w k : underLimitb env cfg w k = true ↔ underLimit env cfg w k.
Proof.
  unfold underLimitb, underLimit.
  destruct (redisFails env (GET _)); simpl.
  - split; [intros [=] | intros [[=] _]].
  - rewrite bool_decide_eq_true. tauto.
Qed.

Lemma countIf_pos {A} (f : A → bool) (l : list A) :
  0 < countIf f l ↔ ∃ x, x ∈ l ∧ f x = true.
Proof.
  unfold countIf. induction l as [|x l IH]; simpl.
  - split; [lia | intros (x & Hx & _); by apply elem_of_nil in Hx].
  - destruct (f x) eqn:Hfx; simpl.
    + split; [intros _; exists x; split; [apply list_elem_of_here | done] | lia].
    + rewrite IH. split.
      * intros (y & Hy & Hfy). exists y. split; [by apply list_elem_of_further | done].
      * intros (y & [->|Hy]%elem_of_cons & Hfy); [congruence | eauto].
Qed.

End ManagerHealthFacts.

(** X13. [ApiKeyManager.healthCheck] never throws and changes nothing.  With
    Redis connected it reports ['healthy'] exactly when some configured
    credential has a readable usage counter below the daily limit.  Error
    counters play no part: the list of the selector is never longer than
    [availableKeys], a non-empty list implies ['healthy'], and recording an
    error for any credential leaves the report as it was. *)
Theorem managerHealthCheck_ignores_errors env cfg w :
  ∃ h, managerHealthCheck env cfg w = (Ok h, w) ∧
       ManagerHealth.totalKeys h = Z.of_nat (length (keys cfg)) ∧
       (redisConnected w = true →
        (ManagerHealth.status h = "healthy" ↔ ∃ k, k ∈ keys cfg ∧ underLimit env cfg w k)) ∧
       (∀ l, fst (getAllAvailableKeys env cfg w) = Ok l →
             Z.of_nat (length l) <= ManagerHealth.availableKeys h ∧
             (l ≠ [] → ManagerHealth.status h = "healthy")) ∧
       (∀ keyId, fst (managerHealthCheck env cfg (snd (recordError env keyId w))) = Ok h).
Proof.
  rewrite managerHealthCheck_run. eexists. split; [reflexivity |].
  split; [by destruct (redisConnected w) |]. split; [| split].
  - intros ->. simpl. destruct (decide _) as [Hpos|Hzero].
    + split; [intros _ | done].
      apply countIf_pos in Hpos as (k & Hk & Hu). exists k. split; [done |].
      by apply underLimitb_true.
    + split; [intros [=] |]. intros (k & Hk & Hu). destruct Hzero.
      apply countIf_pos. exists k. split; [done |]. by apply underLimitb_true.
  - intros l Hl.
    assert (redisConnected w = true) as Hconn.
    { rewrite getAllAvailableKeys_run in Hl. by destruct (redisConnected w). }
    rewrite getAllAvailableKeys_run, Hconn in Hl. simpl in Hl. injection Hl as <-.
    rewrite Hconn. simpl.
    assert (Z.of_nat (length (jsSort compareKeys
                                (keys cfg ≫= probed env cfg (getTodayString (now w)) w)))
            <= countIf (underLimitb env cfg w) (keys cfg)) as Hle.
    { rewrite jsSort_Permutation.
      induction (keys cfg) as [|k ks IH]; [done |].
      rewrite bind_cons, length_app, Nat2Z.inj_add.
      change (k :: ks) with ([k] ++ ks). rewrite countIf_app.
      assert (Z.of_nat (length (probed env cfg (getTodayString (now w)) w k)) <=
              countIf (underLimitb env cfg w) [k]); [| lia].
      rewrite countIf_one. unfold probed, underLimitb. simpl.
      destruct (redisFails env (GET (usageKeyOf _ _))); simpl; [done |].
      destruct (redisFails env (GET (errorKeyOf _ _))); simpl;
        [by case_bool_decide |].
      destruct (decide _) as [[Hu _]|_]; case_bool_decide; simpl; lia. }
    split; [done |]. intros Hne.
    destruct (decide _) as [_|Hzero]; [done |].
    destruct (jsSort compareKeys _); [done | simpl in Hle; lia].
  - intros keyId.
    destruct (recordError_run env keyId w) as (r' & v & -> & Hstr). simpl.
    rewrite managerHealthCheck_run. simpl.
    assert (∀ k, underLimitb env cfg (setRedis r' w) k = underLimitb env cfg w k) as Hsame.
    { intros k. unfold underLimitb, usageCount. simpl. rewrite Hstr.
      destruct (_ && _); [| done].
      rewrite lookup_insert_ne; [done |].
      intros H. symmetry in H. by apply usageKey_not_errorKey in H. }
    assert (countIf (underLimitb env cfg (setRedis r' w)) (keys cfg) =
            countIf (underLimitb env cfg w) (keys cfg)) as ->; [| done].
    unfold countIf. f_equal. f_equal.
    induction (keys cfg) as [|k ks IH]; simpl; [done |]. by rewrite Hsame, IH.
Qed.

Example managerHealthCheck_example :
  let w := sampleWorld {[ "errors:key_1:2024-01-15" := 3; "errors:key_2:2024-01-15" := 3 ]} in
  fst (getAllAvailableKeys (healthyEnv JNull) sampleConfig w) = Ok [] ∧
  ManagerHealth.status <$>
    (match fst (managerHealthCheck (healthyEnv JNull) sampleConfig w) with
     | Ok h => Some h
     | Throw _ => None
     end) = Some "healthy".
Proof. vm_compute. auto. Qed.

(** ** The fetch loop: errors, statistics and the cache *)

Lemma statsKept_refl s : statsKept s s.
Proof. unfold statsKept. repeat split; lia. Qed.

Lemma statsKept_trans s1 s2 s3 : statsKept s1 s2 → statsKept s2 s3 → statsKept s1 s3.
Proof. unfold statsKept. intros (?&?&?&?&?&?&?) (?&?&?&?&?&?&?). repeat split; try congruence; lia. Qed.

Lemma errorsCharged_app full k tr1 tr2 :
  errorsCharged full k (tr1 ++ tr2) = errorsCharged full k tr1 + errorsCharged full k tr2.
Proof. apply countIf_app. Qed.

Lemma answered_mono env w1 w2 w3 w4 reply :
  (calls w1 ≤ calls w2)%nat → (calls w3 ≤ calls w4)%nat →
  answered env w2 w3 reply → answered env w1 w4 reply.
Proof. intros H1 H2 (n & url & Hn & Hr). exists n, url. split; [lia | done]. Qed.

Lemma raisedBy_mono env w1 w2 w3 w4 e :
  (calls w1 ≤ calls w2)%nat → (calls w3 ≤ calls w4)%nat →
  raisedBy env w2 w3 e → raisedBy env w1 w4 e.
Proof. intros H1 H2. destruct e; simpl; eauto using answered_mono. Qed.

Section FetchingFacts.
Variable env : Env.
Variable full : bool.

Lemma Fetching_refl w : Fetching env full w [] w.
Proof.
  split; [by rewrite app_nil_r | done | done | simpl; lia | apply statsKept_refl |].
  intros _ keyId day. unfold errorsCharged, countIf. simpl. lia.
Qed.

Lemma Fetching_trans w tr1 w1 tr2 w2 :
  Fetching env full w tr1 w1 → Fetching env full w1 tr2 w2 →
  Fetching env full w (tr1 ++ tr2) w2.
Proof.
  intros [Ht1 Hc1 Hp1 Hn1 Hs1 He1] [Ht2 Hc2 Hp2 Hn2 Hs2 He2]. split.
  - by rewrite Ht2, Ht1, app_assoc.
  - congruence.
  - congruence.
  - rewrite Hn2, Hn1, List.filter_app, length_app. lia.
  - eapply statsKept_trans; eauto.
  - intros Hw keyId day.
    assert (ledgerWritable env w1) as Hw1.
    { destruct Hw as [Hconn Hincr]. split; [congruence | done]. }
    rewrite (He2 Hw1), (He1 Hw), errorsCharged_app. lia.
Qed.

(** A step that adds one event which is not an upstream request and
    leaves Redis, the statistics and the counters of the process alone. *)
Lemma Fetching_quiet w e w' :
  isUpstream e = false →
  trace w' = trace w ++ [e] → redisConnected w' = redisConnected w →
  pendingRequests w' = pendingRequests w → calls w' = calls w →
  stats w' = stats w → redis w' = redis w →
  Fetching env full w [e] w'.
Proof.
  intros He Ht Hc Hp Hn Hs Hr.
  split; [done | done | done | simpl; rewrite He; simpl; lia
         | rewrite Hs; apply statsKept_refl |].
  intros _ keyId day. unfold errorCount, errorsCharged, countIf. rewrite Hr. simpl.
  destruct e; simpl in *; try discriminate; lia.
Qed.

End FetchingFacts.

Section FetchLoopFacts.
Variable env : Env.
Variable cfg : Config.
Variable params : Params.
Variable cacheKey : string.

(** One upstream call, up to the [return] or the [throw]. *)
Lemma callWithKey_outcome apiKey w r w' :
  callWithKey env cfg params cacheKey apiKey w = (r, w') →
  let reply := upstream env (calls w) (buildApiUrl params (key (keyInfo apiKey))) in
  ∃ ok,
    trace w' = trace w ++ [EvUpstream (id (keyInfo apiKey)) (getTodayString (now w'))
                             (buildApiUrl params (key (keyInfo apiKey))) ok] ∧
    now w' = now w + elapsed reply ∧
    redisConnected w' = redisConnected w ∧
    pendingRequests w' = pendingRequests w ∧
    calls w' = S (calls w) ∧
    statsKept (stats w) (stats w') ∧
    (∀ keyId day, errorCount w' keyId day = errorCount w keyId day) ∧
    match r with
    | Ok data =>
        ok = true ∧ cacheFull cfg w = false ∧ result reply = Http2xx data ∧
        cache w' = if cacheEnabled cfg
                   then <[cacheKey := (data, expiryAt cfg (now w'))]> (cache w)
                   else cache w
    | Throw e =>
        cache w' = cache w ∧
        ((ok = true ∧ cacheFull cfg w = true ∧ e = Error cacheFullMessage ∧
          ∃ data, result reply = Http2xx data) ∨
         (ok = false ∧
          match e with
          | AxiosResponseError _ status data => result reply = HttpStatus status data
          | AxiosRequestError message => result reply = HttpNoResponse message
          | _ => False
          end))
    end.
Proof.
  intros Hrun reply. subst reply. revert Hrun.
  unfold callWithKey, httpGet. unfold_monad.
  destruct (result (upstream env (calls w) _)) as [data|status data|message] eqn:Hres.
  - match goal with |- context [recordUsage env ?i ?w1] =>
      destruct (recordUsage_run env i w1) as (r' & -> & Hstr) end.
    simpl in Hstr.
    assert (∀ keyId day k v,
              (strings r' = <[usageKeyOf k v := default 0 (strings (redis w) !! usageKeyOf k v) + 1]>
                              (strings (redis w)) ∨ strings r' = strings (redis w)) →
              default 0 (strings r' !! errorKeyOf keyId day) = errorCount w keyId day) as Herr.
    { intros keyId day k v [->| ->]; [| done].
      rewrite lookup_insert_ne; [done | apply usageKey_not_errorKey]. }
    assert (∀ keyId day, default 0 (strings r' !! errorKeyOf keyId day) = errorCount w keyId day)
      as Herr'.
    { intros keyId day. eapply Herr. destruct (_ && _); [left | right]; exact Hstr. }
    clear Herr Hstr.
    unfold cacheFull, cacheSet. unfold_monad.
    destruct (cacheEnabled cfg); simpl.
    + destruct (decide (-1 < maxKeys cfg ∧ _)) as [Hfull|Hroom]; simpl;
        intros [= <- <-]; exists true; simpl.
      * rewrite (bool_decide_eq_true_2 _ Hfull).
        repeat split; try done; try (unfold statsKept; simpl; repeat split; lia).
        left. eauto.
      * rewrite (bool_decide_eq_false_2 _ Hroom).
        repeat split; try done; unfold statsKept; simpl; repeat split; lia.
    + intros [= <- <-]. exists true. simpl.
      repeat split; try done; unfold statsKept; simpl; repeat split; lia.
  - intros [= <- <-]. exists false. simpl.
    repeat split; try done; try apply statsKept_refl. by right.
  - intros [= <- <-]. exists false. simpl.
    repeat split; try done; try apply statsKept_refl. by right.
Qed.

(** A call that returns. *)
Lemma callWithKey_returns apiKey w data w' :
  callWithKey env cfg params cacheKey apiKey w = (Ok data, w') →
  ∃ e, isUpstream e = true ∧ Fetching env (cacheFull cfg w) w [e] w' ∧
       cacheFull cfg w = false ∧ answered env w w' (Http2xx data) ∧
       cache w' = if cacheEnabled cfg
                  then <[cacheKey := (data, expiryAt cfg (now w'))]> (cache w)
                  else cache w.
Proof.
  intros Hrun. destruct (callWithKey_outcome _ _ _ _ Hrun)
    as (ok & Ht & _ & Hc & Hp & Hn & Hs & He & -> & Hfull & Hres & Hcache).
  eexists. split; [| split; [split | split; [done | split; [| done]]]]; try done.
  - reflexivity.
  - simpl. lia.
  - intros _ keyId day. rewrite He, Hfull. unfold errorsCharged, countIf. simpl. lia.
  - eexists _, _. split; [| exact Hres]. lia.
Qed.

(** A call that throws, followed by [recordError]. *)
Lemma callWithKey_throws apiKey w e w1 rv w2 :
  callWithKey env cfg params cacheKey apiKey w = (Throw e, w1) →
  recordError env (id (keyInfo apiKey)) w1 = (rv, w2) →
  ∃ ev, isUpstream ev = true ∧ Fetching env (cacheFull cfg w) w [ev] w2 ∧
        cache w2 = cache w ∧ raisedBy env w w2 e ∧ now w2 = now w1.
Proof.
  intros Hrun Herr. destruct (callWithKey_outcome _ _ _ _ Hrun)
    as (ok & Ht & _ & Hc & Hp & Hn & Hs & He & Hcache & Hwhy).
  destruct (recordError_run env (id (keyInfo apiKey)) w1) as (r' & v & Hrec & Hstr).
  rewrite Hrec in Herr. injection Herr as <- <-. simpl.
  eexists. split; [| split; [split | split; [done | split; [| done]]]]; try done.
  - reflexivity.
  - simpl. lia.
  - intros [Hconn Hincr] keyId day.
    rewrite Hc, Hconn, Hincr in Hstr. simpl in Hstr.
    unfold errorCount at 1. simpl. rewrite Hstr.
    unfold errorsCharged. rewrite countIf_one. cbn [chargedError].
    assert (negb ok || cacheFull cfg w = true) as ->.
    { destruct Hwhy as [(-> & -> & _)|(-> & _)]; done. }
    cbn [andb].
    destruct (String.eqb_spec (errorKeyOf (id (keyInfo apiKey)) (getTodayString (now w1)))
                (errorKeyOf keyId day)) as [Heq|Hne].
    + rewrite Heq, lookup_insert_eq. cbn [default from_option Datatypes.id].
      specialize (He keyId day). unfold errorCount in He |- *. rewrite <- He. lia.
    + rewrite lookup_insert_ne by done.
      specialize (He keyId day). unfold errorCount in He |- *. rewrite <- He. lia.
  - destruct Hwhy as [(_ & _ & -> & _)|(_ & Hwhy)]; simpl; [auto |].
    destruct e as [m|m status data|m|]; try done; simpl;
      (eexists _, _; split; [| exact Hwhy]); simpl; lia.
Qed.

Lemma tryKeys_Fetching availableKeys lastError w r w' :
  tryKeys env cfg params cacheKey availableKeys lastError w = (r, w') →
  ∃ tr v, r = Ok v ∧ Fetching env (cacheFull cfg w) w tr w' ∧
          handsBack env cfg cacheKey w w' lastError v.
Proof.
  unfold handsBack.
  revert lastError w. induction availableKeys as [|apiKey rest IH]; intros lastError w; simpl.
  - intros [= <- <-]. exists [], (inr lastError). split; [done |].
    split; [apply Fetching_refl | auto].
  - unfold_monad.
    destruct (callWithKey env cfg params cacheKey apiKey w) as [[data|e] w1] eqn:Hcall.
    + intros [= <- <-].
      destruct (callWithKey_returns _ _ _ _ Hcall) as (ev & _ & Hf & Hfull & Hans & Hcache).
      exists [ev], (inl data). split; [done |]. split; [done |].
      split; [done |]. split; done.
    + destruct (recordError env (id (keyInfo apiKey)) w1) as [[v|e'] w2] eqn:Herr.
      2:{ destruct (recordError_run env (id (keyInfo apiKey)) w1) as (? & ? & Hrec & _).
          rewrite Hrec in Herr. discriminate. }
      destruct (callWithKey_throws _ _ _ _ _ _ Hcall Herr)
        as (ev & _ & Hf & Hcache & Hraised & _).
      intros Hrest.
      destruct (IH _ _ Hrest) as (tr & v' & -> & Hf' & Hv').
      assert (cacheFull cfg w2 = cacheFull cfg w) as Hsame
        by (unfold cacheFull; by rewrite Hcache).
      rewrite Hsame in Hf'. rewrite ?Hsame in Hv'.
      pose proof (fetching_calls _ _ _ _ _ Hf) as Hn1.
      pose proof (fetching_calls _ _ _ _ _ Hf') as Hn2.
      exists ([ev] ++ tr), v'. split; [done |].
      split; [eapply Fetching_trans; eauto |].
      destruct v' as [data|err].
      * destruct Hv' as (Hfull & Hans & Hc'). split; [done |].
        split; [eapply answered_mono; [| | exact Hans]; lia |].
        by rewrite <- Hcache.
      * destruct Hv' as (Hc' & [->|Hr]).
        -- split; [congruence |]. right.
           eapply raisedBy_mono; [| | exact Hraised]; lia.
        -- split; [congruence |]. right.
           eapply raisedBy_mono; [| | exact Hr]; lia.
Qed.

Lemma attemptOnce_Fetching attempt lastError w r w' :
  attemptOnce env cfg params cacheKey attempt lastError w = (r, w') →
  ∃ tr v, r = Ok v ∧ Fetching env (cacheFull cfg w) w tr w' ∧ handsBack env cfg cacheKey w w' lastError v.
Proof.
  unfold attemptOnce. unfold_monad.
  set (w1 := emit (EvSelect attempt) w).
  assert (Fetching env (cacheFull cfg w) w [EvSelect attempt] w1) as Hf1
    by (by apply Fetching_quiet).
  rewrite getAllAvailableKeys_run.
  destruct (redisConnected w1) eqn:Hconn; cbn [fst snd].
  - destruct (decide (length _ = 0%nat)).
    + intros [= <- <-]. exists [EvSelect attempt], (inr (Error noKeysMessage)).
      split; [done |]. split; [done |]. split; [done |]. right. simpl. auto.
    + destruct (tryKeys env cfg params cacheKey _ lastError w1) as [r1 w2] eqn:Htry.
      destruct (tryKeys_Fetching _ _ _ _ _ Htry) as (tr & v & -> & Hf2 & Hv).
      intros [= <- <-]. exists ([EvSelect attempt] ++ tr), v. split; [done |].
      split; [eapply Fetching_trans; eauto |].
      pose proof (fetching_calls _ _ _ _ _ Hf2) as Hn2.
      destruct v as [data|err]; simpl in *.
      * destruct Hv as (Hfull & Hans & Hc). split; [done |]. split; [| done].
        eapply answered_mono; [| | exact Hans]; simpl; lia.
      * destruct Hv as (Hc & [->|Hr]); (split; [done |]); [by left | right].
        eapply raisedBy_mono; [| | exact Hr]; simpl; lia.
  - intros [= <- <-]. exists [EvSelect attempt], (inr (Error noConnectionMessage)).
    split; [done |]. split; [done |]. split; [done |]. right. simpl. auto.
Qed.

Lemma retryLoop_Fetching n a lastError w r w' :
  retryLoop env cfg params cacheKey n a lastError w = (r, w') →
  ∃ tr, Fetching env (cacheFull cfg w) w tr w' ∧
        handsBack env cfg cacheKey w w' lastError (match r with Ok data => inl data | Throw e => inr e end).
Proof.
  revert a lastError w. induction n as [|n IH]; intros a lastError w; simpl.
  - intros [= <- <-]. exists []. split; [apply Fetching_refl |]. simpl. auto.
  - unfold_monad.
    destruct (attemptOnce env cfg params cacheKey a lastError w) as [r1 w1] eqn:Hatt.
    destruct (attemptOnce_Fetching _ _ _ _ _ Hatt) as (tr1 & v & -> & Hf1 & Hv).
    destruct v as [data|err].
    + intros [= <- <-]. exists tr1. done.
    + destruct Hv as [Hc Herr].
      assert (∃ tr2 w2, (if decide (a < retryCount cfg)
                         then sleep (retryDelay cfg * a) else (λ w, (Ok (), w))) w1 =
                        (Ok (), w2) ∧
                        Fetching env (cacheFull cfg w) w1 tr2 w2 ∧ cache w2 = cache w1 ∧
                        calls w2 = calls w1) as (tr2 & w2 & Hsleep & Hf2 & Hc2 & Hn2).
      { destruct (decide (a < retryCount cfg)).
        - exists [EvSleep (retryDelay cfg * a)], (snd (sleep (retryDelay cfg * a) w1)).
          split; [reflexivity |]. split; [| done].
          by apply Fetching_quiet.
        - exists [], w1. split; [done |]. split; [apply Fetching_refl | done]. }
      rewrite Hsleep. intros Hrest.
      destruct (IH _ _ _ Hrest) as (tr3 & Hf3 & Hv3).
      assert (cacheFull cfg w2 = cacheFull cfg w) as Hsame
        by (unfold cacheFull; by rewrite Hc2, Hc).
      rewrite Hsame in Hf3.
      pose proof (fetching_calls _ _ _ _ _ Hf1) as Hn1.
      pose proof (fetching_calls _ _ _ _ _ Hf3) as Hn3.
      exists (tr1 ++ tr2 ++ tr3).
      split; [eapply Fetching_trans; [exact Hf1 |]; eapply Fetching_trans; eauto |].
      destruct r as [data|e]; simpl in *.
      * destruct Hv3 as (Hfull & Hans & Hc3). rewrite Hsame in Hfull.
        split; [done |]. split.
        -- eapply answered_mono; [| | exact Hans]; lia.
        -- by rewrite <- Hc, <- Hc2.
      * destruct Hv3 as (Hc3 & Hr). split; [congruence |].
        destruct Hr as [->|Hr].
        -- destruct Herr as [->|Herr]; [by left | right].
           eapply raisedBy_mono; [| | exact Herr]; lia.
        -- right. eapply raisedBy_mono; [| | exact Hr]; lia.
Qed.

Lemma fetchWeatherFromAPI_Fetching w r w' :
  fetchWeatherFromAPI env cfg params cacheKey w = (r, w') →
  ∃ tr, Fetching env (cacheFull cfg w) w tr w' ∧
        handsBack env cfg cacheKey w w' ThrownNull (match r with Ok data => inl data | Throw e => inr e end).
Proof. apply retryLoop_Fetching. Qed.

End FetchLoopFacts.

(** ** getWeatherData: how a call ends *)

Section ServedFacts.
Variable env : Env.
Variable cfg : Config.

(** The cache lookup of [getWeatherData]. *)
Lemma lookup_run key w :
  ∃ cachedData c1,
    (if cacheEnabled cfg then cacheGet key else mret None) w = (Ok cachedData, setCache c1 w) ∧
    (size c1 ≤ size (cache w))%nat ∧
    (cache w !! key = None → c1 = cache w) ∧
    (∀ data, cacheHit cachedData = Some data →
       cacheEnabled cfg = true ∧ c1 = cache w ∧ truthy data = true ∧
       ∃ expiry, cache w !! key = Some (data, expiry) ∧ ¬ (expiry ≠ 0 ∧ expiry < now w)).
Proof.
  destruct w as [t c r ca p s n tr]. simpl.
  destruct (cacheEnabled cfg); unfold cacheGet; simpl.
  - destruct (ca !! key) as [[v e]|] eqn:Hk.
    + destruct (decide (e ≠ 0 ∧ e < t)) as [Hexp|Hlive].
      * exists None, (delete key ca). split; [done |]. split.
        { rewrite map_size_delete_Some by (by rewrite Hk). lia. }
        split; [done |]. intros data [=].
      * exists (Some v), ca. split; [done |]. split; [done |]. split; [done |].
        intros data Hhit. simpl in Hhit. destruct (truthy v) eqn:Hv; [| done].
        injection Hhit as <-. eauto 8.
    + exists None, ca. split; [done |]. split; [done |]. split; [done |]. intros data [=].
  - exists None, ca. split; [done |]. split; [done |]. split; [done |]. intros data [=].
Qed.

Lemma cacheFull_shrunk c1 w :
  (size c1 ≤ size (cache w))%nat → cacheFull cfg w = false →
  cacheFull cfg (setCache c1 w) = false.
Proof.
  unfold cacheFull. simpl. destruct (cacheEnabled cfg); simpl; [| done].
  intros Hle Hroom. apply bool_decide_eq_false in Hroom. apply bool_decide_eq_false. lia.
Qed.

(** The statistics after a request. *)
Lemma statsSane_counted s s2 :
  statsSane s → statsKept (bumpTotalRequests s) s2 →
  cacheHits s2 + errors s2 + 1 <= totalRequests s2 ∧ cacheWrites s2 <= apiCalls s2 ∧
  (∀ m, minResponseTime s2 = Some m → m <= maxResponseTime s2) ∧
  totalRequests s2 = totalRequests s + 1.
Proof.
  unfold statsSane, statsKept. simpl.
  intros (H1 & H2 & H3) (E1 & E2 & E3 & E4 & E5 & E6 & E7).
  rewrite E1, E2, E3, E5, E6. repeat split; try lia. exact H3.
Qed.

Lemma statsSane_timed s startTime w :
  cacheHits s + errors s <= totalRequests s → cacheWrites s <= apiCalls s →
  let s' := stats (snd (updateResponseTime startTime (setStats s w))) in
  statsSane s' ∧ totalRequests s' = totalRequests s.
Proof.
  intros H1 H2. simpl. unfold statsSane. simpl. repeat split; try done.
  intros m [= <-]. destruct (minResponseTime s); lia.
Qed.

Lemma getWeatherData_outcome params w r w' :
  getWeatherData env cfg params w = (r, w') →
  let key := generateCacheKey params in
  Served env cfg key w w' r ∧
  redisConnected w' = redisConnected w ∧
  pendingRequests w' = pendingRequests w ∧
  totalRequests (stats w') = totalRequests (stats w) + 1 ∧
  (statsSane (stats w) → statsSane (stats w')) ∧
  ∃ tr full,
    trace w' = trace w ++ tr ∧
    calls w' = (calls w + length (List.filter isUpstream tr))%nat ∧
    (cacheFull cfg w = false → full = false) ∧
    (cache w !! key = None → full = cacheFull cfg w) ∧
    (ledgerWritable env w → ∀ keyId day,
       errorCount w' keyId day =
         errorCount w keyId day + errorsCharged full (errorKeyOf keyId day) tr).
Proof.
  intros Hrun key. revert Hrun.
  unfold getWeatherData, ensureInitialized, settle, awaitPromise, tryFinally.
  unfold_monad. fold key.
  set (w0 := setStats (bumpTotalRequests (stats w)) w).
  assert (∀ s2 (w2 : World),
            statsKept (bumpTotalRequests (stats w)) s2 →
            let w3 := snd (updateResponseTime (now w) (setStats (bumpErrors s2) w2)) in
            totalRequests (stats w3) = totalRequests (stats w) + 1 ∧
            (statsSane (stats w) → statsSane (stats w3))) as Hfail.
  { intros s2 w2 Hk. split.
    - simpl. destruct Hk as (-> & _). simpl. done.
    - intros Hs. destruct (statsSane_counted _ _ Hs Hk) as (H1 & H2 & _ & _).
      apply (statsSane_timed (bumpErrors s2) (now w) w2); simpl; lia. }
  assert (∀ s2 (w2 : World),
            statsKept (bumpTotalRequests (stats w)) s2 →
            let w3 := snd (updateResponseTime (now w) (setStats s2 w2)) in
            totalRequests (stats w3) = totalRequests (stats w) + 1 ∧
            (statsSane (stats w) → statsSane (stats w3))) as Hdone.
  { intros s2 w2 Hk. split.
    - simpl. destruct Hk as (-> & _). simpl. done.
    - intros Hs. destruct (statsSane_counted _ _ Hs Hk) as (H1 & H2 & _ & _).
      apply (statsSane_timed s2 (now w) w2); simpl; lia. }
  assert (∀ w2 : World, w2 = w2 → ∃ tr full,
            trace w = trace w ++ tr ∧
            calls w = (calls w + length (List.filter isUpstream tr))%nat ∧
            (cacheFull cfg w = false → full = false) ∧
            (cache w !! key = None → full = cacheFull cfg w) ∧
            (ledgerWritable env w → ∀ keyId day,
               errorCount w keyId day =
                 errorCount w keyId day + errorsCharged full (errorKeyOf keyId day) tr))
    as Hquiet.
  { intros _ _. exists [], (cacheFull cfg w). rewrite app_nil_r. simpl.
    repeat split; try done; try lia.
    intros _ keyId day. unfold errorsCharged, countIf. simpl. lia. }
  destruct (initialized cfg) eqn:Hinit.
  2:{ simpl. intros [= <- <-]. simpl.
      split; [by constructor |]. split; [done |]. split; [done |].
      destruct (Hfail (bumpTotalRequests (stats w)) w0 (statsKept_refl _)) as [Ht Hs].
      split; [exact Ht |]. split; [exact Hs |]. by apply (Hquiet w). }
  destruct (lookup_run key w0) as (cachedData & c1 & Hget & Hsize & Hnone & Hhit).
  unfold_monad. rewrite Hget. clear Hget.
  destruct (cacheHit cachedData) as [data|] eqn:Hch.
  { destruct (Hhit data eq_refl) as (Hen & -> & Htruthy & expiry & Hentry & Hlive).
    simpl. intros [= <- <-]. simpl.
    split; [by eapply FromCache |]. split; [done |]. split; [done |].
    split; [simpl; lia |]. split; [| by apply (Hquiet w)].
    intros Hs. destruct Hs as (H1 & H2 & H3).
    apply (statsSane_timed (bumpCacheHits (bumpTotalRequests (stats w))) (now w) w);
      simpl; lia. }
  clear Hhit. set (w1 := setCache c1 w0).
  destruct (pendingRequests w !! key) as [[v|e]|] eqn:Hpend; simpl; rewrite Hpend.
  - simpl. intros [= <- <-]. simpl.
    split; [by eapply FromPending |]. split; [done |]. split; [done |].
    split; [done |]. split; [| by apply (Hquiet w)].
    intros (H1 & H2 & H3). unfold statsSane. simpl. repeat split; try lia. exact H3.
  - simpl. intros [= <- <-]. simpl.
    split; [by eapply FromPending |]. split; [done |]. split; [done |].
    destruct (Hfail (bumpTotalRequests (stats w)) w1 (statsKept_refl _)) as [Ht Hs].
    split; [exact Ht |]. split; [exact Hs |]. by apply (Hquiet w).
  - destruct (fetchWeatherFromAPI env cfg params key w1) as [rf w2] eqn:Hfetch.
    destruct (fetchWeatherFromAPI_Fetching _ _ _ _ _ _ _ Hfetch) as (tr & Hf & Hback).
    destruct Hf as [Htr Hconn Hp Hcalls Hstats Herrs].
    assert (pendingRequests w2 !! key = None) as Hnone2 by (by rewrite Hp).
    assert (∃ tr0 full,
              trace w2 = trace w ++ tr0 ∧
              calls w2 = (calls w + length (List.filter isUpstream tr0))%nat ∧
              (cacheFull cfg w = false → full = false) ∧
              (cache w !! key = None → full = cacheFull cfg w) ∧
              (ledgerWritable env w → ∀ keyId day,
                 errorCount w2 keyId day =
                   errorCount w keyId day + errorsCharged full (errorKeyOf keyId day) tr0))
      as Hacct.
    { exists tr, (cacheFull cfg w1). split; [done |]. split; [done |]. split; [| split].
      - intros Hroom. by apply cacheFull_shrunk.
      - intros Hk. unfold w1. by rewrite (Hnone Hk).
      - intros Hw keyId day. by apply Herrs. }
    destruct rf as [v|e]; simpl in Hback |- *; intros [= <- <-]; simpl.
    + destruct Hback as (Hfull & Hans & Hcache).
      split.
      { apply Fetched; [done | done | | |].
        - destruct Hans as (n & url & Hn & Hr). exists n, url. simpl in *. split; [lia | done].
        - intros Hk. unfold w1 in Hfull. by rewrite (Hnone Hk) in Hfull.
        - intros Hen. simpl. rewrite Hcache, Hen. apply lookup_insert_eq. }
      split; [done |]. split; [by rewrite delete_insert_id |].
      destruct (Hdone (stats w2) w2 Hstats) as [Ht Hs].
      split; [exact Ht |]. split; [exact Hs |]. exact Hacct.
    + destruct Hback as (Hcache & Hwhy).
      split.
      { apply FetchFailed; [done | done | |].
        - destruct Hwhy as [->|Hr]; [by left | right].
          eapply raisedBy_mono; [| | exact Hr]; simpl; lia.
        - intros Hk. simpl. rewrite Hcache. unfold w1. simpl. by apply Hnone. }
      split; [done |]. split; [by rewrite delete_insert_id |].
      destruct (Hfail (stats w2) w2 Hstats) as [Ht Hs].
      split; [exact Ht |]. split; [exact Hs |]. exact Hacct.
Qed.

End ServedFacts.

(** X14. The statistics of [WeatherService] keep their shape.  The
    constructor's statistics satisfy, and every [getWeatherData] call
    preserves: cache hits plus errors never exceed the total of requests,
    cache writes never exceed upstream calls, and the minimum response time,
    once set, never exceeds the maximum.  Every call adds exactly one to
    [totalRequests], however it ends. *)
Theorem stats_stay_sane env cfg :
  statsSane noStats ∧
  ∀ params w r w',
    statsSane (stats w) →
    getWeatherData env cfg params w = (r, w') →
    statsSane (stats w') ∧ totalRequests (stats w') = totalRequests (stats w) + 1.
Proof.
  split; [unfold statsSane; simpl; repeat split; try lia; intros m [=] |].
  intros params w r w' Hs Hrun.
  destruct (getWeatherData_outcome env cfg params w r w' Hrun) as (_ & _ & _ & Ht & Hsane & _).
  auto.
Qed.

(** X15. Errors are recorded with every failed upstream call.  While the
    ledger takes writes and the cache has room (or is disabled), a
    [getWeatherData] call adds to the error counter of each credential and
    day exactly the number of upstream requests it sent with that
    credential on that day that were not answered 2xx, and nothing else
    changes an error counter. *)
Theorem errors_recorded_once env cfg params w r w' :
  ledgerWritable env w → cacheFull cfg w = false →
  getWeatherData env cfg params w = (r, w') →
  ∃ tr, trace w' = trace w ++ tr ∧
        ∀ keyId day,
          errorCount w' keyId day =
            errorCount w keyId day + errorsCharged false (errorKeyOf keyId day) tr.
Proof.
  intros Hw Hroom Hrun.
  destruct (getWeatherData_outcome env cfg params w r w' Hrun)
    as (_ & _ & _ & _ & _ & tr & full & Htr & _ & Hfull & _ & Herr).
  exists tr. split; [done |]. rewrite <- (Hfull Hroom). by apply Herr.
Qed.

Lemma errors_recorded_once_witness :
  let env := failingEnv 401 in
  let w := sampleWorld ∅ in
  let run := getWeatherData env sampleConfig sampleParams w in
  ∃ tr, trace (snd run) = [] ++ tr ∧
        ∀ keyId day,
          errorCount (snd run) keyId day =
            errorCount w keyId day + errorsCharged false (errorKeyOf keyId day) tr.
Proof.
  intros env w run.
  apply (errors_recorded_once env sampleConfig sampleParams w (fst run)).
  - split; [reflexivity | intros k; reflexivity].
  - reflexivity.
  - vm_compute. reflexivity.
Defined.

Example errors_recorded_example :
  let run := getWeatherData (failingEnv 401) sampleConfig sampleParams (sampleWorld ∅) in
  errorCount (snd run) "key_1" "2024-01-15" = 3 ∧
  errorCount (snd run) "key_2" "2024-01-15" = 3 ∧
  calls (snd run) = 6%nat.
Proof. vm_compute. auto. Qed.

Lemma charged_success_is_charged_error keyId day tr :
  successesOn (usageKeyOf keyId day) tr <= errorsCharged true (errorKeyOf keyId day) tr.
Proof.
  unfold successesOn, errorsCharged. fold (countIf (chargedTo (usageKeyOf keyId day)) tr).
  apply countIf_le. intros e _.
  destruct e as [a|k d url ok|ms]; cbn [chargedTo chargedError]; try done.
  destruct ok; [| done]. rewrite orb_true_r. cbn [andb].
  intros Hu. apply String.eqb_eq in Hu. apply String.eqb_eq.
  unfold usageKeyOf, errorKeyOf in *. apply append_inv_head in Hu. by rewrite Hu.
Qed.



(** With a cache of two entries that is full, an upstream that answers 200
    every time and two credentials: the request fails with the cache's
    error after six upstream calls, and each credential ends the request
    with three usages and three errors, closed for the day. *)
Example cache_full_example :
  let run := getWeatherData (healthyEnv (JObj "{}")) smallCacheConfig sampleParams
               fullCacheWorld in
  fst run = Throw (Error cacheFullMessage) ∧ calls (snd run) = 6%nat ∧
  usageCount (snd run) "key_1" "2024-01-15" = 3 ∧
  errorCount (snd run) "key_1" "2024-01-15" = 3 ∧
  usageCount (snd run) "key_2" "2024-01-15" = 3 ∧
  errorCount (snd run) "key_2" "2024-01-15" = 3 ∧
  fst (getAllAvailableKeys (healthyEnv (JObj "{}")) smallCacheConfig (snd run)) = Ok [].
Proof. vm_compute. repeat split. Qed.

(** A live entry with a truthy body is returned, and only the statistics
    move. *)
Lemma getWeatherData_hit env cfg params w data expiry :
  initialized cfg = true → cacheEnabled cfg = true →
  cache w !! generateCacheKey params = Some (data, expiry) →
  ¬ (expiry ≠ 0 ∧ expiry < now w) → truthy data = true →
  ∃ s', getWeatherData env cfg params w = (Ok data, setStats s' w).
Proof.
  intros Hinit Hen Hentry Hlive Htruthy.
  unfold getWeatherData, ensureInitialized, cacheGet, cacheHit, updateResponseTime.
  unfold_monad. rewrite Hinit, Hen. simpl. rewrite Hentry.
  destruct (decide (expiry ≠ 0 ∧ expiry < now w)); [done |].
  rewrite Htruthy. simpl. eexists. reflexivity.
Qed.

(** X17. What [getWeatherData] has returned once, it serves from the cache
    until the entry expires.  With the cache enabled and a TTL that is not
    negative, after a call that found no pending request and returned a
    truthy body, the cache holds that body under the fingerprint, not yet
    expired (for the whole TTL when the body was fetched by this call); and
    a call for the same parameters at any time up to the expiry returns the
    same body and changes nothing but the statistics: no upstream request,
    no ledger write. *)
Theorem served_again_from_cache env cfg params w data w1 :
  cacheEnabled cfg = true → 0 <= stdTTL cfg →
  pendingRequests w !! generateCacheKey params = None →
  getWeatherData env cfg params w = (Ok data, w1) →
  truthy data = true →
  ∃ expiry,
    cache w1 !! generateCacheKey params = Some (data, expiry) ∧
    (expiry = 0 ∨ now w1 <= expiry) ∧
    ((calls w < calls w1)%nat → expiry = expiryAt cfg (now w1)) ∧
    ∀ t, expiry = 0 ∨ t <= expiry →
      ∃ s', getWeatherData env cfg params (setNow t w1) = (Ok data, setStats s' (setNow t w1)).
Proof.
  intros Hen Httl Hpend Hrun Htruthy.
  destruct (getWeatherData_outcome env cfg params w _ w1 Hrun) as (Hserved & _).
  assert (initialized cfg = true ∧
          ∃ expiry, cache w1 !! generateCacheKey params = Some (data, expiry) ∧
                    (expiry = 0 ∨ now w1 <= expiry) ∧
                    ((calls w < calls w1)%nat → expiry = expiryAt cfg (now w1)))
    as (Hinit & expiry & Hentry & Hlive & Hfresh).
  { inversion Hserved as [| d e Hi _ He Hl _ Hc Hn _ Hnow | o Hi Hp | d Hi _ _ _ Hc |];
      subst.
    - split; [done |]. exists e. rewrite Hc. split; [done |].
      split; [rewrite Hnow; lia | lia].
    - congruence.
    - split; [done |]. exists (expiryAt cfg (now w1)). split; [by apply Hc |].
      split; [| done]. unfold expiryAt. destruct (decide (stdTTL cfg = 0)); [by left | right; lia]. }
  exists expiry. split; [done |]. split; [done |]. split; [done |].
  intros t Ht. apply (getWeatherData_hit env cfg params (setNow t w1) data expiry); try done.
  simpl. lia.
Qed.

Lemma served_again_from_cache_witness :
  let env := healthyEnv (JObj "{}") in
  let w1 := snd (getWeatherData env sampleConfig sampleParams (sampleWorld ∅)) in
  ∃ expiry,
    cache w1 !! generateCacheKey sampleParams = Some (JObj "{}", expiry) ∧
    (expiry = 0 ∨ now w1 <= expiry) ∧
    ((calls (sampleWorld ∅) < calls w1)%nat → expiry = expiryAt sampleConfig (now w1)) ∧
    ∀ t, expiry = 0 ∨ t <= expiry →
      ∃ s', getWeatherData env sampleConfig sampleParams (setNow t w1) =
              (Ok (JObj "{}"), setStats s' (setNow t w1)).
Proof.
  intros env w1.
  apply (served_again_from_cache env sampleConfig sampleParams (sampleWorld ∅)).
  - reflexivity.
  - vm_compute. discriminate.
  - vm_compute. reflexivity.
  - vm_compute. reflexivity.
  - reflexivity.
Defined.

(** ** Redis not connected *)

Section OutageFacts.
Variable env : Env.
Variable cfg : Config.

Lemma retryLoop_noRedis params cacheKey n a lastError w w1 :
  redisConnected w = false → unspent w w1 →
  ∃ w2, retryLoop env cfg params cacheKey n a lastError w1 =
          (Throw (match n with O => lastError | S _ => Error noConnectionMessage end), w2) ∧
        unspent w w2.
Proof.
  intros Hdown. revert a lastError w1. induction n as [|n IH]; intros a lastError w1 Hw; simpl.
  - by exists w1.
  - unfold attemptOnce, sleep. unfold_monad.
    rewrite getAllAvailableKeys_run. simpl.
    destruct Hw as (Hc & Hr & Hca & Hp & Hn). rewrite Hc, Hdown. simpl.
    destruct (decide (a < retryCount cfg)); simpl.
    + edestruct (IH (a + 1) (Error noConnectionMessage)) as (w2 & -> & Hw2);
        [| exists w2; split; [by destruct n | exact Hw2]].
      by repeat split.
    + edestruct (IH (a + 1) (Error noConnectionMessage)) as (w2 & -> & Hw2);
        [| exists w2; split; [by destruct n | exact Hw2]].
      by repeat split.
Qed.

Lemma getWeatherData_noRedis params w :
  initialized cfg = true → redisConnected w = false → 1 <= retryCount cfg →
  cache w !! generateCacheKey params = None →
  pendingRequests w !! generateCacheKey params = None →
  ∃ w', getWeatherData env cfg params w = (Throw (Error noConnectionMessage), w') ∧
        unspent w w'.
Proof.
  intros Hinit Hdown Hcount Hcache Hpend.
  unfold getWeatherData, ensureInitialized, cacheGet, settle, awaitPromise, tryFinally,
    updateResponseTime, fetchWeatherFromAPI.
  unfold_monad. rewrite Hinit. simpl.
  set (w0 := setStats (bumpTotalRequests (stats w)) w).
  edestruct (retryLoop_noRedis params (generateCacheKey params)
               (Z.to_nat (retryCount cfg)) 1 ThrownNull w w0) as (w2 & Hloop & Hw2);
    [done | by repeat split |].
  assert (Z.to_nat (retryCount cfg) ≠ 0%nat) as Hn by lia.
  destruct Hw2 as (Hc2 & Hr2 & Hca2 & Hp2 & Hn2).
  destruct (cacheEnabled cfg); simpl; rewrite ?Hcache; simpl; rewrite Hpend, Hloop;
    destruct (Z.to_nat (retryCount cfg)); try done; simpl;
    (eexists; split; [reflexivity |]); repeat split; simpl; try done;
    rewrite Hp2; by rewrite delete_insert_id.
Qed.

End OutageFacts.

Lemma noConnectionMessage_is_not_quota :
  Js.includes "限制" noConnectionMessage || Js.includes "quota" noConnectionMessage = false.
Proof. vm_compute. reflexivity. Qed.

(** X18. Without Redis the service fails closed.  While the Redis client is
    not connected (as after [destroy]), an authorised request that misses
    the cache and finds no pending request is answered 500 with the
    selector's connection error; no upstream request is sent, and Redis,
    the cache and the pending map are as before. *)
Theorem redis_down_fails_closed env cfg request w :
  present (appIdKey cfg) = true →
  query request !! "appid" = appIdKey cfg →
  initialized cfg = true → 1 <= retryCount cfg →
  redisConnected w = false →
  cache w !! generateCacheKey (weatherParamsOf (query request)) = None →
  pendingRequests w !! generateCacheKey (weatherParamsOf (query request)) = None →
  ∃ w',
    onecall env cfg request w =
      (Ok {| statusCode := 500; headers := [];
             payload := SendJson
               [ ("success", JBool false); ("error", JStr noConnectionMessage);
                 ("timestamp", timestamp w'); ("requestId", JStr (requestId request));
                 ("responseTime", JNum (now w' - now w)) ] |}, w') ∧
    calls w' = calls w ∧ redis w' = redis w ∧ cache w' = cache w ∧
    pendingRequests w' = pendingRequests w.
Proof.
  intros Hpresent Hauth Hinit Hcount Hdown Hcache Hpend.
  destruct (getWeatherData_noRedis env cfg _ w Hinit Hdown Hcount Hcache Hpend)
    as (w1 & Hrun & (_ & Hr & Hc & Hp & Hn)).
  exists (setLogs ((logs w ++ [LogReceived (query request); LogHandling]) ++
                   [LogFailed noConnectionMessage (now w1 - now w) (query request)]) w1).
  split; [| done].
  rewrite onecall_run. cbn zeta. rewrite Hpresent. cbn [negb].
  destruct (decide (query request !! "appid" ≠ appIdKey cfg)); [done |].
  rewrite Hrun. cbn [fst snd onecallCatch].
  rewrite noConnectionMessage_is_not_quota. reflexivity.
Qed.

Lemma redis_down_fails_closed_witness :
  let w := destroy (sampleWorld ∅) in
  ∃ w',
    onecall (healthyEnv (JObj "{}")) sampleConfig sampleRequest w =
      (Ok {| statusCode := 500; headers := [];
             payload := SendJson
               [ ("success", JBool false); ("error", JStr noConnectionMessage);
                 ("timestamp", timestamp w'); ("requestId", JStr "req-1");
                 ("responseTime", JNum (now w' - now w)) ] |}, w') ∧
    calls w' = calls w ∧ redis w' = redis w ∧ cache w' = cache w ∧
    pendingRequests w' = pendingRequests w.
Proof.
  intros w.
  apply (redis_down_fails_closed (healthyEnv (JObj "{}")) sampleConfig sampleRequest w).
  - reflexivity.
  - vm_compute. reflexivity.
  - reflexivity.
  - vm_compute. discriminate.
  - reflexivity.
  - vm_compute. reflexivity.
  - vm_compute. reflexivity.
Defined.

(** ** The /onecall handler: who is let in, and where a reply comes from *)

Ltac in_list := repeat first [apply list_elem_of_here | apply list_elem_of_further].

(** X19. A request that does not present the configured [APP_ID_KEY] is
    turned away before anything else happens: it is answered 401 (or 500
    when the server has no [APP_ID_KEY], whatever the request presents) with
    the failure body and no header, and the world is left as it was but for
    the two log entries of every request, the first of which records the
    query with the rejected [appid]: no cache lookup, no statistics, no
    ledger access, no upstream request. *)
Theorem onecall_turns_away env cfg request w :
  present (appIdKey cfg) = false ∨ query request !! "appid" ≠ appIdKey cfg →
  onecall env cfg request w =
    (Ok {| statusCode := if present (appIdKey cfg) then 401 else 500;
           headers := [];
           payload := SendJson
             (failure (if present (appIdKey cfg) then "无效的appid参数"
                       else "服务器配置错误：缺少APP_ID_KEY环境变量")
                (requestId request) w) |},
     setLogs (logs w ++ [LogReceived (query request); LogHandling]) w).
Proof.
  intros Hno. rewrite onecall_run. cbn zeta.
  destruct (present (appIdKey cfg)); simpl; [| done].
  destruct Hno as [[=]|Hne].
  destruct (decide (query request !! "appid" ≠ appIdKey cfg)); done.
Qed.

Lemma onecall_turns_away_witness :
  let request := {| query := <["appid" := "secret-one"]> sampleParams;
                    requestId := "req-1" |} in
  onecall (healthyEnv (JObj "{}")) sampleConfig request (sampleWorld ∅) =
    (Ok {| statusCode := 401; headers := [];
           payload := SendJson (failure "无效的appid参数" "req-1" (sampleWorld ∅)) |},
     setLogs [LogReceived (query request); LogHandling] (sampleWorld ∅)).
Proof.
  intros request.
  apply (onecall_turns_away (healthyEnv (JObj "{}")) sampleConfig request (sampleWorld ∅)).
  right. vm_compute. discriminate.
Defined.

Lemma cacheFullMessage_is_not_quota :
  Js.includes "限制" cacheFullMessage || Js.includes "quota" cacheFullMessage = false.
Proof. vm_compute. done. Qed.

(** X20. The handler always answers, and every status has one origin.  For a
    request that finds no pending request for its fingerprint:
    - a reply that sends a body as it is either has status 200, the
      [X-Response-Time] header and a truthy body, or carries the status and
      the body of a non-2xx answer that upstream gave during this request;
    - a JSON reply has [success: false] and status 401, 429, 500 or 503;
      503 only when an upstream request got no answer, with its message;
      429 only with the message of the fetch loop that no credential is
      available or, on a service that failed to initialize, with the
      initialization error. *)
Theorem onecall_status_origin env cfg request w :
  ∃ reply w',
    onecall env cfg request w = (Ok reply, w') ∧
    (pendingRequests w !! generateCacheKey (weatherParamsOf (query request)) = None →
     match payload reply with
     | SendData body =>
         (statusCode reply = 200 ∧ truthy body = true ∧
          ∃ v, headers reply = [("X-Response-Time", v)]) ∨
         (answered env w w' (HttpStatus (statusCode reply) body) ∧ headers reply = [])
     | SendJson fields =>
         statusCode reply ∈ handlerStatuses ∧ ("success", JBool false) ∈ fields ∧
         (statusCode reply = 503 →
          ∃ message, answered env w w' (HttpNoResponse message) ∧
                     ("error", JStr message) ∈ fields) ∧
         (statusCode reply = 429 →
          ("error", JStr noKeysMessage) ∈ fields ∨
          (initialized cfg = false ∧ ("error", JStr (initFailure cfg)) ∈ fields))
     end).
Proof.
  rewrite onecall_run. cbn zeta.
  destruct (negb (present (appIdKey cfg))).
  { eexists _, _. split; [reflexivity |]. intros _. simpl. unfold handlerStatuses.
    split; [in_list |]. split; [apply list_elem_of_here |]. split; intros [=]. }
  destruct (decide (query request !! "appid" ≠ appIdKey cfg)).
  { eexists _, _. split; [reflexivity |]. intros _. simpl. unfold handlerStatuses.
    split; [in_list |]. split; [apply list_elem_of_here |]. split; intros [=]. }
  destruct (getWeatherData env cfg (weatherParamsOf (query request)) w) as [r w1] eqn:Hrun.
  destruct (getWeatherData_outcome env cfg _ w r w1 Hrun) as (Hserved & _).
  cbn [fst snd].
  destruct r as [result|e].
  - destruct (truthy result) eqn:Htruthy; simpl.
    + eexists _, _. split; [reflexivity |]. intros _. simpl. left. eauto.
    + eexists _, _. split; [reflexivity |]. intros _. simpl. unfold handlerStatuses.
      split; [in_list |]. split; [apply list_elem_of_here |]. split; intros [=].
  - assert (pendingRequests w !! generateCacheKey (weatherParamsOf (query request)) = None →
            (initialized cfg = false ∧ e = initError cfg) ∨ e = ThrownNull ∨
            raisedBy env w w1 e) as Hwhy.
    { intros Hpend. inversion Hserved; subst; try congruence; tauto. }
    unfold onecallCatch.
    destruct e as [message|message status data|message|].
    + eexists _, _. split; [reflexivity |]. intros Hpend. cbn [payload statusCode].
      assert (∀ b : bool, (if b then 429 else 500) ∈ handlerStatuses) as Hst
        by (intros []; unfold handlerStatuses; in_list).
      split; [apply Hst |]. split; [apply list_elem_of_here |].
      split; [by destruct (_ || _) |].
      destruct (Hwhy Hpend) as [[Hinit [= ->]]|[[=]|Hr]].
      * intros _. right. split; [done |]. apply list_elem_of_further, list_elem_of_here.
      * simpl in Hr. destruct Hr as [->|[->| ->]].
        -- intros _. left. apply list_elem_of_further, list_elem_of_here.
        -- by rewrite noConnectionMessage_is_not_quota.
        -- by rewrite cacheFullMessage_is_not_quota.
    + eexists _, _. split; [reflexivity |]. intros Hpend. simpl.
      destruct (Hwhy Hpend) as [[_ [=]]|[[=]|Hr]]. right. done.
    + eexists _, _. split; [reflexivity |]. intros Hpend. simpl.
      destruct (Hwhy Hpend) as [[_ [=]]|[[=]|Hr]]. unfold handlerStatuses.
      split; [in_list |]. split; [apply list_elem_of_here |].
      split; [| intros [=]]. intros _. exists message. split; [done |].
      apply list_elem_of_further, list_elem_of_here.
    + eexists _, _. split; [reflexivity |]. intros _. simpl. unfold handlerStatuses.
      split; [in_list |]. split; [apply list_elem_of_here |]. split; intros [=].
Qed.

Example upstream_status_passes_through :
  fst (onecall (failingEnv 401) sampleConfig sampleRequest (sampleWorld ∅)) =
    Ok {| statusCode := 401; headers := []; payload := SendData (JObj "{cod:500}") |}.
Proof. vm_compute. reflexivity. Qed.

(** ** WeatherService: health and cache maintenance *)

(** X21. [WeatherService.healthCheck] never throws and changes nothing.  It
    reports a healthy service exactly when the service is initialized,
    Redis is connected and some configured credential has a readable usage
    counter below the daily limit; [availableKeys] is the number of such
    credentials.  A cache that is full only sets [checks.cache] to false.
    Otherwise the report is unhealthy: with the initialization error when
    the service is not initialized, and with the no-credential message both
    when every credential is spent and when Redis is not connected. *)
Theorem healthCheck_status env cfg startTime w :
  ∃ h, healthCheck env cfg startTime w = (Ok h, w) ∧
    match h with
    | ServiceHealth.Healthy checks availableKeys cacheUsage enabled uptime mode cluster =>
        initialized cfg = true ∧ redisConnected w = true ∧
        availableKeys = countIf (underLimitb env cfg w) (keys cfg) ∧
        (∃ k, k ∈ keys cfg ∧ underLimit env cfg w k) ∧
        ServiceHealth.apiKeys checks = true ∧ ServiceHealth.redis checks = true ∧
        (cacheFull cfg w = true → ServiceHealth.cache checks = Some false) ∧
        uptime = (now w - startTime) `div` 1000
    | ServiceHealth.Unhealthy error mode =>
        (initialized cfg = false ∧ error = initFailure cfg) ∨
        (initialized cfg = true ∧ error = "没有可用的API密钥" ∧
         (redisConnected w = false ∨ ∀ k, k ∈ keys cfg → ¬ underLimit env cfg w k))
    end.
Proof.
  unfold healthCheck, ensureInitialized. unfold_monad.
  destruct (initialized cfg); simpl.
  2:{ eexists. split; [reflexivity |]. by left. }
  rewrite managerHealthCheck_run. simpl.
  destruct (redisConnected w) eqn:Hconn; simpl.
  2:{ eexists. split; [reflexivity |]. right. auto. }
  destruct (decide (countIf (underLimitb env cfg w) (keys cfg) = 0)) as [Hzero|Hpos]; simpl.
  - eexists. split; [reflexivity |]. right. split; [done |]. split; [done |]. right.
    intros k Hk Hu.
    assert (0 < countIf (underLimitb env cfg w) (keys cfg)); [| lia].
    apply countIf_pos. exists k. split; [done |]. by apply underLimitb_true.
  - eexists. split; [reflexivity |]. simpl.
    pose proof (countIf_bounds (underLimitb env cfg w) (keys cfg)) as Hb.
    split; [done |]. split; [done |]. split; [done |]. split.
    { assert (0 < countIf (underLimitb env cfg w) (keys cfg)) as Hlt by lia.
      apply countIf_pos in Hlt as (k & Hk & Hu). exists k. split; [done |].
      by apply underLimitb_true. }
    split; [apply bool_decide_eq_true; lia |]. split; [done |]. split; [| done].
    unfold cacheFull. destruct (cacheEnabled cfg); simpl; [| done].
    intros Hfull. apply bool_decide_eq_true in Hfull. f_equal.
    apply bool_decide_eq_false. lia.
Qed.

Example healthy_with_a_full_cache :
  ∃ checks availableKeys cacheUsage enabled uptime mode cluster,
    fst (healthCheck (healthyEnv (JObj "{}")) smallCacheConfig 1705336100000 fullCacheWorld) =
      Ok (ServiceHealth.Healthy checks availableKeys cacheUsage enabled uptime mode cluster) ∧
    ServiceHealth.cache checks = Some false ∧ cacheUsage = "2/2" ∧
    ∃ e, fst (getWeatherData (healthyEnv (JObj "{}")) smallCacheConfig sampleParams
                fullCacheWorld) = Throw e.
Proof. vm_compute. eauto 12. Qed.

(** X22. [clearCache] with the cache enabled reports the number of entries
    the cache held and leaves it empty, so that the lookup of any
    fingerprint misses and [set] has room again unless [maxKeys] is 0;
    nothing but the cache changes (the ledger, the statistics, the pending
    requests stay).  With the cache disabled it reports failure and changes
    nothing. *)
Theorem clearCache_empties cfg w :
  ∃ c w', clearCache cfg w = (Ok c, w') ∧
    Cleared.success c = cacheEnabled cfg ∧ Cleared.cacheEnabled c = cacheEnabled cfg ∧
    if cacheEnabled cfg then
      Cleared.clearedItems c = Some (Z.of_nat (size (cache w))) ∧
      w' = setCache ∅ w ∧
      (∀ key, cacheGet key w' = (Ok None, w')) ∧
      (maxKeys cfg ≠ 0 → cacheFull cfg w' = false)
    else
      Cleared.clearedItems c = None ∧ w' = w.
Proof.
  unfold clearCache. destruct (cacheEnabled cfg) eqn:Hen; simpl.
  - eexists _, _. split; [reflexivity |]. simpl. repeat split.
    unfold cacheFull. rewrite Hen. simpl. intros Hne.
    apply bool_decide_eq_false. rewrite map_size_empty. lia.
  - eexists _, _. split; [reflexivity |]. done.
Qed.
(** ** buildApiUrl: the query text *)

(** X23. The query of the URL that [buildApiUrl] returns reads back, under
    the form-urlencoded parser, as exactly the entries the function put in,
    in their order, whatever characters the parameter values hold: no value
    can add, hide or change another parameter, and the text holds one
    [appid], the secret of the credential. *)
Theorem buildApiUrl_reads_back (params : Params) (apiKey : string) :
  ∃ query,
    queryOf (buildApiUrl params apiKey) = Some query ∧
    UrlParse.parse query = urlParams params apiKey ∧
    filter (λ p, p.1 = "appid") (UrlParse.parse query) = [("appid", apiKey)].
Proof.
  exists (Url.serialize (urlParams params apiKey)).
  split; [apply queryOf_buildApiUrl |].
  rewrite serialize_parse. split; [done | apply urlParams_appid].
Qed.

Example buildApiUrl_example :
  buildApiUrl {[ "lat" := "1"; "lon" := "2"; "lang" := "en&appid=other" ]} "secret one" =
    "https://api.openweathermap.org/data/3.0/onecall?lat=1&lon=2&appid=secret+one&lang=en%26appid%3Dother".
Proof. vm_compute. reflexivity. Qed.

Lemma buildApiUrl_inj p1 k1 p2 k2 :
  buildApiUrl p1 k1 = buildApiUrl p2 k2 → urlParams p1 k1 = urlParams p2 k2.
Proof.
  intros H. apply (f_equal queryOf) in H. rewrite !queryOf_buildApiUrl in H.
  injection H as H. apply (f_equal UrlParse.parse) in H.
  by rewrite !serialize_parse in H.
Qed.

Lemma urlParams_fingerprint p1 k1 p2 k2 :
  urlParams p1 k1 = urlParams p2 k2 →
  k1 = k2 ∧ generateCacheKey p1 = generateCacheKey p2.
Proof.
  unfold urlParams, generateCacheKey.
  destruct (present (p1 !! "exclude")), (present (p1 !! "units")), (present (p1 !! "lang"));
    destruct (present (p2 !! "exclude")), (present (p2 !! "units")), (present (p2 !! "lang"));
    simpl; intros H; simplify_eq; split; congruence.
Qed.

(** X24. On parameter sets that pass the validation of [/onecall], two sets
    have the same cache fingerprint exactly when [buildApiUrl] gives them
    the same upstream URL (with one credential): a body found in the cache
    was fetched from the URL the request at hand would be sent to, and two
    requests for one URL share one entry.  The URL also fixes the credential:
    different secrets give different URLs. *)
Theorem fingerprint_agrees_with_url (p1 p2 : Params) (apiKey : string) :
  validated p1 = true → validated p2 = true →
  (generateCacheKey p1 = generateCacheKey p2 ↔ buildApiUrl p1 apiKey = buildApiUrl p2 apiKey) ∧
  (∀ otherKey, buildApiUrl p1 apiKey = buildApiUrl p2 otherKey → apiKey = otherKey).
Proof.
  intros Hv1 Hv2. split; [split |].
  - intros H.
    destruct (fingerprint_separates p1 p2 Hv1 Hv2 H) as (Hlat & Hlon & He & Hu & Hl).
    unfold buildApiUrl, urlParams. by rewrite Hlat, Hlon, He, Hu, Hl.
  - intros H. by apply buildApiUrl_inj, urlParams_fingerprint in H as [_ ?].
  - intros otherKey H. by apply buildApiUrl_inj, urlParams_fingerprint in H as [? _].
Qed.

Lemma fingerprint_agrees_with_url_witness :
  let p1 : Params := {[ "lat" := "39.9"; "lon" := "116.4"; "units" := "metric" ]} in
  let p2 : Params := {[ "lat" := "39.9"; "lon" := "116.4"; "lang" := "zh_cn" ]} in
  (generateCacheKey p1 = generateCacheKey p2 ↔ buildApiUrl p1 "secret" = buildApiUrl p2 "secret") ∧
  (∀ otherKey, buildApiUrl p1 "secret" = buildApiUrl p2 otherKey → "secret" = otherKey).
Proof.
  intros p1 p2. apply fingerprint_agrees_with_url; vm_compute; reflexivity.
Defined.

(** ** ApiKeyManager: the hourly cleanup *)

Lemma startsWith_app_false (prefix pre rest : string) :
  Js.startsWith prefix pre = false → (String.length prefix ≤ String.length pre)%nat →
  Js.startsWith prefix (pre +:+ rest) = false.
Proof.
  revert pre. induction prefix as [|a prefix IH]; intros [|b pre]; simpl; try done; try lia.
  destruct (decide (a = b)); [| done]. intros H Hlen. apply IH; [done | lia].
Qed.

Lemma keys_under_prefix (prefix : string) (names foreign : list string) :
  Js.startsWith prefix keyPrefix = false → (String.length prefix ≤ String.length keyPrefix)%nat →
  Forall (λ k, Js.startsWith prefix k = false) foreign →
  filter (λ k, Js.startsWith prefix k = true)
    (map (String.append keyPrefix) names ++ foreign) = [].
Proof.
  intros Hp Hlen Hforeign. rewrite filter_app.
  assert (∀ l : list string, Forall (λ k, Js.startsWith prefix k = false) l →
            filter (λ k, Js.startsWith prefix k = true) l = []) as Hnone.
  { induction 1 as [|k l Hk _ IH]; [done |].
    rewrite filter_cons_False; [done | by rewrite Hk]. }
  rewrite (Hnone foreign Hforeign), app_nil_r.
  apply Hnone, Forall_forall. intros k [name [-> _]]%list_elem_of_fmap.
  by apply startsWith_app_false.
Qed.

(** X25. While no key of the database outside the [keyPrefix] of the client
    starts with [usage:], [times:] or [errors:] (as when the service has the
    database to itself), the hourly [cleanupOldUsage] deletes nothing and
    leaves the world as it is, whether its commands are served or rejected:
    the KEYS patterns are sent without the prefix under which the counters
    are stored, so they match none of them, and the counters of past days
    stay. *)
Theorem cleanupOldUsage_deletes_nothing env w :
  Forall (λ k, Js.startsWith "usage:" k = false ∧ Js.startsWith "times:" k = false ∧
               Js.startsWith "errors:" k = false) (foreignKeys env (now w)) →
  cleanupOldUsage env w = (Ok tt, w).
Proof.
  intros Hforeign. unfold cleanupOldUsage.
  destruct (redisConnected w); cbn [negb]; [| done].
  assert (∀ pattern prefix,
            Js.startsWith prefix keyPrefix = false →
            (String.length prefix ≤ String.length keyPrefix)%nat →
            Forall (λ k, Js.startsWith prefix k = false) (foreignKeys env (now w)) →
            redisKeys env pattern prefix w =
              if redisFails env (KEYS pattern) then (Throw redisError, w) else (Ok [], w))
    as Hkeys.
  { intros pattern prefix Hp Hlen Hf. unfold redisKeys.
    by rewrite keys_under_prefix. }
  unfold_monad.
  do 3 (rewrite Hkeys;
          [| done | cbn; lia
           | eapply Forall_impl; [exact Hforeign |]; intros k (? & ? & ?); done];
        destruct (redisFails env (KEYS _)); [done |]; cbn beta iota).
  done.
Qed.

Lemma cleanupOldUsage_deletes_nothing_witness :
  let w := sampleWorld {[ "usage:key_1:2024-01-14" := 7; "usage:key_1:2024-01-15" := 3 ]} in
  cleanupOldUsage (healthyEnv JNull) w = (Ok tt, w).
Proof.
  intros w. apply (cleanupOldUsage_deletes_nothing (healthyEnv JNull) w). constructor.
Defined.

(** A key of another program that is named like a counter makes the cleanup
    delete the counter of that name. *)
Example cleanup_with_foreign_key :
  let env := {| redisFails := λ _, false; foreignKeys := λ _, ["usage:key_1:2024-01-14"];
                upstream := upstream (healthyEnv JNull) |} in
  let w := sampleWorld {[ "usage:key_1:2024-01-14" := 7; "usage:key_1:2024-01-15" := 3 ]} in
  strings (redis (cleanupOldUsage env w).2) = {[ "usage:key_1:2024-01-15" := 3 ]}.
Proof. vm_compute. reflexivity. Qed.

(** ** The day key, day by day *)

Lemma civil_fields days :
  let '(y, m, d) := JsDate.civil days in
  1 <= m <= 12 ∧ 1 <= d <= 31 ∧ daysFromCivil (y, m, d) = days ∧
  (days + 719468) `div` 146097 * 400 <= y <= (days + 719468) `div` 146097 * 400 + 400.
Proof.
  unfold JsDate.civil, daysFromCivil.
  set (z := days + 719468).
  set (era := z `div` 146097).
  set (doe := z - era * 146097).
  assert (0 <= doe < 146097) as Hdoe by (subst doe era; Z.div_mod_to_equations; lia).
  set (yoe := (doe - doe `div` 1460 + doe `div` 36524 - doe `div` 146096) `div` 365).
  assert (0 <= yoe <= 399) as Hyoe by (subst yoe; Z.div_mod_to_equations; lia).
  set (doy := doe - (365 * yoe + yoe `div` 4 - yoe `div` 100)).
  assert (0 <= doy <= 365) as Hdoy by (subst doy yoe; Z.div_mod_to_equations; lia).
  set (mp := (5 * doy + 2) `div` 153).
  assert (0 <= mp <= 11) as Hmp by (subst mp; Z.div_mod_to_equations; lia).
  set (d := doy - (153 * mp + 2) `div` 5 + 1).
  assert (1 <= d <= 31) as Hd by (subst d mp; Z.div_mod_to_equations; lia).
  assert (doy = (153 * mp + 2) `div` 5 + d - 1) as Hback by (subst d; lia).
  assert (doe = yoe * 365 + yoe `div` 4 - yoe `div` 100 + doy) as Hdoe' by (subst doy; lia).
  assert (days = era * 146097 + doe - 719468) as Hdays by (subst doe z; lia).
  clearbody d doy mp yoe doe. clearbody era.
  destruct (decide (mp < 10)) as [Hlt|Hge].
  - destruct (decide (mp + 3 <= 2)); [lia |].
    split; [lia |]. split; [done |]. split; [| lia].
    rewrite Z.add_0_r.
    replace (mp + 3 - 3) with mp by lia.
    replace ((yoe + era * 400) `div` 400) with era by (Z.div_mod_to_equations; lia).
    replace (yoe + era * 400 - era * 400) with yoe by lia.
    rewrite <- Hback, <- Hdoe'. lia.
  - destruct (decide (mp - 9 <= 2)); [| lia].
    split; [lia |]. split; [done |]. split; [| lia].
    replace (mp - 9 + 9) with mp by lia.
    replace (yoe + era * 400 + 1 - 1) with (yoe + era * 400) by lia.
    replace ((yoe + era * 400) `div` 400) with era by (Z.div_mod_to_equations; lia).
    replace (yoe + era * 400 - era * 400) with yoe by lia.
    rewrite <- Hback, <- Hdoe'. lia.
Qed.

Lemma civil_inj d1 d2 : JsDate.civil d1 = JsDate.civil d2 → d1 = d2.
Proof.
  intros H. pose proof (civil_fields d1) as H1. pose proof (civil_fields d2) as H2.
  rewrite H in H1. destruct (JsDate.civil d2) as [[y m] d].
  destruct H1 as (_ & _ & <- & _), H2 as (_ & _ & <- & _). done.
Qed.

Lemma append_inv_length (a b r s : string) :
  String.length a = String.length b → a +:+ r = b +:+ s → a = b ∧ r = s.
Proof.
  revert b. induction a as [|x a IH]; intros [|y b]; simpl; try done.
  intros [= Hlen] [= -> H]. destruct (IH b Hlen H) as [-> ->]. done.
Qed.

Lemma pad_length w n : String.length (Js.pad w n) = w.
Proof.
  revert n. induction w as [|w IH]; intros n; simpl; [done |].
  rewrite append_length, IH. simpl. lia.
Qed.

Lemma digit_inj a b : Js.digit a = Js.digit b → a `mod` 10 = b `mod` 10.
Proof.
  unfold Js.digit. intros H. apply (f_equal nat_of_ascii) in H.
  pose proof (Z.mod_pos_bound a 10 ltac:(lia)). pose proof (Z.mod_pos_bound b 10 ltac:(lia)).
  rewrite !nat_ascii_embedding in H by lia. lia.
Qed.

Lemma pad_inj w a b :
  0 <= a < 10 ^ Z.of_nat w → 0 <= b < 10 ^ Z.of_nat w → Js.pad w a = Js.pad w b → a = b.
Proof.
  revert a b. induction w as [|w IH]; intros a b Ha Hb.
  - simpl in Ha, Hb. lia.
  - rewrite Nat2Z.inj_succ, Z.pow_succ_r in Ha, Hb by lia. cbn [Js.pad].
    intros H. apply append_inv_length in H as [Hhead [= Hlast]]; [| by rewrite !pad_length].
    apply digit_inj in Hlast.
    apply IH in Hhead; [| Z.div_mod_to_equations; lia..].
    Z.div_mod_to_equations; lia.
Qed.

Lemma String_inj c s c' s' : String c s = String c' s' → c = c' ∧ s = s'.
Proof. by intros [= -> ->]. Qed.

Lemma isoYear_length y :
  String.length (JsDate.isoYear y) = if decide (0 <= y <= 9999) then 4%nat else 7%nat.
Proof.
  unfold JsDate.isoYear. destruct (decide (0 <= y <= 9999)); [apply pad_length |].
  destruct (decide (y < 0)); cbn [String.append String.length]; by rewrite pad_length.
Qed.

Lemma isoYear_inj y1 y2 :
  -999999 <= y1 <= 999999 → -999999 <= y2 <= 999999 →
  JsDate.isoYear y1 = JsDate.isoYear y2 → y1 = y2.
Proof.
  intros H1 H2 H. pose proof (f_equal String.length H) as Hlen.
  rewrite !isoYear_length in Hlen. revert H. unfold JsDate.isoYear.
  destruct (decide (0 <= y1 <= 9999)), (decide (0 <= y2 <= 9999)); try done.
  - intros H. apply pad_inj in H; [done | simpl; lia..].
  - destruct (decide (y1 < 0)), (decide (y2 < 0));
      change (?c +:+ Js.pad 6 ?n) with (String.append c (Js.pad 6 n));
      cbn [String.append]; intros H; apply String_inj in H as [Hsign H];
      try discriminate Hsign; apply pad_inj in H; simpl; lia.
Qed.

Lemma isoDate_inj d1 d2 :
  -100000000 <= d1 <= 100000000 → -100000000 <= d2 <= 100000000 →
  JsDate.isoDate d1 = JsDate.isoDate d2 → d1 = d2.
Proof.
  intros H1 H2. unfold JsDate.isoDate.
  pose proof (civil_fields d1) as Hf1. pose proof (civil_fields d2) as Hf2.
  destruct (JsDate.civil d1) as [[y1 m1] dd1] eqn:Hc1.
  destruct (JsDate.civil d2) as [[y2 m2] dd2] eqn:Hc2.
  destruct Hf1 as (Hm1 & Hdd1 & _ & Hy1), Hf2 as (Hm2 & Hdd2 & _ & Hy2).
  assert (-999999 <= y1 <= 999999) as Hr1 by (Z.div_mod_to_equations; lia).
  assert (-999999 <= y2 <= 999999) as Hr2 by (Z.div_mod_to_equations; lia).
  intros H.
  assert (String.length (JsDate.isoYear y1) = String.length (JsDate.isoYear y2)) as Hlen.
  { apply (f_equal String.length) in H. rewrite !append_length in H.
    cbn [String.length] in H. rewrite !pad_length in H. lia. }
  apply append_inv_length in H as [Hy H]; [| done].
  apply isoYear_inj in Hy; [| done..].
  apply (append_inv_head "-") in H.
  apply append_inv_length in H as [Hm Hd]; [| by rewrite !pad_length].
  apply (append_inv_head "-") in Hd.
  apply pad_inj in Hm; [| simpl; lia..]. apply pad_inj in Hd; [| simpl; lia..].
  apply civil_inj. rewrite Hc1, Hc2. congruence.
Qed.

(** X26. Within the range of [Date], two instants have the same day key
    exactly when they lie in the same UTC day: the key is constant from one
    UTC midnight to the next and never comes back on another day.  So the
    counters of one credential on different days never share a Redis
    key. *)
Theorem dayKey_separates_days (t1 t2 : Z) :
  validTime t1 → validTime t2 →
  (getTodayString t1 = getTodayString t2 ↔ JsDate.Day t1 = JsDate.Day t2) ∧
  (∀ keyId,
     (usageKeyOf keyId (getTodayString t1) = usageKeyOf keyId (getTodayString t2) ↔
        JsDate.Day t1 = JsDate.Day t2) ∧
     (errorKeyOf keyId (getTodayString t1) = errorKeyOf keyId (getTodayString t2) ↔
        JsDate.Day t1 = JsDate.Day t2)).
Proof.
  unfold validTime. intros H1 H2.
  assert (getTodayString t1 = getTodayString t2 ↔ JsDate.Day t1 = JsDate.Day t2) as Hkey.
  { split; [| apply getTodayString_same_day].
    rewrite !getTodayString_utc. apply isoDate_inj;
      unfold JsDate.Day, JsDate.msPerDay; Z.div_mod_to_equations; lia. }
  split; [exact Hkey |]. intros keyId. rewrite <- Hkey.
  unfold usageKeyOf, errorKeyOf.
  split; (split; [| by intros ->]); intros H; by do 3 apply append_inv_head in H.
Qed.

Lemma dayKey_separates_days_witness :
  let t1 := 1705336200000 in
  let t2 := 1705363200000 in
  (getTodayString t1 = getTodayString t2 ↔ JsDate.Day t1 = JsDate.Day t2) ∧
  (∀ keyId,
     (usageKeyOf keyId (getTodayString t1) = usageKeyOf keyId (getTodayString t2) ↔
        JsDate.Day t1 = JsDate.Day t2) ∧
     (errorKeyOf keyId (getTodayString t1) = errorKeyOf keyId (getTodayString t2) ↔
        JsDate.Day t1 = JsDate.Day t2)).
Proof.
  intros t1 t2. apply (dayKey_separates_days t1 t2); unfold validTime; lia.
Defined.
